(** * HebrewMatcher: pattern compilation and batched matching engine

    A shallow embedding of [src/components/HebrewMatcher.jsx]: the template
    compiler ([templateToRegex]), the niqqud stripper ([stripNiqqud]), the
    word-list loader ([loadWordlist]), the batched scan ([searchInWordlist]),
    the orchestrator ([loadAndSearchWordlists]) and the part of [handleSearch]
    that post-processes its result.

    JavaScript strings are sequences of UTF-16 code units; they are modelled
    as [list N].  Host facilities the component relies on (the [RegExp]
    constructor with the [u] flag, [String.prototype.normalize], [fetch],
    [localeCompare]) are modelled explicitly or taken as parameters. *)

From Stdlib Require Import List NArith ZArith Lia Bool String Ascii Sorted Permutation.
From stdpp Require Import gmap.
From Equations Require Import Equations.
Import ListNotations.

(** ** JavaScript strings and code points *)

Abbreviation jsstring := (list N).

(** An ASCII literal of the source as a sequence of code units. *)
Definition str (s : string) : jsstring := map N_of_ascii (list_ascii_of_string s).

(** The code unit of an ASCII character. *)
Definition chr (a : ascii) : N := N_of_ascii a.

Section CodePoints.
Local Open Scope N_scope.

Definition is_lead_surrogate (u : N) : bool := (0xD800 <=? u) && (u <=? 0xDBFF).
Definition is_trail_surrogate (u : N) : bool := (0xDC00 <=? u) && (u <=? 0xDFFF).

Definition surrogate_pair (hi lo : N) : N :=
  0x10000 + (hi - 0xD800) * 0x400 + (lo - 0xDC00).

(** [StringToCodePoints]: a lead surrogate followed by a trail surrogate is
    one code point, every other code unit stands for itself. *)
Fixpoint toCodePoints (s : jsstring) : list N :=
  match s with
  | [] => []
  | u :: rest =>
      match rest with
      | v :: rest' =>
          if is_lead_surrogate u && is_trail_surrogate v
          then surrogate_pair u v :: toCodePoints rest'
          else u :: toCodePoints rest
      | [] => [u]
      end
  end.

Definition fromCodePoint (c : N) : jsstring :=
  if c <? 0x10000 then [c]
  else [0xD800 + (c - 0x10000) / 0x400; 0xDC00 + (c - 0x10000) mod 0x400].

Definition fromCodePoints (l : list N) : jsstring := flat_map fromCodePoint l.

(** [WhiteSpace] and [LineTerminator] of ECMAScript: what [\s] matches and
    what [trim] removes. *)
Definition is_white_space (c : N) : bool :=
  existsb (N.eqb c)
    [0x9; 0xA; 0xB; 0xC; 0xD; 0x20; 0xA0; 0x1680; 0x2028; 0x2029; 0x202F;
     0x205F; 0x3000; 0xFEFF]
  || ((0x2000 <=? c) && (c <=? 0x200A)).

Fixpoint trimStart (s : jsstring) : jsstring :=
  match s with
  | c :: rest => if is_white_space c then trimStart rest else s
  | [] => []
  end.

Definition trim (s : jsstring) : jsstring := rev (trimStart (rev (trimStart s))).

(** [text.split(/\r?\n/)]: a line ends at a line feed, and a carriage return
    directly before that line feed belongs to the separator. *)
Fixpoint split_lines_from (s : jsstring) (cur : jsstring) : list jsstring :=
  match s with
  | [] => [cur]
  | c :: rest =>
      if c =? 10 then cur :: split_lines_from rest []
      else
        match rest with
        | d :: rest' =>
            if (c =? 13) && (d =? 10) then cur :: split_lines_from rest' []
            else split_lines_from rest (cur ++ [c])
        | [] => [cur ++ [c]]
        end
  end.

Definition split_lines (text : jsstring) : list jsstring := split_lines_from text [].

(** [haystack.includes(needle)]: substring search on code units. *)
Fixpoint starts_with (needle haystack : jsstring) : bool :=
  match needle, haystack with
  | [], _ => true
  | n :: needle', h :: haystack' => (h =? n) && starts_with needle' haystack'
  | _ :: _, [] => false
  end.

Fixpoint includes (haystack needle : jsstring) : bool :=
  starts_with needle haystack
  || match haystack with
     | _ :: rest => includes rest needle
     | [] => false
     end.

End CodePoints.

(** ** Unicode character data

    The engine's Unicode tables are a parameter of the model. *)

Record UnicodeData := {
  (** full compatibility decomposition of a code point (mappings applied
      recursively, Hangul included); [[c]] when [c] does not decompose *)
  compat_decomposition : N -> list N;
  (** Canonical_Combining_Class *)
  combining_class : N -> N;
  (** the property expressions [\p{...}] the engine accepts, and their sets *)
  unicode_property : jsstring -> option (N -> bool)
}.

(** ** Outcomes of a computation

    A JavaScript call returns a value or throws.  [Unmodelled] marks the
    inputs on which the model of a host facility does not say what the host
    does (see [RegExp_u]); it is never caught, and no run of the component
    meets it (lemma [loadAndSearchWordlists_modelled]). *)

Inductive js_error :=
| SyntaxError                        (* new RegExp: invalid regular expression *)
| FetchRejected (reason : jsstring)  (* fetch(...) or res.text() rejects *)
| UrlLoadFailed (status : N)         (* "טעינת URL נכשלה: " + res.status *)
| NoCustomSource                     (* "בחר/י מקור: URL או הדבקה ידנית" *)
| DefaultSourceFailed (status : N).  (* "טעינת מקור ברירת מחדל נכשלה: " + res.status *)

Inductive outcome (A : Type) :=
| Returns (a : A)
| Throws (e : js_error)
| Unmodelled.
Arguments Returns {A} a.
Arguments Throws {A} e.
Arguments Unmodelled {A}.

#[global] Instance outcome_ret : MRet outcome := fun A a => Returns a.
#[global] Instance outcome_bind : MBind outcome := fun A B k m =>
  match m with
  | Returns a => k a
  | Throws e => Throws e
  | Unmodelled => Unmodelled
  end.
#[global] Instance outcome_fmap : FMap outcome := fun A B f m =>
  match m with
  | Returns a => Returns (f a)
  | Throws e => Throws e
  | Unmodelled => Unmodelled
  end.

(** ** Regular expressions

    The abstract syntax of the regular expressions the component creates:
    a sequence of assertions, characters and character classes. *)

Inductive char_set :=
| Digit                       (* \d *)
| Space                       (* \s *)
| WordChar                    (* \w *)
| Property (name : jsstring). (* \p{name} *)

Inductive class_atom :=
| AtomChar (c : N)
| AtomSet (complemented : bool) (s : char_set).

Inductive class_item :=
| ItemChar (c : N)
| ItemRange (lo hi : N)
| ItemSet (complemented : bool) (s : char_set).

Record char_class := { negated : bool; items : list class_item }.

Inductive term :=
| AssertStart                 (* ^ *)
| AssertEnd                   (* $ *)
| TChar (c : N)
| TClass (cc : char_class).

Record RegExp := { terms : list term; unicode : bool }.

Section Matching.
Local Open Scope N_scope.
Variable U : UnicodeData.

Definition in_char_set (s : char_set) (c : N) : bool :=
  match s with
  | Digit => (48 <=? c) && (c <=? 57)
  | Space => is_white_space c
  | WordChar =>
      ((97 <=? c) && (c <=? 122)) || ((65 <=? c) && (c <=? 90))
      || ((48 <=? c) && (c <=? 57)) || (c =? 95)
  | Property name =>
      match unicode_property U name with
      | Some p => p c
      | None => false
      end
  end.

Definition item_matches (it : class_item) (c : N) : bool :=
  match it with
  | ItemChar x => c =? x
  | ItemRange lo hi => (lo <=? c) && (c <=? hi)
  | ItemSet complemented s => xorb complemented (in_char_set s c)
  end.

Definition class_matches (cc : char_class) (c : N) : bool :=
  xorb (negated cc) (existsb (fun it => item_matches it c) (items cc)).

(** Does the sequence of terms match a prefix of [input]?  [at_start] tells
    whether [input] is the whole subject (no [m] flag: [^] and [$] match at
    the two ends of the subject only). *)
Fixpoint match_here (ts : list term) (at_start : bool) (input : list N) : bool :=
  match ts with
  | [] => true
  | AssertStart :: ts' => at_start && match_here ts' at_start input
  | AssertEnd :: ts' =>
      match input with
      | [] => match_here ts' at_start input
      | _ :: _ => false
      end
  | TChar x :: ts' =>
      match input with
      | c :: rest => (c =? x) && match_here ts' false rest
      | [] => false
      end
  | TClass cc :: ts' =>
      match input with
      | c :: rest => class_matches cc c && match_here ts' false rest
      | [] => false
      end
  end.

(** The match is tried at every index of the subject, left to right. *)
Fixpoint match_from (ts : list term) (at_start : bool) (input : list N) : bool :=
  match_here ts at_start input
  || match input with
     | _ :: rest => match_from ts false rest
     | [] => false
     end.

(** [rx.test(s)] for a regular expression without the [g] and [y] flags.
    With the [u] flag the subject is read as code points. *)
Definition test (rx : RegExp) (s : jsstring) : bool :=
  match_from (terms rx) true (if unicode rx then toCodePoints s else s).

End Matching.

(** ** The [RegExp] constructor with the [u] flag

    [new RegExp(source, "u")] parses [source]; a source outside the pattern
    grammar throws a [SyntaxError].  The parser below follows the grammar of
    ECMAScript patterns in Unicode mode for assertions, pattern characters,
    identity escapes and character classes (the whole class grammar).  The
    remaining top-level constructs (dot, groups, alternation, quantifiers,
    other escapes) are never written by [templateToRegex], which escapes every
    syntax character outside a class (lemma [templateToRegex_modelled]); on
    those the model answers [Unmodelled]. *)

Section Parsing.
Local Open Scope N_scope.
Variable U : UnicodeData.

Definition is_chr (c : N) (a : ascii) : bool := c =? chr a.
Arguments is_chr _ _%_char.

(** [SyntaxCharacter]: one of ^ $ \ . * + ? ( ) [ ] { } |, which is also the
    set the compiler's escaping expression [/[.*+?^${}()|[\]\\]/g] matches. *)
Definition syntax_characters : jsstring := str ".*+?^${}()|[]\".

Definition is_syntax_char (c : N) : bool := existsb (N.eqb c) syntax_characters.

Definition is_decimal_digit (c : N) : bool := (48 <=? c) && (c <=? 57).

Definition is_ascii_letter (c : N) : bool :=
  ((97 <=? c) && (c <=? 122)) || ((65 <=? c) && (c <=? 90)).

Definition hex_value (c : N) : option N :=
  if is_decimal_digit c then Some (c - 48)
  else if (97 <=? c) && (c <=? 102) then Some (c - 87)
  else if (65 <=? c) && (c <=? 70) then Some (c - 55)
  else None.

(** Exactly [n] hexadecimal digits. *)
Fixpoint hex_digits (n : nat) (src : jsstring) (acc : N) : option (N * jsstring) :=
  match n with
  | O => Some (acc, src)
  | S n' =>
      match src with
      | c :: rest =>
          match hex_value c with
          | Some d => hex_digits n' rest (acc * 16 + d)
          | None => None
          end
      | [] => None
      end
  end.

(** The longest run of hexadecimal digits. *)
Fixpoint hex_run (src : jsstring) (acc : N) : N * jsstring :=
  match src with
  | c :: rest =>
      match hex_value c with
      | Some d => hex_run rest (acc * 16 + d)
      | None => (acc, src)
      end
  | [] => (acc, [])
  end.

Definition is_property_char (c : N) : bool :=
  is_ascii_letter c || is_decimal_digit c || is_chr c "_" || is_chr c "=".

Fixpoint property_run (src : jsstring) : jsstring * jsstring :=
  match src with
  | c :: rest =>
      if is_property_char c
      then let (name, rest') := property_run rest in (c :: name, rest')
      else ([], src)
  | [] => ([], [])
  end.

(** [\u] escapes in Unicode mode: [\u{H..H}], [\uHHHH], and a lead surrogate
    escape followed by a trail surrogate escape read as one code point.
    [src] starts after the [u]. *)
Definition parse_unicode_escape (src : jsstring) : option (N * jsstring) :=
  match src with
  | c :: rest =>
      if is_chr c "{" then
        match rest with
        | d :: _ =>
            match hex_value d with
            | Some _ =>
                let (v, rest1) := hex_run rest 0 in
                match rest1 with
                | e :: rest2 =>
                    if is_chr e "}" && (v <=? 0x10FFFF) then Some (v, rest2) else None
                | [] => None
                end
            | None => None
            end
        | [] => None
        end
      else
        match hex_digits 4 src 0 with
        | Some (hi, rest1) =>
            match rest1 with
            | b :: u :: rest2 =>
                if is_lead_surrogate hi && is_chr b "\" && is_chr u "u" then
                  match hex_digits 4 rest2 0 with
                  | Some (lo, rest3) =>
                      if is_trail_surrogate lo
                      then Some (surrogate_pair hi lo, rest3)
                      else Some (hi, rest1)
                  | None => Some (hi, rest1)
                  end
                else Some (hi, rest1)
            | _ => Some (hi, rest1)
            end
        | None => None
        end
  | [] => None
  end.

(** [ClassEscape] in Unicode mode; [src] starts after the backslash.
    [None] is a syntax error. *)
Definition parse_class_escape (src : jsstring) : option (class_atom * jsstring) :=
  match src with
  | [] => None
  | c :: rest =>
      if is_chr c "b" then Some (AtomChar 8, rest)
      else if is_chr c "-" then Some (AtomChar c, rest)
      else if is_chr c "d" then Some (AtomSet false Digit, rest)
      else if is_chr c "D" then Some (AtomSet true Digit, rest)
      else if is_chr c "s" then Some (AtomSet false Space, rest)
      else if is_chr c "S" then Some (AtomSet true Space, rest)
      else if is_chr c "w" then Some (AtomSet false WordChar, rest)
      else if is_chr c "W" then Some (AtomSet true WordChar, rest)
      else if is_chr c "p" || is_chr c "P" then
        match rest with
        | d :: rest1 =>
            if is_chr d "{" then
              let (name, rest2) := property_run rest1 in
              match rest2, unicode_property U name with
              | e :: rest3, Some _ =>
                  if is_chr e "}"
                  then Some (AtomSet (is_chr c "P") (Property name), rest3)
                  else None
              | _, _ => None
              end
            else None
        | [] => None
        end
      else if is_chr c "f" then Some (AtomChar 12, rest)
      else if is_chr c "n" then Some (AtomChar 10, rest)
      else if is_chr c "r" then Some (AtomChar 13, rest)
      else if is_chr c "t" then Some (AtomChar 9, rest)
      else if is_chr c "v" then Some (AtomChar 11, rest)
      else if is_chr c "c" then
        match rest with
        | l :: rest1 =>
            if is_ascii_letter l then Some (AtomChar (l mod 32), rest1) else None
        | [] => None
        end
      else if is_chr c "0" then
        match rest with
        | d :: _ => if is_decimal_digit d then None else Some (AtomChar 0, rest)
        | [] => Some (AtomChar 0, rest)
        end
      else if is_chr c "x" then
        match hex_digits 2 rest 0 with
        | Some (v, rest1) => Some (AtomChar v, rest1)
        | None => None
        end
      else if is_chr c "u" then
        match parse_unicode_escape rest with
        | Some (v, rest1) => Some (AtomChar v, rest1)
        | None => None
        end
      else if is_syntax_char c || is_chr c "/" then Some (AtomChar c, rest)
      else None
  end.

(** A source character read as a code point. *)
Definition parse_source_char (c : N) (rest : jsstring) : N * jsstring :=
  match rest with
  | d :: rest' =>
      if is_lead_surrogate c && is_trail_surrogate d
      then (surrogate_pair c d, rest')
      else (c, rest)
  | [] => (c, rest)
  end.

(** [ClassAtom]; the caller has checked that [src] does not start with the
    closing bracket. *)
Definition parse_class_atom (src : jsstring) : option (class_atom * jsstring) :=
  match src with
  | [] => None
  | c :: rest =>
      if is_chr c "\" then parse_class_escape rest
      else let (v, rest') := parse_source_char c rest in Some (AtomChar v, rest')
  end.

Definition item_of_atom (a : class_atom) : class_item :=
  match a with
  | AtomChar c => ItemChar c
  | AtomSet complemented s => ItemSet complemented s
  end.

(** Is the next atom the lower end of a range: a dash follows, and the dash
    is not the last character of the class? *)
Definition dash_then_atom (src : jsstring) : bool :=
  match src with
  | d :: e :: _ => is_chr d "-" && negb (is_chr e "]")
  | _ => false
  end.

(** [ClassRanges] up to and including the closing bracket.  Every round
    consumes at least one code unit, so [length src] rounds always suffice;
    [fuel] only makes the recursion structural. *)
Fixpoint parse_class_items (fuel : nat) (src : jsstring) (acc : list class_item)
  : outcome (list class_item * jsstring) :=
  match src with
  | [] => Throws SyntaxError                    (* unterminated character class *)
  | c :: rest =>
      if is_chr c "]" then Returns (acc, rest)
      else
        match fuel with
        | O => Unmodelled
        | S fuel' =>
            match parse_class_atom src with
            | None => Throws SyntaxError
            | Some (a, rest1) =>
                if dash_then_atom rest1 then
                  match parse_class_atom (tl rest1) with
                  | None => Throws SyntaxError
                  | Some (b, rest2) =>
                      match a, b with
                      | AtomChar lo, AtomChar hi =>
                          if lo <=? hi
                          then parse_class_items fuel' rest2 (acc ++ [ItemRange lo hi])
                          else Throws SyntaxError     (* range out of order *)
                      | _, _ => Throws SyntaxError    (* a set as a range bound *)
                      end
                  end
                else parse_class_items fuel' rest1 (acc ++ [item_of_atom a])
            end
        end
  end.

(** A character class, [src] starting after the opening bracket. *)
Definition parse_class (src : jsstring) : outcome (char_class * jsstring) :=
  let '(neg, body) :=
    match src with
    | c :: rest => if is_chr c "^" then (true, rest) else (false, src)
    | [] => (false, src)
    end in
  '(its, rest) ← parse_class_items (length body) body [];
  mret ({| negated := neg; items := its |}, rest).

(** The terms of a pattern. *)
Fixpoint parse_terms (fuel : nat) (src : jsstring) (acc : list term)
  : outcome (list term) :=
  match src with
  | [] => Returns acc
  | c :: rest =>
      match fuel with
      | O => Unmodelled
      | S fuel' =>
          if is_chr c "^" then parse_terms fuel' rest (acc ++ [AssertStart])
          else if is_chr c "$" then parse_terms fuel' rest (acc ++ [AssertEnd])
          else if is_chr c "\" then
            match rest with
            | e :: rest' =>
                if is_syntax_char e || is_chr e "/"
                then parse_terms fuel' rest' (acc ++ [TChar e])
                else Unmodelled
            | [] => Throws SyntaxError          (* \ at end of pattern *)
            end
          else if is_chr c "[" then
            '(cc, rest') ← parse_class rest;
            parse_terms fuel' rest' (acc ++ [TClass cc])
          else if is_chr c "]" || is_chr c "}" then Throws SyntaxError
          else if is_syntax_char c then Unmodelled    (* . * + ? ( ) | { *)
          else
            let (v, rest') := parse_source_char c rest in
            parse_terms fuel' rest' (acc ++ [TChar v])
      end
  end.

Definition RegExp_u (source : jsstring) : outcome RegExp :=
  ts ← parse_terms (length source) source [];
  mret {| terms := ts; unicode := true |}.

(** ** [templateToRegex] *)

Definition HEBREW_LETTERS_CLASS : jsstring := str "[\u0590-\u05FF]".

(** [ch.replace(/[.*+?^${}()|[\]\\]/g, "\\$&")] for a one-unit string. *)
Definition escape (ch : N) : jsstring :=
  if is_syntax_char ch then [chr "\"; ch] else [ch].

(** The loop of [templateToRegex] from index [i] on: [template] is what is
    left of the template, [out] and [inClass] are the loop's variables, whose
    final values are returned. *)
Fixpoint scan (template : jsstring) (inClass : bool) (out : jsstring)
  : jsstring * bool :=
  match template with
  | [] => (out, inClass)
  | ch :: rest =>
      if is_chr ch "[" && negb inClass then scan rest true (out ++ [ch])
      else if is_chr ch "]" && inClass then scan rest false (out ++ [ch])
      else if inClass then scan rest inClass (out ++ [ch])
      else if is_chr ch "?" then scan rest inClass (out ++ HEBREW_LETTERS_CLASS)
      else scan rest inClass (out ++ escape ch)
  end.

(** The source handed to [new RegExp]. *)
Definition regex_source (template : jsstring) (wholeWord : bool) : jsstring :=
  (if wholeWord then str "^" else []) ++ fst (scan template false [])
  ++ (if wholeWord then str "$" else []).

Definition templateToRegex (template : jsstring) (wholeWord : bool) : outcome RegExp :=
  RegExp_u (regex_source template wholeWord).

End Parsing.

(** ** Regular expression literals of the component *)

(** [const HEBREW_BLOCK = /[\u0590-\u05FF]/] *)
Definition HEBREW_BLOCK : RegExp :=
  {| terms := [TClass {| negated := false; items := [ItemRange 0x590 0x5FF] |}];
     unicode := false |}.

(** [/\s/] *)
Definition WHITESPACE : RegExp :=
  {| terms := [TClass {| negated := false; items := [ItemSet false Space] |}];
     unicode := false |}.

(** [/\p{M}/u] *)
Definition MARK : RegExp :=
  {| terms := [TClass {| negated := false;
                         items := [ItemSet false (Property (str "M"))] |}];
     unicode := true |}.

(** ** [stripNiqqud] *)

Section Normalizer.
Local Open Scope N_scope.
Variable U : UnicodeData.

(** Canonical ordering: a character of non-zero combining class moves left
    past the characters of greater combining class directly before it.
    [before] is the text already ordered, last character first. *)
Fixpoint reorder_insert (c : N) (before : list N) : list N :=
  match before with
  | p :: before' =>
      if (0 <? combining_class U c) && (combining_class U c <? combining_class U p)
      then p :: reorder_insert c before'
      else c :: before
  | [] => [c]
  end.

Definition canonical_reorder (l : list N) : list N :=
  rev (fold_left (fun before c => reorder_insert c before) l []).

(** [s.normalize("NFKD")]: compatibility decomposition of every code point,
    then canonical ordering. *)
Definition normalize_NFKD (s : jsstring) : jsstring :=
  fromCodePoints
    (canonical_reorder (flat_map (compat_decomposition U) (toCodePoints s))).

(** [Array.from(s)]: the string iterator yields one string per code point. *)
Fixpoint Array_from (s : jsstring) : list jsstring :=
  match s with
  | [] => []
  | u :: rest =>
      match rest with
      | v :: rest' =>
          if is_lead_surrogate u && is_trail_surrogate v
          then [u; v] :: Array_from rest'
          else [u] :: Array_from rest
      | [] => [[u]]
      end
  end.

Definition stripNiqqud (s : jsstring) : jsstring :=
  concat (List.filter (fun ch => negb (test U MARK ch))
                      (Array_from (normalize_NFKD s))).

End Normalizer.

(** ** Batches

    [BATCH_SIZE] is 10000 in the component.  The loops below take the batch
    size as a parameter, a positive number. *)

Definition BATCH_SIZE : positive := 10000.

(** [arr.slice(from, to)] for [from <= to]. *)
Definition slice {A} (arr : list A) (from to : nat) : list A :=
  firstn (to - from) (skipn from arr).

(** The batch loop of [loadWordlist]:
    [for (let i = 0; i < words.length; i += BATCH_SIZE)
       processedWords.push(...words.slice(i, i + BATCH_SIZE).map(stripNiqqud))] *)
Equations? strip_batches (U : UnicodeData) (batch_size : positive)
    (words : list jsstring) (i : nat) (processedWords : list jsstring)
  : list jsstring by wf (length words - i) lt :=
  strip_batches U batch_size words i processedWords with lt_dec i (length words) := {
    | left _ =>
        strip_batches U batch_size words (i + Pos.to_nat batch_size)
          (processedWords
           ++ map (stripNiqqud U) (slice words i (i + Pos.to_nat batch_size)));
    | right _ => processedWords }.
Proof. lia. Qed.

(** ** Events

    The callbacks [onProgress] and [onSourceStatus] and [console.warn] are
    observed through the events they are called with; the callbacks
    themselves are assumed not to throw. *)

Inductive progress_message :=
| Loading (sourceKey : jsstring)                  (* `טוען ${sourceKey}...` *)
| Searching (name : jsstring)                     (* `מחפש ב-${name}...` *)
| SearchingPart (sourceKey : jsstring) (currentBatch totalBatches : nat)
                                    (* `מחפש ב-${sourceKey} (חלק ${currentBatch}/${totalBatches})...` *)
| RemovingDuplicates.                             (* "מסיר כפילויות..." *)

Inductive source_status := success | error.

Inductive event :=
| Progress (message : progress_message)
| SourceStatus (sourceKey : jsstring) (status : source_status) (count : nat)
               (message : option js_error)
| ConsoleWarn (sourceKey : jsstring) (e : js_error).

(** ** Letter constraints *)

Record LetterConstraints := {
  selected : list jsstring;
  deselected : list jsstring
}.

(** [for (const letter of selected) if (!word.includes(letter)) return false] *)
Fixpoint all_selected (word : jsstring) (letters : list jsstring) : bool :=
  match letters with
  | [] => true
  | letter :: rest =>
      if negb (includes word letter) then false else all_selected word rest
  end.

(** [for (const letter of deselected) if (word.includes(letter)) return false] *)
Fixpoint no_deselected (word : jsstring) (letters : list jsstring) : bool :=
  match letters with
  | [] => true
  | letter :: rest =>
      if includes word letter then false else no_deselected word rest
  end.

Definition passesLetterConstraints (letterConstraints : option LetterConstraints)
    (word : jsstring) : bool :=
  match letterConstraints with
  | None => true
  | Some lc =>
      if all_selected word (selected lc) then no_deselected word (deselected lc)
      else false
  end.

(** [Math.ceil(a / b)] on lengths. *)
Definition ceil_div (a b : nat) : nat := (a + b - 1) / b.

(** The batch loop of [searchInWordlist]:
    [for (let i = 0; i < words.length; i += BATCH_SIZE) { ... }].
    [keep] is the filter callback
    [w => rx.test(w) && passesLetterConstraints(w)]; [onProgress], when
    given, is called after every batch with the number of the batch,
    [Math.floor(i / BATCH_SIZE) + 1], and [totalBatches]. *)
Equations? search_batches (batch_size : positive) (keep : jsstring -> bool)
    (onProgress : option (nat -> nat -> list event)) (words : list jsstring)
    (totalBatches : nat) (i : nat) (matches : list jsstring) (trace : list event)
  : list jsstring * list event by wf (length words - i) lt :=
  search_batches batch_size keep onProgress words totalBatches i matches trace
    with lt_dec i (length words) := {
    | left _ =>
        let batch := slice words i (i + Pos.to_nat batch_size) in
        let batchMatches := List.filter keep batch in
        let currentBatch := i / Pos.to_nat batch_size + 1 in
        search_batches batch_size keep onProgress words totalBatches
          (i + Pos.to_nat batch_size)
          (matches ++ batchMatches)
          (trace ++ match onProgress with
                    | Some f => f currentBatch totalBatches
                    | None => []
                    end);
    | right _ => (matches, trace) }.
Proof. lia. Qed.

(** ** The loader, the scan and the orchestrator *)

(** [const sources = { adjectives: "adjectives.txt", ... }] *)
Definition sources : gmap jsstring jsstring :=
  list_to_map
    [(str "adjectives", str "adjectives.txt");
     (str "nouns", str "nouns.txt");
     (str "verbs", str "verbs_no_fatverb.txt");
     (str "he_IL", str "he_IL.dic")].

(** What [await fetch(url, ...)] followed by [res.ok], [res.status] and
    [await res.text()] can give: a rejection (network failure, at either
    [await]), or a response. *)
Inductive fetch_result :=
| FetchRejects (reason : jsstring)
| Response (ok : bool) (status : N) (body : jsstring).

Record Options := {
  opt_stripNiqqud : bool;
  opt_unique : bool;
  opt_wholeWord : bool
}.

Record CustomList := { name : jsstring; words : list jsstring }.

Record Stats := { total : nat; matched : nat }.

Record SearchResult := { matches : list jsstring; stats : Stats }.

(** The variables of [loadAndSearchWordlists] that its loops update. *)
Record Accumulator := {
  allMatches : list jsstring;
  allWordCounts : Stats;
  trace : list event
}.

Section Engine.
Variable U : UnicodeData.
Variable fetch : jsstring -> fetch_result.
Variable batch_size : positive.

(** [s && s.trim().length] *)
Definition given (s : option jsstring) : bool :=
  match s with
  | Some t => negb (Nat.eqb (length (trim t)) 0)
  | None => false
  end.

(** [const res = await fetch(url, ...); if (!res.ok) throw new Error(... +
    res.status); text = await res.text()] *)
Definition fetch_text (url : jsstring) (failure : N -> js_error) : outcome jsstring :=
  match fetch url with
  | FetchRejects reason => Throws (FetchRejected reason)
  | Response ok status body => if ok then Returns body else Throws (failure status)
  end.

(** [text.split(/\r?\n/).map(s => s.trim()).filter(Boolean)] followed by
    [.filter(w => !/\s/.test(w) && HEBREW_BLOCK.test(w))] *)
Definition candidate_words (text : jsstring) : list jsstring :=
  let lines := List.filter (fun s => negb (Nat.eqb (length s) 0))
                           (map trim (split_lines text)) in
  List.filter (fun w => negb (test U WHITESPACE w) && test U HEBREW_BLOCK w) lines.

Definition loadWordlist (sourceKey : jsstring) (customUrl pasted : option jsstring)
    (opts : Options) : outcome (list jsstring) :=
  text ←
    (if decide (sourceKey = str "custom") then
       if given pasted then Returns (default [] pasted)
       else if given customUrl
            then fetch_text (trim (default [] customUrl)) UrlLoadFailed
            else Throws NoCustomSource
     else
       (* a key [sources] does not hold reads [undefined], which [fetch] turns
          into a URL; the names every object inherits from [Object.prototype],
          which the page never passes as keys, are not modelled *)
       let url := default (str "undefined") (sources !! sourceKey) in
       fetch_text url DefaultSourceFailed);
  let loaded := candidate_words text in
  mret (if opt_stripNiqqud opts
        then strip_batches U batch_size loaded 0 []
        else loaded).

(** [searchInWordlist]: the matches, and the events of the [onProgress]
    calls it made. *)
Definition searchInWordlist (wordlist : list jsstring) (pattern : jsstring)
    (wholeWord : bool) (onProgress : option (nat -> nat -> list event))
    (letterConstraints : option LetterConstraints)
  : outcome (list jsstring * list event) :=
  rx ← templateToRegex U pattern wholeWord;
  let keep w := test U rx w && passesLetterConstraints letterConstraints w in
  if Nat.leb (length wordlist) (Pos.to_nat batch_size)
  then mret (List.filter keep wordlist, [])
  else
    let totalBatches := ceil_div (length wordlist) (Pos.to_nat batch_size) in
    mret (search_batches batch_size keep onProgress wordlist totalBatches 0 [] []).

Section Orchestrator.
Variable pattern : jsstring.
Variable opts : Options.
(** whether the callbacks were passed *)
Variable onSourceStatus onProgress : bool.
Variable letterConstraints : option LetterConstraints.

Definition progress (m : progress_message) : list event :=
  if onProgress then [Progress m] else [].

Definition source_status_event (sourceKey : jsstring) (s : source_status)
    (count : nat) (message : option js_error) : list event :=
  if onSourceStatus then [SourceStatus sourceKey s count message] else [].

(** The [catch] block of the source loop. *)
Definition catch_source (sourceKey : jsstring) (e : js_error) : list event :=
  [ConsoleWarn sourceKey e] ++ source_status_event sourceKey error 0 (Some e).

(** The body of [for (const sourceKey of sourceKeys)]. *)
Definition process_source (acc : Accumulator) (sourceKey : jsstring)
  : outcome Accumulator :=
  let trace1 := trace acc ++ progress (Loading sourceKey) in
  match loadWordlist sourceKey None None opts with
  | Returns loaded =>
      let total1 := total (allWordCounts acc) + length loaded in
      let trace2 := trace1 ++ progress (Searching sourceKey) in
      match searchInWordlist loaded pattern (opt_wholeWord opts)
              (Some (fun currentBatch totalBatches =>
                       progress (SearchingPart sourceKey currentBatch totalBatches)))
              letterConstraints with
      | Returns (found, events) =>
          Returns {| allMatches := allMatches acc ++ found;
                     allWordCounts :=
                       {| total := total1;
                          matched := matched (allWordCounts acc) + length found |};
                     trace := trace2 ++ events
                              ++ source_status_event sourceKey success
                                   (length loaded) None |}
      | Throws e =>
          Returns {| allMatches := allMatches acc;
                     allWordCounts :=
                       {| total := total1; matched := matched (allWordCounts acc) |};
                     trace := trace2 ++ catch_source sourceKey e |}
      | Unmodelled => Unmodelled
      end
  | Throws e =>
      Returns {| allMatches := allMatches acc;
                 allWordCounts := allWordCounts acc;
                 trace := trace1 ++ catch_source sourceKey e |}
  | Unmodelled => Unmodelled
  end.

Fixpoint process_sources (acc : Accumulator) (sourceKeys : list jsstring)
  : outcome Accumulator :=
  match sourceKeys with
  | [] => Returns acc
  | sourceKey :: rest =>
      acc' ← process_source acc sourceKey;
      process_sources acc' rest
  end.

(** The body of [for (const customList of customWordlists)]: no [try]. *)
Definition process_custom (acc : Accumulator) (customList : CustomList)
  : outcome Accumulator :=
  '(found, _) ← searchInWordlist (words customList) pattern (opt_wholeWord opts)
                  None letterConstraints;
  mret {| allMatches := allMatches acc ++ found;
          allWordCounts :=
            {| total := total (allWordCounts acc) + length (words customList);
               matched := matched (allWordCounts acc) + length found |};
          trace := trace acc ++ progress (Searching (name customList)) |}.

Fixpoint process_customs (acc : Accumulator) (customWordlists : list CustomList)
  : outcome Accumulator :=
  match customWordlists with
  | [] => Returns acc
  | customList :: rest =>
      acc' ← process_custom acc customList;
      process_customs acc' rest
  end.

(** [for (const word of allMatches)
       if (!seen.has(word)) { seen.add(word); finalMatches.push(word) }] *)
Fixpoint dedupe_loop (remaining : list jsstring) (seen : gset jsstring)
    (finalMatches : list jsstring) : list jsstring :=
  match remaining with
  | [] => finalMatches
  | word :: rest =>
      if decide (word ∈ seen)
      then dedupe_loop rest seen finalMatches
      else dedupe_loop rest ({[word]} ∪ seen) (finalMatches ++ [word])
  end.

Definition dedupe (found : list jsstring) : list jsstring :=
  dedupe_loop found ∅ [].

(** [loadAndSearchWordlists]: the returned object and the events of the run. *)
Definition loadAndSearchWordlists (sourceKeys : list jsstring)
    (customWordlists : list CustomList) : outcome (SearchResult * list event) :=
  let acc0 := {| allMatches := []; allWordCounts := {| total := 0; matched := 0 |};
                 trace := [] |} in
  acc1 ← process_sources acc0 sourceKeys;
  acc2 ← process_customs acc1 customWordlists;
  if opt_unique opts then
    let finalMatches := dedupe (allMatches acc2) in
    mret ({| matches := finalMatches;
             stats := {| total := total (allWordCounts acc2);
                         matched := length finalMatches |} |},
          trace acc2 ++ progress RemovingDuplicates)
  else
    mret ({| matches := allMatches acc2; stats := allWordCounts acc2 |}, trace acc2).

End Orchestrator.
End Engine.

(** ** [handleSearch]: validation, the call of the orchestrator, the sort *)

Section Sorting.
(** [a.localeCompare(b)]: negative, zero or positive. *)
Variable localeCompare : jsstring -> jsstring -> Z.

(** [arr.sort((a, b) => a.localeCompare(b))].  The sort of ECMAScript is
    stable, which for a consistent comparator fixes its result; it is
    modelled by a stable insertion sort. *)
Fixpoint sort_insert (x : jsstring) (sorted : list jsstring) : list jsstring :=
  match sorted with
  | [] => [x]
  | y :: rest =>
      if (localeCompare x y <=? 0)%Z then x :: sorted else y :: sort_insert x rest
  end.

Definition Array_sort (arr : list jsstring) : list jsstring :=
  fold_right sort_insert [] arr.

End Sorting.

(** The states of a letter in the picker; a letter without state has no
    entry in [letterStates]. *)
Inductive letter_state := picked | unpicked.   (* 'selected', 'deselected' *)

(** [letterStates] is an object; [Object.entries] lists its entries in the
    order they were added. *)
Definition getSelectedDeselectedSummary (letterStates : list (jsstring * letter_state))
  : LetterConstraints :=
  {| selected :=
       map fst (List.filter (fun e => match snd e with picked => true | unpicked => false end)
                            letterStates);
     deselected :=
       map fst (List.filter (fun e => match snd e with unpicked => true | picked => false end)
                            letterStates) |}.

Section HandleSearch.
Variable U : UnicodeData.
Variable fetch : jsstring -> fetch_result.
Variable localeCompare : jsstring -> jsstring -> Z.
Variable batch_size : positive.

(** The component state [handleSearch] reads. *)
Record SearchForm := {
  form_pattern : jsstring;
  form_selectedSources : list jsstring;
  form_customWordlists : list CustomList;
  form_paste : jsstring;
  form_letterStates : list (jsstring * letter_state);
  form_stripNiqqudFlag : bool;
  form_unique : bool;
  form_sort : bool;
  form_wholeWord : bool
}.

(** The call [await loadAndSearchWordlists(selectedSources,
    [...customWordlists, ...customFromPaste], pattern, searchOpts,
    handleSourceStatus, handleProgress, letterConstraints)] with the
    arguments [handleSearch] builds for it. *)
Definition handleSearch_call (form : SearchForm) : outcome (SearchResult * list event) :=
  let customFromPaste :=
    if negb (Nat.eqb (length (trim (form_paste form))) 0)
    then [{| name := str "pasted";
             words := candidate_words U (trim (form_paste form)) |}]
    else [] in
  let searchOpts := {| opt_stripNiqqud := form_stripNiqqudFlag form;
                       opt_unique := form_unique form;
                       opt_wholeWord := form_wholeWord form |} in
  let summary := getSelectedDeselectedSummary (form_letterStates form) in
  let letterConstraints :=
    if Nat.ltb 0 (length (selected summary)) || Nat.ltb 0 (length (deselected summary))
    then Some summary else None in
  loadAndSearchWordlists U fetch batch_size (form_pattern form) searchOpts
    true true letterConstraints
    (form_selectedSources form)
    (form_customWordlists form ++ customFromPaste).

(** [None]: a validation alert was shown and nothing was searched.
    Otherwise the outcome of the [try] block: the matches and statistics
    handed to [setMatches] and [setStats], or the error shown as status.
    The array sorted in place is the [matches] array of the object
    [loadAndSearchWordlists] returned. *)
Definition handleSearch (form : SearchForm) : option (outcome SearchResult) :=
  if Nat.eqb (length (form_pattern form)) 0 then None
  else if Nat.eqb (length (form_selectedSources form)) 0
          && Nat.eqb (length (form_customWordlists form)) 0
          && Nat.eqb (length (trim (form_paste form))) 0 then None
  else
    Some ('(result, _) ← handleSearch_call form;
          let finalResults :=
            if form_sort form
            then Array_sort localeCompare (matches result)
            else matches result in
          mret {| matches := finalResults; stats := stats result |}).

End HandleSearch.

(** ** Concrete host data used in examples *)

Section Examples.
Local Open Scope N_scope.

(** An excerpt of the Unicode Character Database: Basic Latin and the Hebrew
    letters (no decomposition, class 0, not marks), the decompositions and
    the combining classes of the code points listed, and the marks of the
    Hebrew block and of the block of combining diacritical marks. *)
Definition unicode_excerpt : UnicodeData :=
  {| compat_decomposition := fun c =>
       if c =? 0xA8 then [0x20; 0x308]          (* DIAERESIS: <compat> 0020 0308 *)
       else if c =? 0xE9 then [0x65; 0x301]     (* E WITH ACUTE: 0065 0301 *)
       else if c =? 0xFB21 then [0x5D0]         (* HEBREW LETTER WIDE ALEF: <font> 05D0 *)
       else if c =? 0xFB2A then [0x5E9; 0x5C1]  (* SHIN WITH SHIN DOT: 05E9 05C1 *)
       else if c =? 0xFB4F then [0x5D0; 0x5DC]  (* LIGATURE ALEF LAMED: <compat> 05D0 05DC *)
       else [c];
     combining_class := fun c =>
       if (0x5B0 <=? c) && (c <=? 0x5B9) then c - 0x5B0 + 10   (* sheva .. holam *)
       else if c =? 0x5BA then 19                              (* holam haser *)
       else if c =? 0x5BB then 20                              (* qubuts *)
       else if c =? 0x5BC then 21                              (* dagesh *)
       else if c =? 0x5BD then 22                              (* meteg *)
       else if c =? 0x5BF then 23                              (* rafe *)
       else if c =? 0x5C1 then 24                              (* shin dot *)
       else if c =? 0x5C2 then 25                              (* sin dot *)
       else if c =? 0x5C7 then 18                              (* qamats qatan *)
       else if (c =? 0x301) || (c =? 0x308) then 230
       else 0;
     unicode_property := fun name =>
       if decide (name = str "M")
       then Some (fun c =>
              ((0x300 <=? c) && (c <=? 0x36F))
              || ((0x591 <=? c) && (c <=? 0x5BD)) || (c =? 0x5BF)
              || ((0x5C1 <=? c) && (c <=? 0x5C2))
              || ((0x5C4 <=? c) && (c <=? 0x5C5)) || (c =? 0x5C7))
       else None |}.

(** A server that has no resource at all. *)
Definition fetch_404 (url : jsstring) : fetch_result := Response false 404 [].

(** Comparison by code units, which orders the Hebrew letters
    alphabetically. *)
Fixpoint compare_units (a b : jsstring) : Z :=
  match a, b with
  | [], [] => 0%Z
  | [], _ :: _ => (-1)%Z
  | _ :: _, [] => 1%Z
  | x :: a', y :: b' =>
      if x <? y then (-1)%Z else if y <? x then 1%Z else compare_units a' b'
  end.

(** Hebrew letters, and the point qamats. *)
Definition alef : N := 0x5D0.
Definition bet : N := 0x5D1.
Definition gimel : N := 0x5D2.
Definition he : N := 0x5D4.
Definition vav : N := 0x5D5.
Definition zayin : N := 0x5D6.
Definition kaf : N := 0x5DB.
Definition lamed : N := 0x5DC.
Definition final_mem : N := 0x5DD.
Definition mem : N := 0x5DE.
Definition shin : N := 0x5E9.
Definition qamats : N := 0x5B8.

End Examples.

(** A server with one word list: [nouns.txt] holds the lines
    [אב], [אגב], [ אָב ] (with a qamats, between blanks), [ab] and [בב];
    every other resource is missing. *)
Definition nouns_txt : jsstring :=
  [alef; bet; 10; alef; gimel; bet; 13; 10;
   32; alef; qamats; bet; 32; 10; 97; 98; 10; bet; bet]%N.

Definition fetch_nouns (url : jsstring) : fetch_result :=
  if decide (url = str "nouns.txt") then Response true 200 nouns_txt
  else Response false 404 [].

Definition plain_options : Options :=
  {| opt_stripNiqqud := false; opt_unique := false; opt_wholeWord := true |}.

(** The template [א?ב]. *)
Definition alef_wildcard_bet : jsstring := [alef; chr "?"; bet].

(** The form of the scenario "dedupe and sort": the words [בב], [אא], [בב]
    in a custom list, a template that matches them all. *)
Definition dedupe_sort_form : SearchForm :=
  {| form_pattern := str "??";
     form_selectedSources := [];
     form_customWordlists := [{| name := str "list"; words := [[bet; bet]; [alef; alef]; [bet; bet]] |}];
     form_paste := [];
     form_letterStates := [];
     form_stripNiqqudFlag := false;
     form_unique := true;
     form_sort := true;
     form_wholeWord := true |}.

(** ** Vocabulary of the specification *)

Section Vocabulary.
Local Open Scope N_scope.

(** The Alphabet: the Hebrew block. *)
Definition hebrew_block (c : N) : Prop := 0x590 <= c <= 0x5FF.

(** A string of 16-bit code units. *)
Definition well_formed (s : jsstring) : Prop := Forall (fun u => u < 0x10000) s.

(** The invariants of a Word: not empty, no white space, a letter of the
    Alphabet. *)
Definition Word (w : jsstring) : Prop :=
  w <> [] /\ (forall c, In c w -> is_white_space c = false) /\
  (exists c, In c w /\ hebrew_block c).

(** A combining mark: what [\p{M}] matches. *)
Definition is_mark (U : UnicodeData) (c : N) : bool :=
  in_char_set U (Property (str "M")) c.

(** A code point that normalization leaves alone. *)
Definition inert (U : UnicodeData) (c : N) : Prop :=
  compat_decomposition U c = [c] /\ combining_class U c = 0 /\ is_mark U c = false.

(** [letter] occurs in [word] as a substring. *)
Definition occurs_in (letter word : jsstring) : Prop :=
  exists before after, word = before ++ letter ++ after.

(** The filter callback of [searchInWordlist]. *)
Definition accepts (U : UnicodeData) (rx : RegExp)
    (letterConstraints : option LetterConstraints) (w : jsstring) : bool :=
  test U rx w && passesLetterConstraints letterConstraints w.

(** [a] does not sort after [b]. *)
Definition collates_before (localeCompare : jsstring -> jsstring -> Z)
    (a b : jsstring) : Prop :=
  (localeCompare a b <= 0)%Z.

(** What [dedupe] makes of the result of a run without it. *)
Definition deduped (r : SearchResult) : SearchResult :=
  {| matches := dedupe (matches r);
     stats := {| total := total (stats r); matched := length (dedupe (matches r)) |} |}.

(** The part of the accumulator the returned object is made of. *)
Definition results_of (acc : Accumulator) : list jsstring * Stats :=
  (allMatches acc, allWordCounts acc).

(** The returned object as a function of the results accumulated. *)
Definition result_of (unique : bool) (res : list jsstring * Stats) : SearchResult :=
  if unique
  then {| matches := dedupe (fst res);
          stats := {| total := total (snd res); matched := length (dedupe (fst res)) |} |}
  else {| matches := fst res; stats := snd res |}.

(** Where a reader of a pattern source stands with respect to brackets and
    backslashes. *)
Inductive bracket_state := Top | TopEscape | InClass | InClassEscape | Lost.

(** [Lost]: the reader met, outside a class, a construct that is beyond the
    constructs [RegExp_u] models. *)
Definition bracket_step (s : bracket_state) (c : N) : bracket_state :=
  match s with
  | Top =>
      if c =? chr "\" then TopEscape
      else if c =? chr "[" then InClass
      else if existsb (N.eqb c) (str ".*+?()|{") then Lost
      else Top
  | TopEscape => if is_syntax_char c || is_chr c "/" then Top else Lost
  | InClass =>
      if c =? chr "\" then InClassEscape else if c =? chr "]" then Top else InClass
  | InClassEscape => InClass
  | Lost => Lost
  end.

Definition bracket_run (s : bracket_state) (src : jsstring) : bracket_state :=
  fold_left bracket_step src s.

(** The loop variable [inClass] and the state of a reader of [out]. *)
Definition agrees (inClass : bool) (s : bracket_state) : Prop :=
  if inClass then s = InClass \/ s = InClassEscape else s = Top \/ s = InClass.

(** A code unit that is neither a backslash nor a closing bracket. *)
Definition plain (c : N) : Prop := c <> chr "\" /\ c <> chr "]".

End Vocabulary.
Arguments bracket_run : simpl never.
Arguments bracket_step : simpl never.

Section RunVocabulary.
Variable U : UnicodeData.
Variable fetch : jsstring -> fetch_result.
Variable batch_size : positive.
Variable opts : Options.
Variable letterConstraints : option LetterConstraints.

(** What loading a built-in source gives in a run. *)
Definition load (sourceKey : jsstring) : outcome (list jsstring) :=
  loadWordlist U fetch batch_size sourceKey None None opts.

Definition loaded_count (sourceKey : jsstring) : nat :=
  match load sourceKey with
  | Returns loaded => length loaded
  | _ => 0
  end.

Definition load_fails (sourceKey : jsstring) : bool :=
  match load sourceKey with
  | Throws _ => true
  | _ => false
  end.

(** The matches of a source: those of its words the matcher and the letter
    constraints accept; none when the source does not load. *)
Definition source_matches (rx : RegExp) (sourceKey : jsstring) : list jsstring :=
  match load sourceKey with
  | Returns loaded => List.filter (accepts U rx letterConstraints) loaded
  | _ => []
  end.

Definition custom_matches (rx : RegExp) (customList : CustomList) : list jsstring :=
  List.filter (accepts U rx letterConstraints) (words customList).

End RunVocabulary.

(** ** Templates of literals, wildcards and classes

    The templates the page documents: characters taken as written, [?] for
    one Hebrew letter, and classes such as [[אי]]; a class may list
    characters and ranges of characters, and may be negated.  The
    characters are Unicode scalar values, written in UTF-16. *)

Section TemplateItems.
Local Open Scope N_scope.

(** A Unicode scalar value: a code point that is no surrogate. *)
Definition scalar_value (c : N) : bool :=
  (c <? 0xD800) || ((0xE000 <=? c) && (c <=? 0x10FFFF)).

Inductive class_member :=
| One (c : N)                (* c *)
| FromTo (lo hi : N).        (* lo-hi *)

Inductive template_item :=
| Literal (c : N)                                       (* a character taken as written *)
| Wildcard                                              (* ? *)
| OneOf (complemented : bool) (members : list class_member).  (* [members], [^members] *)

Definition render_member (m : class_member) : jsstring :=
  match m with
  | One c => fromCodePoint c
  | FromTo lo hi => fromCodePoint lo ++ [chr "-"] ++ fromCodePoint hi
  end.

Definition render_item (it : template_item) : jsstring :=
  match it with
  | Literal c => fromCodePoint c
  | Wildcard => [chr "?"]
  | OneOf complemented members =>
      chr "[" :: (if complemented then [chr "^"] else [])
      ++ flat_map render_member members ++ [chr "]"]
  end.

(** The template string the items spell. *)
Definition render (its : list template_item) : jsstring := flat_map render_item its.

(** A code unit of a template that is neither the wildcard nor the opening
    bracket. *)
Definition literal_unit (u : N) : bool := negb (is_chr u "?") && negb (is_chr u "[").

(** A literal is any character but the wildcard and the opening bracket. *)
Definition plain_literal (c : N) : bool := scalar_value c && literal_unit c.

(** A character of a class is any character but the backslash and the
    closing bracket. *)
Definition class_char (c : N) : bool :=
  scalar_value c && negb (is_chr c "\") && negb (is_chr c "]").

Definition plain_member (m : class_member) : bool :=
  match m with
  | One c => class_char c
  | FromTo lo hi => class_char lo && class_char hi && (lo <=? hi)
  end.

(** The character a member begins with. *)
Definition member_head (m : class_member) : N :=
  match m with
  | One c => c
  | FromTo lo _ => lo
  end.

(** The members are a single dash, the last of the class. *)
Definition closing_dash (members : list class_member) : bool :=
  match members with
  | [One c] => is_chr c "-"
  | _ => false
  end.

(** After a single character of the class no member begins with a dash,
    the closing dash apart: there the dash would make a range. *)
Fixpoint dashes_placed (members : list class_member) : bool :=
  match members with
  | [] => true
  | m :: rest =>
      match m, rest with
      | One _, m' :: _ => negb (is_chr (member_head m') "-") || closing_dash rest
      | _, _ => true
      end && dashes_placed rest
  end.

(** A class that is not negated does not begin with a caret. *)
Definition caret_placed (complemented : bool) (members : list class_member) : bool :=
  complemented
  || match members with
     | m :: _ => negb (is_chr (member_head m) "^")
     | [] => true
     end.

Definition plain_class (complemented : bool) (members : list class_member) : bool :=
  forallb plain_member members && dashes_placed members
  && caret_placed complemented members.

Definition plain_item (it : template_item) : bool :=
  match it with
  | Literal c => plain_literal c
  | Wildcard => true
  | OneOf complemented members => plain_class complemented members
  end.

(** The code points an item stands for. *)
Definition member_accepts (c : N) (m : class_member) : bool :=
  match m with
  | One x => c =? x
  | FromTo lo hi => (lo <=? c) && (c <=? hi)
  end.

Definition item_accepts (it : template_item) (c : N) : bool :=
  match it with
  | Literal x => c =? x
  | Wildcard => (0x590 <=? c) && (c <=? 0x5FF)
  | OneOf complemented members => xorb complemented (existsb (member_accepts c) members)
  end.

(** The code points [cps] face the items one to one. *)
Fixpoint faces (its : list template_item) (cps : list N) : bool :=
  match its, cps with
  | [], [] => true
  | it :: its', c :: cps' => item_accepts it c && faces its' cps'
  | _, _ => false
  end.

(** The term of the compiled pattern an item becomes. *)
Definition item_of_member (m : class_member) : class_item :=
  match m with
  | One c => ItemChar c
  | FromTo lo hi => ItemRange lo hi
  end.

Definition term_of (it : template_item) : term :=
  match it with
  | Literal c => TChar c
  | Wildcard => TClass {| negated := false; items := [ItemRange 0x590 0x5FF] |}
  | OneOf complemented members =>
      TClass {| negated := complemented; items := map item_of_member members |}
  end.

(** What the scan of [templateToRegex] writes for an item. *)
Definition emit_item (it : template_item) : jsstring :=
  match it with
  | Literal c => flat_map escape (fromCodePoint c)
  | Wildcard => HEBREW_LETTERS_CLASS
  | OneOf _ _ => render_item it
  end.

End TemplateItems.

(** ** What the component shows of a run *)

(** The [onSourceStatus] calls among the events of a run. *)
Definition is_source_status (ev : event) : bool :=
  match ev with
  | SourceStatus _ _ _ _ => true
  | _ => false
  end.

Definition source_statuses (events : list event) : list event :=
  List.filter is_source_status events.

(** An entry of the state [sourceStatus]: [{ status, count, error }]. *)
Record StatusEntry := {
  entry_status : source_status;
  entry_count : nat;
  entry_error : option js_error
}.

(** [handleSourceStatus]: the update
    [prev => ({ ...prev, [sourceKey]: { status, count, error } })]. *)
Definition handleSourceStatus (prev : gmap jsstring StatusEntry) (sourceKey : jsstring)
    (status : source_status) (count : nat) (error : option js_error)
  : gmap jsstring StatusEntry :=
  <[sourceKey := {| entry_status := status; entry_count := count;
                    entry_error := error |}]> prev.

(** The effect of an event of the run on the state [sourceStatus]:
    [handleSourceStatus] is the callback [onSourceStatus]. *)
Definition record_status (prev : gmap jsstring StatusEntry) (ev : event)
  : gmap jsstring StatusEntry :=
  match ev with
  | SourceStatus sourceKey status count message =>
      handleSourceStatus prev sourceKey status count message
  | _ => prev
  end.

(** The state [sourceStatus] after a search: [handleSearch] resets it to
    [{}] before the run. *)
Definition sourceStatus_after (events : list event) : gmap jsstring StatusEntry :=
  fold_left record_status events ∅.

Section ReportVocabulary.
Variable U : UnicodeData.
Variable fetch : jsstring -> fetch_result.
Variable batch_size : positive.
Variable pattern : jsstring.
Variable opts : Options.

(** The report of a source as the code makes it: success with the number of
    words loaded, or the error that loading, or else compiling the
    template, threw. *)
Definition reported (sourceKey : jsstring) (entry : StatusEntry) : Prop :=
  (exists loaded rx,
     load U fetch batch_size opts sourceKey = Returns loaded /\
     templateToRegex U pattern (opt_wholeWord opts) = Returns rx /\
     entry = {| entry_status := success; entry_count := length loaded;
                entry_error := None |}) \/
  (exists e,
     load U fetch batch_size opts sourceKey = Throws e /\
     entry = {| entry_status := error; entry_count := 0; entry_error := Some e |}) \/
  (exists loaded e,
     load U fetch batch_size opts sourceKey = Returns loaded /\
     templateToRegex U pattern (opt_wholeWord opts) = Throws e /\
     entry = {| entry_status := error; entry_count := 0; entry_error := Some e |}).

(** The call of [onSourceStatus] that makes an entry. *)
Definition status_call (sourceKey : jsstring) (entry : StatusEntry) : event :=
  SourceStatus sourceKey (entry_status entry) (entry_count entry) (entry_error entry).

End ReportVocabulary.

(** The arguments [handleSearch] builds for the run. *)
Definition searchOpts_of (form : SearchForm) : Options :=
  {| opt_stripNiqqud := form_stripNiqqudFlag form;
     opt_unique := form_unique form;
     opt_wholeWord := form_wholeWord form |}.

Definition summary_of (form : SearchForm) : LetterConstraints :=
  getSelectedDeselectedSummary (form_letterStates form).

Definition letterConstraints_of (form : SearchForm) : option LetterConstraints :=
  if Nat.ltb 0 (length (selected (summary_of form)))
     || Nat.ltb 0 (length (deselected (summary_of form)))
  then Some (summary_of form) else None.

Definition customFromPaste_of (U : UnicodeData) (form : SearchForm) : list CustomList :=
  if negb (Nat.eqb (length (trim (form_paste form))) 0)
  then [{| name := str "pasted";
           words := candidate_words U (trim (form_paste form)) |}]
  else [].

(** ** The letter picker

    [letterStates] is an object whose keys are the letters of the on-screen
    keyboard (none of them an integer index, which an object lists first);
    it is modelled by the list of its entries in the order of
    [Object.entries], each key at most once. *)

#[global] Instance letter_state_eq_dec : EqDecision letter_state.
Proof. solve_decision. Defined.

(** [obj[key]] *)
Fixpoint object_get (key : jsstring) (obj : list (jsstring * letter_state))
  : option letter_state :=
  match obj with
  | [] => None
  | (k, v) :: rest => if decide (k = key) then Some v else object_get key rest
  end.

(** [obj[key] = v]: an existing key keeps its place, a new key comes last. *)
Fixpoint object_set (key : jsstring) (v : letter_state)
    (obj : list (jsstring * letter_state)) : list (jsstring * letter_state) :=
  match obj with
  | [] => [(key, v)]
  | (k, v0) :: rest =>
      if decide (k = key) then (k, v) :: rest else (k, v0) :: object_set key v rest
  end.

(** [delete obj[key]] *)
Definition object_delete (key : jsstring) (obj : list (jsstring * letter_state))
  : list (jsstring * letter_state) :=
  List.filter (fun e => negb (bool_decide (fst e = key))) obj.

(** The update [handleLetterClick] hands to [setLetterStates]. *)
Definition handleLetterClick (letter : jsstring) (isRightClick : bool)
    (prev : list (jsstring * letter_state)) : list (jsstring * letter_state) :=
  let current := object_get letter prev in
  let newState :=
    if isRightClick then
      match current with Some unpicked => None | _ => Some unpicked end
    else
      match current with Some picked => None | _ => Some picked end in
  let newStates := prev in
  match newState with
  | None => object_delete letter newStates
  | Some s => object_set letter s newStates
  end.

(** What the user does in the letter dialog: a click on a key
    ([handleLetterClick(key, false)]), a right click
    ([handleLetterClick(key, true)]), the button that clears all
    ([setLetterStates({})]). *)
Inductive picker_action :=
| LeftClick (letter : jsstring)
| RightClick (letter : jsstring)
| ClearAll.

Definition picker_step (letterStates : list (jsstring * letter_state))
    (a : picker_action) : list (jsstring * letter_state) :=
  match a with
  | LeftClick letter => handleLetterClick letter false letterStates
  | RightClick letter => handleLetterClick letter true letterStates
  | ClearAll => []
  end.

(** The state after a series of actions, from the initial state [{}]. *)
Definition picker_run (actions : list picker_action) : list (jsstring * letter_state) :=
  fold_left picker_step actions [].

(** ** The source checkboxes *)

(** The [onChange] handler of the checkbox of a source; [checked] is
    [e.target.checked]. *)
Definition onChange_source (key : jsstring) (checked : bool)
    (selectedSources : list jsstring) : list jsstring :=
  if checked then selectedSources ++ [key]
  else List.filter (fun s => negb (bool_decide (s = key))) selectedSources.

(** ** Saving the results, and word lists from a URL *)

(** [lines.join(sep)] for an array of strings. *)
Fixpoint join (sep : jsstring) (lines : list jsstring) : jsstring :=
  match lines with
  | [] => []
  | [line] => line
  | line :: rest => line ++ sep ++ join sep rest
  end.




(** [s.split(sep)] for a separator of one code unit; [cur] is the piece
    being read. *)
Fixpoint split_on (sep : N) (s cur : jsstring) : list jsstring :=
  match s with
  | [] => [cur]
  | c :: rest =>
      if (c =? sep)%N then cur :: split_on sep rest [] else split_on sep rest (cur ++ [c])
  end.

(** [customUrl.split('/').pop() || 'custom_wordlist'] *)
Definition urlName_of (customUrl : jsstring) : jsstring :=
  let piece := List.last (split_on (chr "/") customUrl []) [] in
  if Nat.eqb (length piece) 0 then str "custom_wordlist" else piece.

(** The state [handleDownloadFromUrl] reads and sets. *)
Record UrlForm := {
  url_customUrl : jsstring;
  url_customWordlists : list CustomList
}.

(** How [handleDownloadFromUrl] ends. *)
Inductive url_outcome :=
| AlertNoUrl                                      (* "נא להזין כתובת URL" *)
| AlertNoWords                                    (* "לא נמצאו מילים עבריות תקינות ב-URL" *)
| Downloaded (count : nat) (urlName : jsstring)   (* `הורד בהצלחה: ...` *)
| DownloadFailed (e : js_error).                  (* "שגיאה בהורדה: " + message *)

(** [handleDownloadFromUrl]: the state it leaves and how it ended.  The new
    entry also records [url: customUrl], which nothing reads. *)
Definition handleDownloadFromUrl (U : UnicodeData) (fetch : jsstring -> fetch_result)
    (form : UrlForm) : UrlForm * url_outcome :=
  let customUrl := url_customUrl form in
  if Nat.eqb (length (trim customUrl)) 0 then (form, AlertNoUrl)
  else
    match fetch (trim customUrl) with
    | FetchRejects reason => (form, DownloadFailed (FetchRejected reason))
    | Response ok status text =>
        if negb ok then (form, DownloadFailed (UrlLoadFailed status))
        else
          let words := candidate_words U text in
          if Nat.eqb (length words) 0 then (form, AlertNoWords)
          else
            let urlName := urlName_of customUrl in
            let newWordlist := {| name := urlName; words := words |} in
            ({| url_customUrl := [];
                url_customWordlists := url_customWordlists form ++ [newWordlist] |},
             Downloaded (length words) urlName)
    end.

(** Pointed text: 16-bit code units that are no lead surrogates, that do
    not decompose, and whose combining class is non-zero only if they are
    marks (letters, and the points and accents written on them). *)
Definition pointed_text (U : UnicodeData) (w : jsstring) : Prop :=
  forall c, In c w ->
    (c < 0x10000)%N /\ is_lead_surrogate c = false /\
    compat_decomposition U c = [c] /\
    (combining_class U c <> 0%N -> is_mark U c = true).

(** [arr.filter((x, i) => keep(x, i))], from index [i] on. *)
Fixpoint filter_indexed {A} (keep : A -> nat -> bool) (arr : list A) (i : nat) : list A :=
  match arr with
  | [] => []
  | x :: rest =>
      if keep x i then x :: filter_indexed keep rest (S i)
      else filter_indexed keep rest (S i)
  end.

(** The button that removes a custom word list:
    [setCustomWordlists(customWordlists.filter((_, i) => i !== index))]. *)
Definition removeCustomWordlist (index : nat) (customWordlists : list CustomList)
  : list CustomList :=
  filter_indexed (fun _ i => negb (Nat.eqb i index)) customWordlists 0.

(** The code points of [s.normalize("NFKD")]: [normalize_NFKD] writes them
    in UTF-16. *)
Definition nfkd_code_points (U : UnicodeData) (s : jsstring) : list N :=
  canonical_reorder U (flat_map (compat_decomposition U) (toCodePoints s)).

(** The matches a run accumulates, in the order it accumulates them: those
    of the sources in the order of the keys, then those of the custom word
    lists in their order; none when the template does not compile. *)
Definition accumulated (U : UnicodeData) (fetch : jsstring -> fetch_result)
    (batch_size : positive) (pattern : jsstring) (opts : Options)
    (letterConstraints : option LetterConstraints)
    (sourceKeys : list jsstring) (customWordlists : list CustomList) : list jsstring :=
  match templateToRegex U pattern (opt_wholeWord opts) with
  | Returns rx =>
      flat_map (source_matches U fetch batch_size opts letterConstraints rx) sourceKeys
      ++ flat_map (custom_matches U letterConstraints rx) customWordlists
  | _ => []
  end.

(** The accumulator at the start of a run. *)
Definition empty_accumulator : Accumulator :=
  {| allMatches := []; allWordCounts := {| total := 0; matched := 0 |}; trace := [] |}.

(** ** Further concrete data used in examples *)

(** A template of every kind of item: the letter [א], a wildcard, the
    class of [ב], the letters from [ג] to [ה], the caret and the dash, and
    the character U+1F600, which UTF-16 writes as a surrogate pair. *)
Definition mixed_template : list template_item :=
  [Literal alef; Wildcard;
   OneOf false [One bet; FromTo gimel he; One (chr "^"); One (chr "-")];
   Literal 0x1F600%N].

(** The template of [א], a full stop and the character U+1F600. *)
Definition alef_stop_smile : jsstring := [alef; chr "."; 0xD83D; 0xDE00]%N.

(** The word [אָב], with a qamats. *)
Definition pointed_av : jsstring := [alef; qamats; bet].

(** A search of [nouns.txt] with the template of a single opening bracket,
    and the same search with a pasted word. *)
Definition open_bracket_form : SearchForm :=
  {| form_pattern := str "[";
     form_selectedSources := [str "nouns"];
     form_customWordlists := [];
     form_paste := [];
     form_letterStates := [];
     form_stripNiqqudFlag := false;
     form_unique := true;
     form_sort := true;
     form_wholeWord := true |}.

Definition open_bracket_paste_form : SearchForm :=
  {| form_pattern := str "[";
     form_selectedSources := [str "nouns"];
     form_customWordlists := [];
     form_paste := [alef; bet];
     form_letterStates := [];
     form_stripNiqqudFlag := false;
     form_unique := true;
     form_sort := true;
     form_wholeWord := true |}.

(** A search of [adjectives] and [nouns] with the template [א?ב]. *)
Definition two_sources_form : SearchForm :=
  {| form_pattern := alef_wildcard_bet;
     form_selectedSources := [str "adjectives"; str "nouns"];
     form_customWordlists := [];
     form_paste := [];
     form_letterStates := [];
     form_stripNiqqudFlag := false;
     form_unique := false;
     form_sort := false;
     form_wholeWord := true |}.

(** * Properties *)

(** ** Code points *)

Section CodePointFacts.
Local Open Scope N_scope.

(** Induction two code units at a time, as [toCodePoints] recurses. *)
Lemma list_pair_ind {A} (P : list A -> Prop) :
  P [] -> (forall u, P [u]) ->
  (forall u v r, P r -> P (v :: r) -> P (u :: v :: r)) ->
  forall l, P l.
Proof.
  intros H0 H1 H2 l.
  enough (P l /\ forall u, P (u :: l)) by tauto.
  induction l as [|v r [IH1 IH2]]; split; auto.
Qed.

Lemma toCodePoints_cons2 u v r :
  toCodePoints (u :: v :: r) =
  if is_lead_surrogate u && is_trail_surrogate v
  then surrogate_pair u v :: toCodePoints r
  else u :: toCodePoints (v :: r).
Proof. reflexivity. Qed.

Lemma Array_from_cons2 u v r :
  Array_from (u :: v :: r) =
  if is_lead_surrogate u && is_trail_surrogate v
  then [u; v] :: Array_from r
  else [u] :: Array_from (v :: r).
Proof. reflexivity. Qed.

Lemma surrogate_pair_big u v : 0x10000 <= surrogate_pair u v.
Proof. unfold surrogate_pair. lia. Qed.

(** A subject whose code points all lie in the Basic Multilingual Plane has
    no surrogate pair: its code points are its code units. *)
Lemma toCodePoints_bmp w :
  Forall (fun c => c < 0x10000) (toCodePoints w) -> toCodePoints w = w.
Proof.
  induction w as [|u|u v r IHr IHvr] using list_pair_ind; try reflexivity.
  rewrite toCodePoints_cons2.
  destruct (is_lead_surrogate u && is_trail_surrogate v).
  - intros H. inversion H as [|? ? Hbig _]. pose proof (surrogate_pair_big u v). lia.
  - intros H. inversion H; subst. f_equal. auto.
Qed.

Lemma toCodePoints_no_lead w :
  Forall (fun u => is_lead_surrogate u = false) w -> toCodePoints w = w.
Proof.
  induction w as [|u|u v r IHr IHvr] using list_pair_ind; try reflexivity.
  intros H. rewrite toCodePoints_cons2.
  inversion H as [|? ? Hu Hrest]; subst. rewrite Hu. simpl.
  f_equal. auto.
Qed.

Lemma fromCodePoints_toCodePoints w :
  well_formed w -> fromCodePoints (toCodePoints w) = w.
Proof.
  unfold well_formed.
  induction w as [|u|u v r IHr IHvr] using list_pair_ind; intros H.
  - reflexivity.
  - inversion H as [|? ? Hu _]; subst. cbn. unfold fromCodePoint.
    apply N.ltb_lt in Hu. now rewrite Hu.
  - rewrite toCodePoints_cons2. inversion H as [|? ? Hu H']; subst.
    inversion H' as [|? ? Hv Hr]; subst.
    destruct (is_lead_surrogate u && is_trail_surrogate v) eqn:E.
    + cbn [fromCodePoints flat_map]. fold (fromCodePoints (toCodePoints r)).
      rewrite (IHr Hr). apply andb_prop in E as [E1 E2].
      unfold is_lead_surrogate, is_trail_surrogate in *.
      apply andb_prop in E1 as [L1 L2]. apply andb_prop in E2 as [T1 T2].
      apply N.leb_le in L1, L2, T1, T2.
      unfold fromCodePoint, surrogate_pair.
      destruct (N.ltb_spec (0x10000 + (u - 0xD800) * 0x400 + (v - 0xDC00)) 0x10000);
        [lia|].
      replace (0x10000 + (u - 0xD800) * 0x400 + (v - 0xDC00) - 0x10000)
        with ((v - 0xDC00) + (u - 0xD800) * 0x400) by lia.
      rewrite N.div_add by lia. rewrite N.Div0.mod_add.
      rewrite N.div_small by lia. rewrite N.mod_small by lia.
      cbn [app]. f_equal; [lia|]. f_equal. lia.
    + cbn [fromCodePoints flat_map]. fold (fromCodePoints (toCodePoints (v :: r))).
      rewrite (IHvr H'). unfold fromCodePoint. apply N.ltb_lt in Hu. now rewrite Hu.
Qed.

Lemma concat_Array_from w : concat (Array_from w) = w.
Proof.
  induction w as [|u|u v r IHr IHvr] using list_pair_ind; try reflexivity.
  rewrite Array_from_cons2.
  destruct (is_lead_surrogate u && is_trail_surrogate v); cbn [concat app];
    now rewrite ?IHr, ?IHvr.
Qed.

End CodePointFacts.

(** ** Matching *)

Section MatchFacts.
Local Open Scope N_scope.
Variable U : UnicodeData.

Lemma match_from_start_false ts input :
  match_from U (AssertStart :: ts) false input = false.
Proof. induction input as [|c rest IH]; simpl; auto. Qed.

(** A pattern that begins with [^] matches at index 0 or not at all. *)
Lemma match_from_anchored ts input :
  match_from U (AssertStart :: ts) true input = match_here U ts true input.
Proof.
  destruct input as [|c rest]; simpl.
  - now rewrite orb_false_r.
  - rewrite match_from_start_false. now rewrite orb_false_r.
Qed.

(** A pattern that is one character class looks for a member of the class. *)
Lemma match_from_class cc at_start input :
  match_from U [TClass cc] at_start input = existsb (class_matches U cc) input.
Proof.
  revert at_start. induction input as [|c rest IH]; intros at_start; simpl; [reflexivity|].
  now rewrite andb_true_r, IH.
Qed.

Lemma existsb_pointwise {A} (f g : A -> bool) l :
  (forall x, f x = g x) -> existsb f l = existsb g l.
Proof. intros H. induction l as [|x l IH]; simpl; [reflexivity|]. now rewrite H, IH. Qed.

Lemma test_WHITESPACE w : test U WHITESPACE w = existsb is_white_space w.
Proof.
  unfold test. cbn [terms unicode WHITESPACE]. rewrite match_from_class.
  apply existsb_pointwise. intros c. unfold class_matches. cbn. now rewrite orb_false_r.
Qed.

Lemma test_HEBREW_BLOCK w :
  test U HEBREW_BLOCK w = existsb (fun c => (0x590 <=? c) && (c <=? 0x5FF)) w.
Proof.
  unfold test. cbn [terms unicode HEBREW_BLOCK]. rewrite match_from_class.
  apply existsb_pointwise. intros c. unfold class_matches. cbn. now rewrite orb_false_r.
Qed.

Lemma test_MARK_single u : test U MARK [u] = is_mark U u.
Proof.
  unfold test. cbn [terms unicode MARK]. rewrite match_from_class. cbn.
  unfold class_matches. cbn. unfold is_mark. now rewrite !orb_false_r.
Qed.

Lemma test_MARK_pair u v :
  is_lead_surrogate u && is_trail_surrogate v = true ->
  test U MARK [u; v] = is_mark U (surrogate_pair u v).
Proof.
  intros H. unfold test. cbn [terms unicode MARK]. rewrite match_from_class.
  rewrite toCodePoints_cons2, H. cbn.
  unfold class_matches. cbn. unfold is_mark. now rewrite !orb_false_r.
Qed.

Lemma wildcard_regex :
  templateToRegex U alef_wildcard_bet true =
  Returns {| terms := [AssertStart; TChar alef;
                       TClass {| negated := false; items := [ItemRange 0x590 0x5FF] |};
                       TChar bet; AssertEnd];
             unicode := true |}.
Proof. reflexivity. Qed.

(** C3. The matcher compiled from the template [א?ב] with [wholeWord] set
    accepts a word exactly when the word has three characters, the first
    being [א], the third [ב] and the second any character of the Hebrew
    block; so it accepts no word of another length. *)
Theorem wildcard_semantics (w : jsstring) :
  exists rx, templateToRegex U alef_wildcard_bet true = Returns rx /\
    (test U rx w = true <->
     length w = 3%nat /\ exists c, w = [alef; c; bet] /\ hebrew_block c).
Proof.
  eexists. split; [apply wildcard_regex|].
  unfold test. cbn [terms unicode]. rewrite match_from_anchored. split.
  - intros H.
    assert (Hc : exists c, toCodePoints w = [alef; c; bet] /\ hebrew_block c).
    { destruct (toCodePoints w) as [|a [|c [|b [|d l]]]]; cbn in H; try discriminate;
        rewrite ?andb_false_r in H; try discriminate.
      unfold class_matches in H. cbn in H.
      apply andb_prop in H as [Ha H]. apply andb_prop in H as [Hcl H].
      apply andb_prop in H as [Hb _].
      apply N.eqb_eq in Ha, Hb. subst.
      rewrite orb_false_r in Hcl. apply andb_prop in Hcl as [H1 H2].
      apply N.leb_le in H1, H2. exists c. split; [reflexivity|split; assumption]. }
    destruct Hc as (c & Hw & Hc).
    assert (Hw' : toCodePoints w = w).
    { apply toCodePoints_bmp. rewrite Hw. destruct Hc.
      repeat constructor; unfold alef, bet; lia. }
    rewrite Hw' in Hw. subst w. split; [reflexivity|]. eauto.
  - intros (_ & c & -> & H1 & H2).
    rewrite toCodePoints_no_lead.
    + cbn. unfold class_matches. cbn.
      apply N.leb_le in H1, H2. rewrite H1, H2. reflexivity.
    + repeat constructor; unfold is_lead_surrogate; cbn; try reflexivity.
      apply andb_false_iff. left. apply N.leb_gt. lia.
Qed.

End MatchFacts.

(** ** The batch loops *)

Section BatchFacts.

Lemma slice_skipn {A} (l : list A) i n :
  slice l i (i + n) ++ skipn (i + n) l = skipn i l.
Proof.
  unfold slice. replace (i + n - i)%nat with n by lia.
  rewrite Nat.add_comm, <- skipn_skipn. apply firstn_skipn.
Qed.

(** From index [i] on, the loop appends the kept words of the rest of the
    list, whatever the batch size. *)
Lemma search_batches_matches batch_size keep onProgress wordlist totalBatches i found events :
  fst (search_batches batch_size keep onProgress wordlist totalBatches i found events)
  = found ++ List.filter keep (skipn i wordlist).
Proof.
  funelim (search_batches batch_size keep onProgress wordlist totalBatches i found events).
  - rewrite H, <- app_assoc, <- List.filter_app. now rewrite slice_skipn.
  - simpl. rewrite skipn_all2 by lia. simpl. now rewrite app_nil_r.
Qed.

Lemma strip_batches_map U batch_size loaded i processed :
  strip_batches U batch_size loaded i processed
  = processed ++ map (stripNiqqud U) (skipn i loaded).
Proof.
  funelim (strip_batches U batch_size loaded i processed).
  - rewrite H, <- app_assoc, <- map_app. now rewrite slice_skipn.
  - rewrite skipn_all2 by lia. simpl. now rewrite app_nil_r.
Qed.

Variable U : UnicodeData.

Lemma searchInWordlist_matches batch_size wordlist pattern wholeWord onProgress lc :
  fst <$> searchInWordlist U batch_size wordlist pattern wholeWord onProgress lc
  = (rx ← templateToRegex U pattern wholeWord;
     mret (List.filter (accepts U rx lc) wordlist)).
Proof.
  unfold searchInWordlist.
  destruct (templateToRegex U pattern wholeWord) as [rx|e|]; try reflexivity.
  cbn. destruct (Nat.leb _ _); cbn; [reflexivity|].
  now rewrite search_batches_matches.
Qed.

(** C2. For every word list, template, letter constraints and batch size,
    the matches of [searchInWordlist] are the words of the list that the
    compiled matcher and the constraint filter both accept, in the order of
    the list (and the scan throws what the compilation throws); hence two
    batch sizes give the same sequence of matches.  The batch loop itself
    does so for any filter whatever. *)
Theorem chunk_invariance (wordlist : list jsstring) (pattern : jsstring)
    (wholeWord : bool) (letterConstraints : option LetterConstraints) :
  (forall batch_size onProgress,
     fst <$> searchInWordlist U batch_size wordlist pattern wholeWord onProgress
               letterConstraints
     = (rx ← templateToRegex U pattern wholeWord;
        mret (List.filter (accepts U rx letterConstraints) wordlist))) /\
  (forall batch_size1 batch_size2 onProgress1 onProgress2,
     fst <$> searchInWordlist U batch_size1 wordlist pattern wholeWord onProgress1
               letterConstraints
     = fst <$> searchInWordlist U batch_size2 wordlist pattern wholeWord onProgress2
                 letterConstraints) /\
  (forall batch_size keep onProgress totalBatches,
     fst (search_batches batch_size keep onProgress wordlist totalBatches 0 [] [])
     = List.filter keep wordlist).
Proof.
  split; [|split].
  - intros. apply searchInWordlist_matches.
  - intros. now rewrite !searchInWordlist_matches.
  - intros. now rewrite search_batches_matches.
Qed.

End BatchFacts.

(** ** The letter constraints *)

Section IncludesFacts.
Local Open Scope N_scope.

Lemma starts_with_spec needle haystack :
  starts_with needle haystack = true <-> exists after, haystack = needle ++ after.
Proof.
  revert haystack. induction needle as [|n needle IH]; intros haystack; simpl.
  - split; eauto.
  - destruct haystack as [|h haystack].
    + split; [discriminate|]. intros [after H]. discriminate.
    + rewrite andb_true_iff, N.eqb_eq, IH. split.
      * intros [-> [after ->]]. eauto.
      * intros [after H]. injection H as -> ->. eauto.
Qed.

Lemma includes_spec word letter :
  includes word letter = true <-> occurs_in letter word.
Proof.
  unfold occurs_in. induction word as [|c word IH].
  - simpl. rewrite orb_false_r, starts_with_spec. split.
    + intros [after H]. exists [], after. exact H.
    + intros (before & after & H). destruct before; [eauto|discriminate].
  - cbn [includes]. rewrite orb_true_iff, starts_with_spec, IH. split.
    + intros [[after H]|(before & after & H)].
      * exists [], after. exact H.
      * exists (c :: before), after. now rewrite H.
    + intros (before & after & H). destruct before as [|b before].
      * left. eauto.
      * right. injection H as -> ->. eauto.
Qed.

Lemma occurs_in_single c word : occurs_in [c] word <-> In c word.
Proof.
  split.
  - intros (before & after & ->). apply in_or_app. right. now left.
  - intros H. apply in_split in H as (before & after & ->). now exists before, after.
Qed.

Lemma all_selected_spec word letters :
  all_selected word letters = true <->
  forall letter, In letter letters -> occurs_in letter word.
Proof.
  induction letters as [|l letters IH]; simpl.
  - split; [intros _ ? []|reflexivity].
  - destruct (includes word l) eqn:E; simpl.
    + rewrite IH. apply includes_spec in E. split.
      * intros H letter [<-|Hin]; auto.
      * intros H letter Hin. auto.
    + split; [discriminate|]. intros H.
      assert (includes word l = true) by (apply includes_spec; auto). congruence.
Qed.

Lemma no_deselected_spec word letters :
  no_deselected word letters = true <->
  forall letter, In letter letters -> ~ occurs_in letter word.
Proof.
  induction letters as [|l letters IH]; simpl.
  - split; [intros _ ? []|reflexivity].
  - destruct (includes word l) eqn:E.
    + split; [discriminate|]. intros H. exfalso.
      apply (H l); [now left|]. now apply includes_spec.
    + rewrite IH. split.
      * intros H letter [<-|Hin]; auto.
        rewrite <- includes_spec. congruence.
      * intros H letter Hin. auto.
Qed.

(** C4. Without constraints every word passes.  With constraints a word
    passes exactly when every selected (required) letter occurs in it and no
    deselected (forbidden) letter does; for sets [R] and [F] of single
    characters, disjoint or not: when every character of [R] is in the word
    and no character of [F] is. *)
Theorem constraint_filter_correct (w : jsstring) :
  passesLetterConstraints None w = true /\
  (forall lc : LetterConstraints,
     passesLetterConstraints (Some lc) w = true <->
     (forall letter, In letter (selected lc) -> occurs_in letter w) /\
     (forall letter, In letter (deselected lc) -> ~ occurs_in letter w)) /\
  (forall R F : list N,
     passesLetterConstraints
       (Some {| selected := map (fun c => [c]) R;
                deselected := map (fun c => [c]) F |}) w = true <->
     (forall c, In c R -> In c w) /\ (forall c, In c F -> ~ In c w)).
Proof.
  assert (G : forall lc : LetterConstraints,
     passesLetterConstraints (Some lc) w = true <->
     (forall letter, In letter (selected lc) -> occurs_in letter w) /\
     (forall letter, In letter (deselected lc) -> ~ occurs_in letter w)).
  { intros lc. unfold passesLetterConstraints.
    rewrite <- all_selected_spec, <- no_deselected_spec.
    destruct (all_selected w (selected lc)); intuition congruence. }
  split; [reflexivity|]. split; [exact G|].
  intros R F. rewrite G. cbn [selected deselected]. split.
  - intros [HR HF]. split; intros c Hc.
    + apply occurs_in_single. apply HR. apply in_map_iff. eauto.
    + rewrite <- occurs_in_single. apply HF. apply in_map_iff. eauto.
  - intros [HR HF]. split; intros letter Hin; apply in_map_iff in Hin as (c & <- & Hc).
    + apply occurs_in_single. auto.
    + rewrite occurs_in_single. auto.
Qed.

End IncludesFacts.

(** ** Removing duplicates *)

Section DedupeFacts.
Implicit Types (l : list jsstring) (x : jsstring) (seen : gset jsstring).

(** The loop appends a word exactly when it is neither in [seen] nor earlier
    in the list. *)
Lemma dedupe_loop_snoc l x seen (finalMatches : list jsstring) :
  dedupe_loop (l ++ [x]) seen finalMatches =
  if decide (x ∈ seen \/ x ∈ l)
  then dedupe_loop l seen finalMatches
  else dedupe_loop l seen finalMatches ++ [x].
Proof.
  revert seen finalMatches. induction l as [|y l IH]; intros seen finalMatches; simpl.
  - destruct (decide (x ∈ seen)) as [Hx|Hx];
      destruct (decide (x ∈ seen \/ x ∈ [])) as [Hd|Hd]; try tauto.
    destruct Hd as [?|Hd]; [tauto|]. now apply elem_of_nil in Hd.
  - destruct (decide (y ∈ seen)) as [Hy|Hy]; rewrite IH; apply decide_ext;
      rewrite elem_of_cons.
    + split; [tauto|]. intros [?|[->|?]]; tauto.
    + rewrite elem_of_union, elem_of_singleton. tauto.
Qed.

Lemma dedupe_snoc l x :
  dedupe (l ++ [x]) = if decide (x ∈ l) then dedupe l else dedupe l ++ [x].
Proof.
  unfold dedupe. rewrite dedupe_loop_snoc. apply decide_ext.
  split; [intros [H|H]|]; [|tauto..]. now apply not_elem_of_empty in H.
Qed.

Lemma dedupe_elem_of l x : x ∈ dedupe l <-> x ∈ l.
Proof.
  induction l as [|y l IH] using rev_ind; [reflexivity|].
  rewrite dedupe_snoc. destruct (decide (y ∈ l)) as [Hy|Hy].
  - rewrite IH, elem_of_app, list_elem_of_singleton. intuition (subst; auto).
  - rewrite !elem_of_app, IH. reflexivity.
Qed.

Lemma dedupe_NoDup l : NoDup (dedupe l).
Proof.
  induction l as [|y l IH] using rev_ind; [constructor|].
  rewrite dedupe_snoc. destruct (decide (y ∈ l)) as [Hy|Hy]; [exact IH|].
  apply NoDup_app. split; [exact IH|]. split; [|apply NoDup_singleton].
  intros z Hz Hzy. apply list_elem_of_singleton in Hzy as ->.
  rewrite dedupe_elem_of in Hz. contradiction.
Qed.

Lemma dedupe_fixed l : NoDup l -> dedupe l = l.
Proof.
  induction l as [|y l IH] using rev_ind; [reflexivity|].
  intros H. apply NoDup_app in H as (Hl & Hy & _). rewrite dedupe_snoc.
  destruct (decide (y ∈ l)) as [Hin|Hin].
  - exfalso. apply (Hy y Hin). now apply list_elem_of_singleton.
  - now rewrite IH.
Qed.

Lemma dedupe_idempotent l : dedupe (dedupe l) = dedupe l.
Proof. apply dedupe_fixed, dedupe_NoDup. Qed.

(** With [unique] set the run returns what the same run without it returns,
    deduplicated, with [matched] counted again. *)
Lemma run_unique U fetch batch_size pattern onSourceStatus onProgress letterConstraints
    (strip wholeWord : bool) sourceKeys customWordlists :
  fst <$> loadAndSearchWordlists U fetch batch_size pattern
            {| opt_stripNiqqud := strip; opt_unique := true; opt_wholeWord := wholeWord |}
            onSourceStatus onProgress letterConstraints sourceKeys customWordlists
  = deduped <$> (fst <$> loadAndSearchWordlists U fetch batch_size pattern
            {| opt_stripNiqqud := strip; opt_unique := false; opt_wholeWord := wholeWord |}
            onSourceStatus onProgress letterConstraints sourceKeys customWordlists).
Proof.
  unfold loadAndSearchWordlists. cbn [opt_unique].
  set (acc0 := {| allMatches := []; allWordCounts := _; trace := [] |}).
  change (process_sources U fetch batch_size pattern
            {| opt_stripNiqqud := strip; opt_unique := true; opt_wholeWord := wholeWord |})
    with (process_sources U fetch batch_size pattern
            {| opt_stripNiqqud := strip; opt_unique := false; opt_wholeWord := wholeWord |}).
  change (process_customs U batch_size pattern
            {| opt_stripNiqqud := strip; opt_unique := true; opt_wholeWord := wholeWord |})
    with (process_customs U batch_size pattern
            {| opt_stripNiqqud := strip; opt_unique := false; opt_wholeWord := wholeWord |}).
  destruct (process_sources _ _ _ _ _ _ _ _ acc0 sourceKeys) as [acc1| |]; try reflexivity.
  cbn. destruct (process_customs _ _ _ _ _ _ acc1 customWordlists) as [acc2| |]; reflexivity.
Qed.

End DedupeFacts.

(** ** The orchestrator *)

Section RunFacts.
Variable U : UnicodeData.
Variable fetch : jsstring -> fetch_result.
Variable batch_size : positive.
Variable pattern : jsstring.
Variable opts : Options.
Variable onSourceStatus onProgress : bool.
Variable letterConstraints : option LetterConstraints.

Local Abbreviation load' := (load U fetch batch_size opts).
Local Abbreviation load_fails' := (load_fails U fetch batch_size opts).
Local Abbreviation loaded_count' := (loaded_count U fetch batch_size opts).
Local Abbreviation source_matches' :=
  (source_matches U fetch batch_size opts letterConstraints).
Local Abbreviation custom_matches' := (custom_matches U letterConstraints).
Local Abbreviation process_source' :=
  (process_source U fetch batch_size pattern opts onSourceStatus onProgress letterConstraints).
Local Abbreviation process_sources' :=
  (process_sources U fetch batch_size pattern opts onSourceStatus onProgress letterConstraints).
Local Abbreviation process_customs' :=
  (process_customs U batch_size pattern opts onProgress letterConstraints).
Local Abbreviation search' wordlist progressCallback :=
  (searchInWordlist U batch_size wordlist pattern (opt_wholeWord opts) progressCallback
     letterConstraints).
Local Abbreviation run' :=
  (loadAndSearchWordlists U fetch batch_size pattern opts onSourceStatus onProgress
     letterConstraints).

(** The loader returns or throws. *)
Lemma loadWordlist_modelled sourceKey customUrl pasted :
  loadWordlist U fetch batch_size sourceKey customUrl pasted opts <> Unmodelled.
Proof.
  unfold loadWordlist, fetch_text.
  repeat match goal with
         | |- context [if ?b then _ else _] => destruct b
         | |- context [match fetch ?u with _ => _ end] => destruct (fetch u)
         end; cbn; discriminate.
Qed.

(** *** The statistics follow the accumulated matches and the loaded words *)

Lemma process_source_counts acc sourceKey acc' :
  process_source' acc sourceKey = Returns acc' ->
  total (allWordCounts acc') = total (allWordCounts acc) + loaded_count' sourceKey /\
  (matched (allWordCounts acc) = length (allMatches acc) ->
   matched (allWordCounts acc') = length (allMatches acc')).
Proof.
  unfold process_source, loaded_count. fold (load' sourceKey).
  destruct (load' sourceKey) as [loaded|e|];
    [|intros [= <-]; cbn; split; [lia|auto]|discriminate].
  destruct (search' loaded _) as [[found events]|e|]; [| |discriminate];
    intros [= <-]; cbn; split; try lia; auto.
  intros ->. rewrite length_app. lia.
Qed.

Lemma process_sources_counts sourceKeys acc acc' :
  process_sources' acc sourceKeys = Returns acc' ->
  total (allWordCounts acc') = total (allWordCounts acc)
       + sum_list (map loaded_count' sourceKeys) /\
  (matched (allWordCounts acc) = length (allMatches acc) ->
   matched (allWordCounts acc') = length (allMatches acc')).
Proof.
  revert acc. induction sourceKeys as [|k keys IH]; intros acc; simpl.
  - intros [= <-]. split; [lia|auto].
  - destruct (process_source' acc k) as [acc1|e|] eqn:E1; cbn; try discriminate.
    intros H. apply IH in H as [Ht Hm].
    apply process_source_counts in E1 as [Ht1 Hm1]. split; [lia|auto].
Qed.

Lemma process_customs_counts customWordlists acc acc' :
  process_customs' acc customWordlists = Returns acc' ->
  total (allWordCounts acc') = total (allWordCounts acc)
       + sum_list (map (fun c => length (words c)) customWordlists) /\
  (matched (allWordCounts acc) = length (allMatches acc) ->
   matched (allWordCounts acc') = length (allMatches acc')).
Proof.
  revert acc. induction customWordlists as [|c cs IH]; intros acc; simpl.
  - intros [= <-]. split; [lia|auto].
  - unfold process_custom.
    destruct (search' (words c) None) as [[found events]|e|]; cbn; try discriminate.
    intros H. apply IH in H as [Ht Hm]. cbn in *. split; [lia|].
    intros Hacc. apply Hm. rewrite length_app. lia.
Qed.

Lemma run_stats sourceKeys customWordlists r events :
  run' sourceKeys customWordlists = Returns (r, events) ->
  matched (stats r) = length (matches r) /\
  total (stats r) =
    sum_list (map loaded_count' sourceKeys)
    + sum_list (map (fun c => length (words c)) customWordlists).
Proof.
  unfold loadAndSearchWordlists.
  destruct (process_sources' _ sourceKeys) as [acc1|e|] eqn:E1; cbn; try discriminate.
  destruct (process_customs' acc1 customWordlists) as [acc2|e|] eqn:E2; cbn;
    try discriminate.
  apply process_sources_counts in E1 as [Ht1 Hm1].
  apply process_customs_counts in E2 as [Ht2 Hm2]. cbn in *.
  destruct (opt_unique opts); intros [= <- <-]; cbn; split; auto; lia.
Qed.

(** C10. When [loadAndSearchWordlists] returns, [stats.matched] is the
    length of the returned [matches], with or without [unique], and
    [stats.total] is the number of words loaded from the sources that
    loaded (a source that failed to load counts 0) plus the lengths of the
    custom word lists. *)
Theorem stats_consistent sourceKeys customWordlists r events :
  loadAndSearchWordlists U fetch batch_size pattern opts onSourceStatus onProgress
    letterConstraints sourceKeys customWordlists = Returns (r, events) ->
  matched (stats r) = length (matches r) /\
  total (stats r) =
    sum_list (map (loaded_count U fetch batch_size opts) sourceKeys)
    + sum_list (map (fun c => length (words c)) customWordlists).
Proof. apply run_stats. Qed.

(** *** A source that fails to load leaves the results as they were *)

Lemma process_source_fails acc sourceKey :
  load_fails' sourceKey = true ->
  exists acc', process_source' acc sourceKey = Returns acc' /\
               results_of acc' = results_of acc.
Proof.
  unfold load_fails, process_source. fold (load' sourceKey).
  destruct (load' sourceKey); try discriminate. intros _. eauto.
Qed.

Lemma process_source_results acc1 acc2 sourceKey :
  results_of acc1 = results_of acc2 ->
  results_of <$> process_source' acc1 sourceKey
  = results_of <$> process_source' acc2 sourceKey.
Proof.
  unfold results_of. intros [= Hm Hc].
  unfold process_source. fold (load' sourceKey).
  destruct (load' sourceKey) as [loaded|e|]; cbn; [|now rewrite Hm, Hc|reflexivity].
  destruct (search' loaded _) as [[found events]|e|]; cbn; now rewrite ?Hm, ?Hc.
Qed.

Lemma process_sources_results sourceKeys acc1 acc2 :
  results_of acc1 = results_of acc2 ->
  results_of <$> process_sources' acc1 sourceKeys
  = results_of <$> process_sources' acc2 sourceKeys.
Proof.
  revert acc1 acc2. induction sourceKeys as [|k keys IH]; intros acc1 acc2 H; simpl.
  - now rewrite H.
  - pose proof (process_source_results acc1 acc2 k H) as Hk.
    destruct (process_source' acc1 k) as [a1|e1|], (process_source' acc2 k) as [a2|e2|];
      cbn in *; try discriminate; try reflexivity.
    + apply IH. congruence.
    + congruence.
Qed.

Lemma process_sources_skip sourceKeys acc :
  results_of <$> process_sources' acc sourceKeys
  = results_of <$> process_sources' acc
      (List.filter (fun k => negb (load_fails' k)) sourceKeys).
Proof.
  revert acc. induction sourceKeys as [|k keys IH]; intros acc; [reflexivity|].
  cbn [List.filter process_sources].
  destruct (load_fails' k) eqn:Hk; cbn [negb].
  - destruct (process_source_fails acc k Hk) as (acc' & -> & Hr). cbn.
    rewrite IH. now apply process_sources_results.
  - cbn [process_sources].
    destruct (process_source' acc k) as [a1|e1|]; cbn; auto.
Qed.

Lemma process_customs_results customWordlists acc1 acc2 :
  results_of acc1 = results_of acc2 ->
  results_of <$> process_customs' acc1 customWordlists
  = results_of <$> process_customs' acc2 customWordlists.
Proof.
  revert acc1 acc2. induction customWordlists as [|c cs IH]; intros acc1 acc2 H; simpl.
  - now rewrite H.
  - unfold process_custom.
    destruct (search' (words c) None) as [[found events]|e|]; cbn; try reflexivity.
    apply IH. unfold results_of in *. cbn. injection H as -> ->. reflexivity.
Qed.

Lemma run_results sourceKeys customWordlists :
  fst <$> run' sourceKeys customWordlists
  = result_of (opt_unique opts) <$>
      (results_of <$> (process_sources'
         {| allMatches := []; allWordCounts := {| total := 0; matched := 0 |}; trace := [] |}
         sourceKeys ≫= fun acc1 => process_customs' acc1 customWordlists)).
Proof.
  unfold loadAndSearchWordlists.
  destruct (process_sources' _ sourceKeys) as [acc1|e|]; cbn; try reflexivity.
  destruct (process_customs' acc1 customWordlists) as [acc2|e|]; cbn; try reflexivity.
  unfold result_of. destruct (opt_unique opts); reflexivity.
Qed.

Lemma run_skips_failing sourceKeys customWordlists :
  fst <$> run' sourceKeys customWordlists
  = fst <$> run' (List.filter (fun k => negb (load_fails' k)) sourceKeys) customWordlists.
Proof.
  rewrite !run_results. f_equal.
  set (acc0 := {| allMatches := []; allWordCounts := _; trace := [] |}).
  pose proof (process_sources_skip sourceKeys acc0) as H.
  destruct (process_sources' acc0 sourceKeys) as [a1|e1|],
           (process_sources' acc0 (List.filter _ sourceKeys)) as [a2|e2|];
    cbn in *; try discriminate; try reflexivity; try congruence.
  apply process_customs_results. congruence.
Qed.

(** *** The failure is recorded *)

Lemma process_source_trace acc sourceKey acc' :
  process_source' acc sourceKey = Returns acc' ->
  exists more, trace acc' = trace acc ++ more /\
    forall e, load' sourceKey = Throws e ->
      more = progress onProgress (Loading sourceKey)
             ++ catch_source onSourceStatus sourceKey e.
Proof.
  unfold process_source. fold (load' sourceKey).
  destruct (load' sourceKey) as [loaded|e|]; [| |discriminate].
  - destruct (search' loaded _) as [[found events]|e|]; [| |discriminate];
      intros [= <-]; cbn; rewrite <- !app_assoc; eexists; (split; [reflexivity|discriminate]).
  - intros [= <-]; cbn. rewrite <- app_assoc. eexists. split; [reflexivity|].
    now intros ? [= <-].
Qed.

Lemma process_sources_trace sourceKeys acc acc' :
  process_sources' acc sourceKeys = Returns acc' ->
  exists more, trace acc' = trace acc ++ more /\
    forall k e, In k sourceKeys -> load' k = Throws e ->
      onSourceStatus = true -> In (SourceStatus k error 0 (Some e)) more.
Proof.
  revert acc. induction sourceKeys as [|k keys IH]; intros acc; simpl.
  - intros [= <-]. exists []. split; [now rewrite app_nil_r|]. intros ? ? [].
  - destruct (process_source' acc k) as [acc1|e|] eqn:E1; cbn; try discriminate.
    intros H. apply IH in H as (more2 & Ht2 & Hin2).
    apply process_source_trace in E1 as (more1 & Ht1 & Hin1).
    exists (more1 ++ more2). split; [now rewrite Ht2, Ht1, app_assoc|].
    intros k' e [<-|Hk'] Hl Hs; apply in_or_app.
    + left. rewrite (Hin1 e Hl). apply in_or_app. right.
      unfold catch_source, source_status_event. rewrite Hs. cbn. auto.
    + right. eauto.
Qed.

Lemma process_customs_trace customWordlists acc acc' :
  process_customs' acc customWordlists = Returns acc' ->
  exists more, trace acc' = trace acc ++ more.
Proof.
  revert acc. induction customWordlists as [|c cs IH]; intros acc; simpl.
  - intros [= <-]. exists []. now rewrite app_nil_r.
  - unfold process_custom.
    destruct (search' (words c) None) as [[found events]|e|]; cbn; try discriminate.
    intros H. apply IH in H as (more & Ht). cbn in Ht. rewrite Ht, <- app_assoc. eauto.
Qed.

Lemma run_records_failure sourceKeys customWordlists r events k e :
  run' sourceKeys customWordlists = Returns (r, events) ->
  onSourceStatus = true -> In k sourceKeys -> load' k = Throws e ->
  In (SourceStatus k error 0 (Some e)) events.
Proof.
  unfold loadAndSearchWordlists. intros H Hs Hk Hl.
  destruct (process_sources' _ sourceKeys) as [acc1|?|] eqn:E1; cbn in H; try discriminate.
  destruct (process_customs' acc1 customWordlists) as [acc2|?|] eqn:E2; cbn in H;
    try discriminate.
  apply process_sources_trace in E1 as (more1 & Ht1 & Hin1).
  apply process_customs_trace in E2 as (more2 & Ht2).
  assert (Hin : In (SourceStatus k error 0 (Some e)) (trace acc2)).
  { rewrite Ht2, Ht1. cbn. apply in_or_app. left. eauto. }
  destruct (opt_unique opts); injection H as <- <-; [apply in_or_app; left|]; exact Hin.
Qed.

(** *** With a template that compiles, the run returns *)

Lemma search_compiled rx wordlist progressCallback :
  templateToRegex U pattern (opt_wholeWord opts) = Returns rx ->
  exists events, search' wordlist progressCallback
                 = Returns (List.filter (accepts U rx letterConstraints) wordlist, events).
Proof.
  intros compiles.
  pose proof (searchInWordlist_matches U batch_size wordlist pattern (opt_wholeWord opts)
                progressCallback letterConstraints) as H.
  rewrite compiles in H. cbn in H.
  destruct (search' wordlist progressCallback) as [[found events]|e|]; cbn in H;
    try discriminate.
  injection H as ->. eauto.
Qed.

Lemma process_sources_compiled rx sourceKeys acc :
  templateToRegex U pattern (opt_wholeWord opts) = Returns rx ->
  exists acc', process_sources' acc sourceKeys = Returns acc' /\
    allMatches acc' = allMatches acc ++ flat_map (source_matches' rx) sourceKeys.
Proof.
  intros compiles. revert acc. induction sourceKeys as [|k keys IH]; intros acc; simpl.
  - eexists. split; [reflexivity|]. now rewrite app_nil_r.
  - unfold process_source, source_matches. fold (load' k).
    destruct (load' k) as [loaded|e|] eqn:El.
    + destruct (search_compiled rx loaded
        (Some (fun currentBatch totalBatches =>
                 progress onProgress (SearchingPart k currentBatch totalBatches)))
        compiles) as (events & ->).
      cbn. edestruct IH as (acc' & -> & Hm). eexists. split; [reflexivity|].
      rewrite Hm. cbn. now rewrite app_assoc.
    + cbn. edestruct IH as (acc' & -> & Hm). eexists. split; [reflexivity|].
      rewrite Hm. reflexivity.
    + now apply loadWordlist_modelled in El.
Qed.

Lemma process_customs_compiled rx customWordlists acc :
  templateToRegex U pattern (opt_wholeWord opts) = Returns rx ->
  exists acc', process_customs' acc customWordlists = Returns acc' /\
    allMatches acc' = allMatches acc ++ flat_map (custom_matches' rx) customWordlists.
Proof.
  intros compiles. revert acc.
  induction customWordlists as [|c cs IH]; intros acc; simpl.
  - eexists. split; [reflexivity|]. now rewrite app_nil_r.
  - unfold process_custom.
    destruct (search_compiled rx (words c) None compiles) as (events & ->). cbn.
    edestruct IH as (acc' & -> & Hm). eexists. split; [reflexivity|].
    rewrite Hm. cbn. now rewrite app_assoc.
Qed.

Lemma run_compiled rx sourceKeys customWordlists :
  templateToRegex U pattern (opt_wholeWord opts) = Returns rx ->
  exists r events, run' sourceKeys customWordlists = Returns (r, events) /\
    matches r =
      (if opt_unique opts then dedupe else fun found => found)
        (flat_map (source_matches' rx) sourceKeys
         ++ flat_map (custom_matches' rx) customWordlists).
Proof.
  intros compiles. unfold loadAndSearchWordlists.
  edestruct (process_sources_compiled rx sourceKeys) as (acc1 & -> & Hm1);
    [exact compiles|]. cbn.
  edestruct (process_customs_compiled rx customWordlists acc1) as (acc2 & -> & Hm2);
    [exact compiles|]. cbn.
  rewrite Hm1 in Hm2. cbn in Hm2.
  destruct (opt_unique opts); cbn; do 2 eexists; (split; [reflexivity|]); cbn;
    now rewrite Hm2.
Qed.

(** *** What the run throws is what the compilation of the template throws *)

Lemma search_throws wordlist progressCallback e :
  search' wordlist progressCallback = Throws e ->
  templateToRegex U pattern (opt_wholeWord opts) = Throws e.
Proof.
  unfold searchInWordlist.
  destruct (templateToRegex U pattern (opt_wholeWord opts)) as [rx|e'|]; cbn;
    [|congruence|discriminate].
  destruct (Nat.leb _ _); discriminate.
Qed.

Lemma process_sources_caught sourceKeys acc e :
  process_sources' acc sourceKeys <> Throws e.
Proof.
  revert acc. induction sourceKeys as [|k keys IH]; intros acc; simpl; [discriminate|].
  unfold process_source. fold (load' k).
  destruct (load' k) as [loaded|e'|]; cbn; [|apply IH|discriminate].
  destruct (search' loaded _) as [[found events]|e'|]; cbn;
    [apply IH|apply IH|discriminate].
Qed.

Lemma process_customs_throws customWordlists acc e :
  process_customs' acc customWordlists = Throws e ->
  templateToRegex U pattern (opt_wholeWord opts) = Throws e.
Proof.
  revert acc. induction customWordlists as [|c cs IH]; intros acc; simpl; [discriminate|].
  unfold process_custom.
  destruct (search' (words c) None) as [[found events]|e'|] eqn:Es; cbn;
    [apply IH| |discriminate].
  intros [= ->]. now apply search_throws in Es.
Qed.

Lemma run_throws sourceKeys customWordlists e :
  run' sourceKeys customWordlists = Throws e ->
  templateToRegex U pattern (opt_wholeWord opts) = Throws e.
Proof.
  unfold loadAndSearchWordlists.
  destruct (process_sources' _ sourceKeys) as [acc1|e'|] eqn:E1; cbn;
    [| |discriminate].
  - destruct (process_customs' acc1 customWordlists) as [acc2|e'|] eqn:E2; cbn;
      [destruct (opt_unique opts); discriminate| |discriminate].
    intros [= ->]. now apply process_customs_throws in E2.
  - now apply process_sources_caught in E1.
Qed.

End RunFacts.

(** ** Sorting the results *)

Section SortFacts.
Variable localeCompare : jsstring -> jsstring -> Z.

(** [localeCompare] is a consistent comparator: [b] sorts after [a] exactly
    when [a] sorts before [b]. *)
Hypothesis localeCompare_consistent :
  forall a b, (0 < localeCompare b a)%Z <-> (localeCompare a b < 0)%Z.

Local Abbreviation before := (collates_before localeCompare).

Lemma sort_insert_perm x l : Permutation (sort_insert localeCompare x l) (x :: l).
Proof.
  induction l as [|y l IH]; simpl; [reflexivity|].
  destruct (localeCompare x y <=? 0)%Z; [reflexivity|].
  rewrite IH. apply perm_swap.
Qed.

Lemma sort_insert_HdRel a x l :
  before a x -> HdRel before a l -> HdRel before a (sort_insert localeCompare x l).
Proof.
  intros Hax Hal. destruct l as [|y l]; simpl; [now constructor|].
  destruct (localeCompare x y <=? 0)%Z; constructor; auto.
  now inversion Hal.
Qed.

Lemma sort_insert_sorted x l :
  Sorted before l -> Sorted before (sort_insert localeCompare x l).
Proof.
  induction 1 as [|y l Hl IH Hy]; simpl; [repeat constructor|].
  destruct (localeCompare x y <=? 0)%Z eqn:E.
  - constructor; [now constructor|]. constructor. now apply Z.leb_le.
  - constructor; [exact IH|]. apply sort_insert_HdRel; [|exact Hy].
    apply Z.leb_gt in E. apply localeCompare_consistent in E.
    unfold collates_before. lia.
Qed.

Lemma Array_sort_sorted l : Sorted before (Array_sort localeCompare l).
Proof.
  induction l as [|x l IH]; simpl; [constructor|]. now apply sort_insert_sorted.
Qed.

Lemma Array_sort_perm l : Permutation (Array_sort localeCompare l) l.
Proof.
  induction l as [|x l IH]; simpl; [reflexivity|].
  rewrite sort_insert_perm. now constructor.
Qed.

Variable U : UnicodeData.
Variable fetch : jsstring -> fetch_result.
Variable batch_size : positive.

Lemma handleSearch_sorted form r :
  form_sort form = true ->
  handleSearch U fetch localeCompare batch_size form = Some (Returns r) ->
  Sorted before (matches r) /\
  exists result events,
    handleSearch_call U fetch batch_size form = Returns (result, events) /\
    Permutation (matches r) (matches result) /\ stats r = stats result.
Proof.
  intros Hsort. unfold handleSearch.
  destruct (Nat.eqb (length (form_pattern form)) 0); [discriminate|].
  destruct (_ && _ && _); [discriminate|].
  destruct (handleSearch_call U fetch batch_size form) as [[result events]|e|];
    cbn; try discriminate.
  rewrite Hsort. intros [= <-]. cbn. split; [apply Array_sort_sorted|].
  exists result, events. split; [reflexivity|]. split; [apply Array_sort_perm|reflexivity].
Qed.

Lemma dedupe_sort_call :
  exists events,
    handleSearch_call U fetch batch_size dedupe_sort_form
    = Returns ({| matches := [[bet; bet]; [alef; alef]];
                  stats := {| total := 3; matched := 2 |} |}, events).
Proof.
  set (opts := {| opt_stripNiqqud := false; opt_unique := true; opt_wholeWord := true |}).
  set (customs := form_customWordlists dedupe_sort_form).
  change (handleSearch_call U fetch batch_size dedupe_sort_form)
    with (loadAndSearchWordlists U fetch batch_size (str "??") opts true true None []
            customs).
  assert (Hrx : exists rx, templateToRegex U (str "??") (opt_wholeWord opts) = Returns rx /\
            List.filter (accepts U rx None) [[bet; bet]; [alef; alef]; [bet; bet]]
            = [[bet; bet]; [alef; alef]; [bet; bet]]).
  { eexists. split; reflexivity. }
  destruct Hrx as (rx & Hrx & Hf).
  destruct (run_compiled U fetch batch_size (str "??") opts true true None rx [] customs Hrx)
    as (r & events & Hrun & Hm).
  pose proof (run_stats U fetch batch_size (str "??") opts true true None [] customs r events
                Hrun) as [Hmatched Htotal].
  exists events. rewrite Hrun. f_equal. f_equal.
  unfold customs, custom_matches in Hm, Htotal.
  cbn [flat_map app form_customWordlists dedupe_sort_form words opt_unique opts] in Hm.
  rewrite Hf, app_nil_r in Hm.
  destruct r as [ms [t m]]. cbn in Hm, Hmatched, Htotal. subst ms t m. reflexivity.
Qed.

(** C5. When the sort option is set, the matches [handleSearch] ends with
    (the array of the object the orchestrator returned, sorted in place)
    are sorted by [localeCompare] and are a rearrangement of the
    orchestrator's matches, with the same statistics; e.g. the accumulated
    matches [בב], [אא], [בב] with [unique] and the sort set give [אא], [בב]
    under a collation that puts [אא] before [בב]. *)
Theorem sorted_results :
  (forall form r,
     form_sort form = true ->
     handleSearch U fetch localeCompare batch_size form = Some (Returns r) ->
     Sorted (collates_before localeCompare) (matches r) /\
     exists result events,
       handleSearch_call U fetch batch_size form = Returns (result, events) /\
       Permutation (matches r) (matches result) /\ stats r = stats result) /\
  ((localeCompare [alef; alef] [bet; bet] < 0)%Z ->
   handleSearch U fetch localeCompare batch_size dedupe_sort_form
   = Some (Returns {| matches := [[alef; alef]; [bet; bet]];
                      stats := {| total := 3; matched := 2 |} |})).
Proof.
  split; [apply handleSearch_sorted|].
  intros Hlt. unfold handleSearch. cbn [dedupe_sort_form form_pattern
    form_selectedSources form_customWordlists form_sort].
  change (Nat.eqb (length (str "??")) 0) with false. cbn match.
  destruct dedupe_sort_call as (events & ->). cbn.
  apply localeCompare_consistent in Hlt.
  destruct (Z.leb_spec (localeCompare [bet; bet] [alef; alef]) 0); [lia|reflexivity].
Qed.

End SortFacts.

Lemma compare_units_consistent a b :
  (0 < compare_units b a)%Z <-> (compare_units a b < 0)%Z.
Proof.
  revert b. induction a as [|x a IH]; intros [|y b]; simpl; try lia.
  destruct (N.ltb_spec x y), (N.ltb_spec y x); try lia. apply IH.
Qed.

(** ** The normalizer and the loader *)

Section NormalizerFacts.
Local Open Scope N_scope.
Variable U : UnicodeData.

Lemma filter_marks_none w :
  (forall c, In c (toCodePoints w) -> is_mark U c = false) ->
  List.filter (fun ch => negb (test U MARK ch)) (Array_from w) = Array_from w.
Proof.
  induction w as [|u|u v r IHr IHvr] using list_pair_ind; intros H.
  - reflexivity.
  - cbn [Array_from List.filter]. rewrite test_MARK_single, H; [reflexivity|now left].
  - rewrite toCodePoints_cons2 in H. rewrite Array_from_cons2.
    destruct (is_lead_surrogate u && is_trail_surrogate v) eqn:E; cbn [List.filter].
    + rewrite (test_MARK_pair _ _ _ E), H by now left. cbn. f_equal.
      apply IHr. intros c Hc. apply H. now right.
    + rewrite test_MARK_single, H by now left. cbn. f_equal.
      apply IHvr. intros c Hc. apply H. now right.
Qed.

Lemma reorder_insert_starter c before :
  combining_class U c = 0 -> reorder_insert U c before = c :: before.
Proof. intros H. destruct before; simpl; [reflexivity|]. now rewrite H. Qed.

Lemma canonical_reorder_starters l :
  (forall c, In c l -> combining_class U c = 0) -> canonical_reorder U l = l.
Proof.
  unfold canonical_reorder. intros H.
  enough (G : forall before, fold_left (fun before c => reorder_insert U c before) l before
                             = rev l ++ before).
  { rewrite G, app_nil_r. apply rev_involutive. }
  induction l as [|c l IH]; intros before; simpl; [reflexivity|].
  rewrite reorder_insert_starter by (apply H; now left).
  rewrite IH by (intros; apply H; now right). now rewrite <- app_assoc.
Qed.

Lemma flat_map_undecomposed l :
  (forall c, In c l -> compat_decomposition U c = [c]) ->
  flat_map (compat_decomposition U) l = l.
Proof.
  induction l as [|c l IH]; intros H; simpl; [reflexivity|].
  rewrite H by now left. rewrite IH by (intros; apply H; now right). reflexivity.
Qed.

Lemma stripNiqqud_inert w :
  well_formed w -> (forall c, In c (toCodePoints w) -> inert U c) ->
  stripNiqqud U w = w.
Proof.
  intros Hwf Hin. unfold stripNiqqud, normalize_NFKD.
  rewrite flat_map_undecomposed by (intros c Hc; apply (Hin c Hc)).
  rewrite canonical_reorder_starters by (intros c Hc; apply (Hin c Hc)).
  rewrite fromCodePoints_toCodePoints by exact Hwf.
  rewrite filter_marks_none by (intros c Hc; apply (Hin c Hc)).
  apply concat_Array_from.
Qed.

Lemma candidate_words_spec text w :
  In w (candidate_words U text) <-> In w (map trim (split_lines text)) /\ Word w.
Proof.
  unfold candidate_words. rewrite !filter_In.
  rewrite test_WHITESPACE, test_HEBREW_BLOCK, andb_true_iff, !negb_true_iff.
  rewrite existsb_exists. unfold Word, hebrew_block.
  split.
  - intros [[Hin Hne] [Hws (c & Hc & Hr)]]. split; [exact Hin|].
    split; [|split].
    + intros ->. destruct Hc.
    + intros d Hd. destruct (is_white_space d) eqn:E; [|reflexivity].
      assert (existsb is_white_space w = true) by (apply existsb_exists; eauto).
      congruence.
    + apply andb_prop in Hr as [H1 H2]. apply N.leb_le in H1, H2. eauto.
  - intros [Hin (Hne & Hws & c & Hc & H1 & H2)]. split; [split; [exact Hin|]|split].
    + destruct w; [congruence|reflexivity].
    + apply not_true_is_false. intros H. apply existsb_exists in H as (d & Hd & E).
      rewrite (Hws d Hd) in E. discriminate.
    + exists c. split; [exact Hc|]. apply N.leb_le in H1, H2. now rewrite H1, H2.
Qed.

Variable fetch : jsstring -> fetch_result.
Variable batch_size : positive.

Lemma loadWordlist_stripping sourceKey customUrl pasted (unique wholeWord : bool) :
  loadWordlist U fetch batch_size sourceKey customUrl pasted
    {| opt_stripNiqqud := true; opt_unique := unique; opt_wholeWord := wholeWord |}
  = map (stripNiqqud U) <$>
      loadWordlist U fetch batch_size sourceKey customUrl pasted
        {| opt_stripNiqqud := false; opt_unique := unique; opt_wholeWord := wholeWord |}.
Proof.
  unfold loadWordlist. cbn [opt_stripNiqqud].
  match goal with |- (?m ≫= _) = _ => destruct m as [text|e|] end; cbn; try reflexivity.
  now rewrite strip_batches_map.
Qed.

Lemma loadWordlist_plain_words sourceKey customUrl pasted (unique wholeWord : bool) ws :
  loadWordlist U fetch batch_size sourceKey customUrl pasted
    {| opt_stripNiqqud := false; opt_unique := unique; opt_wholeWord := wholeWord |}
  = Returns ws ->
  exists text, ws = candidate_words U text.
Proof.
  unfold loadWordlist. cbn [opt_stripNiqqud].
  match goal with |- (?m ≫= _) = _ -> _ => destruct m as [text|e|] end; cbn;
    try discriminate.
  intros [= <-]. eauto.
Qed.

(** C9 (amended). Without [stripNiqqud], every word [loadWordlist] returns
    is a Word (not empty, no white space, a letter of the Hebrew block);
    the lines kept are exactly the trimmed lines that are Words, the others
    are dropped without any error: pasted text always loads, and so does a
    source whose resource is served.  With [stripNiqqud] the invariants are
    checked before the marks are stripped: the result is [stripNiqqud] of
    each such Word. *)
Theorem loaded_words_valid sourceKey customUrl pasted (unique wholeWord : bool) :
  (forall ws,
     loadWordlist U fetch batch_size sourceKey customUrl pasted
       {| opt_stripNiqqud := false; opt_unique := unique; opt_wholeWord := wholeWord |}
     = Returns ws -> Forall Word ws) /\
  (forall text w,
     In w (candidate_words U text) <-> In w (map trim (split_lines text)) /\ Word w) /\
  (forall text,
     given (Some text) = true ->
     loadWordlist U fetch batch_size (str "custom") customUrl (Some text)
       {| opt_stripNiqqud := false; opt_unique := unique; opt_wholeWord := wholeWord |}
     = Returns (candidate_words U text)) /\
  (forall status text,
     sourceKey <> str "custom" ->
     fetch (default (str "undefined") (sources !! sourceKey)) = Response true status text ->
     loadWordlist U fetch batch_size sourceKey None None
       {| opt_stripNiqqud := false; opt_unique := unique; opt_wholeWord := wholeWord |}
     = Returns (candidate_words U text)) /\
  loadWordlist U fetch batch_size sourceKey customUrl pasted
    {| opt_stripNiqqud := true; opt_unique := unique; opt_wholeWord := wholeWord |}
  = map (stripNiqqud U) <$>
      loadWordlist U fetch batch_size sourceKey customUrl pasted
        {| opt_stripNiqqud := false; opt_unique := unique; opt_wholeWord := wholeWord |}.
Proof.
  split; [|split; [|split; [|split]]].
  - intros ws H. apply loadWordlist_plain_words in H as (text & ->).
    apply Forall_forall. intros w Hw. apply list_elem_of_In in Hw.
    now apply candidate_words_spec in Hw.
  - apply candidate_words_spec.
  - intros text Hgiven. unfold loadWordlist.
    destruct (decide (str "custom" = str "custom")); [|congruence].
    now rewrite Hgiven.
  - intros status text Hkey Hfetch. unfold loadWordlist, fetch_text.
    destruct (decide (sourceKey = str "custom")); [contradiction|].
    now rewrite Hfetch.
  - apply loadWordlist_stripping.
Qed.

End NormalizerFacts.

(** ** The compiler and the pattern parser *)

Section BracketFacts.
Local Open Scope N_scope.
Variable U : UnicodeData.

Lemma bracket_run_cons s c src :
  bracket_run s (c :: src) = bracket_run (bracket_step s c) src.
Proof. reflexivity. Qed.

Lemma bracket_run_app s src1 src2 :
  bracket_run s (src1 ++ src2) = bracket_run (bracket_run s src1) src2.
Proof. apply fold_left_app. Qed.

Lemma plain_step c : plain c -> bracket_step InClass c = InClass.
Proof.
  intros [H1 H2]. unfold bracket_step.
  destruct (N.eqb_spec c (chr "\")); [contradiction|].
  destruct (N.eqb_spec c (chr "]")); [contradiction|reflexivity].
Qed.

Lemma hex_value_plain c d : hex_value c = Some d -> plain c.
Proof.
  unfold hex_value, is_decimal_digit, plain. change (chr "\") with 92. change (chr "]") with 93.
  destruct ((48 <=? c) && (c <=? 57)) eqn:E1.
  { intros _. apply andb_prop in E1 as [H1 H2]. apply N.leb_le in H1, H2. lia. }
  destruct ((97 <=? c) && (c <=? 102)) eqn:E2.
  { intros _. apply andb_prop in E2 as [H1 H2]. apply N.leb_le in H1, H2. lia. }
  destruct ((65 <=? c) && (c <=? 70)) eqn:E3; [|discriminate].
  intros _. apply andb_prop in E3 as [H1 H2]. apply N.leb_le in H1, H2. lia.
Qed.

Lemma hex_digits_bracket n src acc v rest :
  hex_digits n src acc = Some (v, rest) ->
  bracket_run InClass src = bracket_run InClass rest.
Proof.
  revert src acc. induction n as [|n IH]; intros src acc; cbn [hex_digits].
  - now intros [= _ ->].
  - destruct src as [|c src]; [discriminate|].
    destruct (hex_value c) as [d|] eqn:E; [|discriminate].
    intros H. rewrite bracket_run_cons, (plain_step c (hex_value_plain c d E)). eauto.
Qed.

Lemma hex_run_bracket src acc :
  bracket_run InClass src = bracket_run InClass (snd (hex_run src acc)).
Proof.
  revert acc. induction src as [|c src IH]; intros acc; cbn [hex_run]; [reflexivity|].
  destruct (hex_value c) as [d|] eqn:E; [|reflexivity].
  rewrite <- IH. now rewrite bracket_run_cons, (plain_step c (hex_value_plain c d E)).
Qed.

Lemma is_chr_plain c (a : ascii) :
  is_chr c a = true -> chr a <> chr "\" -> chr a <> chr "]" -> plain c.
Proof. unfold is_chr. intros H%N.eqb_eq. subst. now split. Qed.

Lemma property_char_plain c : is_property_char c = true -> plain c.
Proof.
  unfold is_property_char, is_ascii_letter, is_decimal_digit, is_chr, plain.
  change (chr "\") with 92. change (chr "]") with 93.
  change (chr "_") with 95. change (chr "=") with 61.
  rewrite !orb_true_iff, !andb_true_iff, !N.leb_le, !N.eqb_eq. lia.
Qed.

Lemma property_run_bracket src :
  bracket_run InClass src = bracket_run InClass (snd (property_run src)).
Proof.
  induction src as [|c src IH]; cbn [property_run]; [reflexivity|].
  destruct (is_property_char c) eqn:E; [|reflexivity].
  destruct (property_run src) as [name rest]. cbn [snd] in *.
  now rewrite bracket_run_cons, (plain_step c (property_char_plain c E)).
Qed.

Lemma letter_plain c : is_ascii_letter c = true -> plain c.
Proof.
  unfold is_ascii_letter, plain. change (chr "\") with 92. change (chr "]") with 93.
  rewrite !orb_true_iff, !andb_true_iff, !N.leb_le. lia.
Qed.

Lemma trail_plain c : is_trail_surrogate c = true -> plain c.
Proof.
  unfold is_trail_surrogate, plain. change (chr "\") with 92. change (chr "]") with 93.
  rewrite !andb_true_iff, !N.leb_le. lia.
Qed.

Lemma parse_unicode_escape_bracket src v rest :
  parse_unicode_escape src = Some (v, rest) ->
  bracket_run InClass src = bracket_run InClass rest.
Proof.
  unfold parse_unicode_escape. destruct src as [|c src]; [discriminate|].
  destruct (is_chr c "{") eqn:Ec.
  - destruct src as [|d src]; [discriminate|].
    destruct (hex_value d) as [x|]; [|discriminate].
    pose proof (hex_run_bracket (d :: src) 0) as Hr.
    destruct (hex_run (d :: src) 0) as [w rest1]. cbn [snd] in Hr.
    destruct rest1 as [|e rest2]; [discriminate|].
    destruct (is_chr e "}" && (w <=? 1114111)) eqn:Ee; [|discriminate].
    intros [= _ <-]. apply andb_prop in Ee as [Ee _].
    rewrite bracket_run_cons, (plain_step c) by (eapply is_chr_plain; eauto; discriminate).
    rewrite Hr, bracket_run_cons, (plain_step e) by (eapply is_chr_plain; eauto; discriminate).
    reflexivity.
  - destruct (hex_digits 4 (c :: src) 0) as [[hi rest1]|] eqn:E1; [|discriminate].
    apply hex_digits_bracket in E1. rewrite E1.
    destruct rest1 as [|b [|u rest2]]; try now intros [= _ <-].
    destruct (is_lead_surrogate hi && is_chr b "\" && is_chr u "u") eqn:Eb;
      [|now intros [= _ <-]].
    destruct (hex_digits 4 rest2 0) as [[lo rest3]|] eqn:E2; [|now intros [= _ <-]].
    destruct (is_trail_surrogate lo); [|now intros [= _ <-]].
    intros [= _ <-]. apply hex_digits_bracket in E2. rewrite <- E2.
    apply andb_prop in Eb as [Eb Eu]. apply andb_prop in Eb as [_ Eb].
    unfold is_chr in Eb, Eu. apply N.eqb_eq in Eb, Eu. subst. reflexivity.
Qed.

Lemma parse_class_escape_bracket src a rest :
  parse_class_escape U src = Some (a, rest) ->
  bracket_run InClassEscape src = bracket_run InClass rest.
Proof.
  unfold parse_class_escape. destruct src as [|c src]; [discriminate|].
  rewrite bracket_run_cons. change (bracket_step InClassEscape c) with InClass.
  repeat match goal with
         | |- (if is_chr c ?a then Some (_, src) else _) = _ -> _ =>
             destruct (is_chr c a); [now intros [= _ <-]|]
         end.
  destruct (is_chr c "p" || is_chr c "P").
  { destruct src as [|d rest1]; [discriminate|].
    destruct (is_chr d "{") eqn:Ed; [|discriminate].
    pose proof (property_run_bracket rest1) as Hr.
    destruct (property_run rest1) as [name rest2]. cbn [snd] in Hr.
    destruct rest2 as [|e rest3]; [discriminate|].
    destruct (unicode_property U name); [|discriminate].
    destruct (is_chr e "}") eqn:Ee; [|discriminate].
    intros [= _ <-].
    rewrite bracket_run_cons, (plain_step d) by (eapply is_chr_plain; eauto; discriminate).
    rewrite Hr, bracket_run_cons, (plain_step e) by (eapply is_chr_plain; eauto; discriminate).
    reflexivity. }
  repeat match goal with
         | |- (if is_chr c ?a then Some (_, src) else _) = _ -> _ =>
             destruct (is_chr c a); [now intros [= _ <-]|]
         end.
  destruct (is_chr c "c").
  { destruct src as [|l rest1]; [discriminate|].
    destruct (is_ascii_letter l) eqn:El; [|discriminate].
    intros [= _ <-]. now rewrite bracket_run_cons, (plain_step l (letter_plain l El)). }
  destruct (is_chr c "0").
  { destruct src as [|d rest1]; [now intros [= _ <-]|].
    destruct (is_decimal_digit d); [discriminate|now intros [= _ <-]]. }
  destruct (is_chr c "x").
  { destruct (hex_digits 2 src 0) as [[v rest1]|] eqn:E; [|discriminate].
    intros [= _ <-]. eapply hex_digits_bracket; eauto. }
  destruct (is_chr c "u").
  { destruct (parse_unicode_escape src) as [[v rest1]|] eqn:E; [|discriminate].
    intros [= _ <-]. eapply parse_unicode_escape_bracket; eauto. }
  destruct (is_syntax_char c || is_chr c "/"); [now intros [= _ <-]|discriminate].
Qed.

Lemma parse_class_atom_bracket c src a rest :
  is_chr c "]" = false ->
  parse_class_atom U (c :: src) = Some (a, rest) ->
  bracket_run InClass (c :: src) = bracket_run InClass rest.
Proof.
  intros Hc. unfold parse_class_atom. rewrite bracket_run_cons.
  unfold bracket_step. fold (is_chr c "\"). fold (is_chr c "]"). rewrite Hc.
  destruct (is_chr c "\").
  - apply parse_class_escape_bracket.
  - unfold parse_source_char. destruct src as [|d src]; [now intros [= _ <-]|].
    destruct (is_lead_surrogate c && is_trail_surrogate d) eqn:E; intros [= _ <-];
      [|reflexivity].
    apply andb_prop in E as [_ E].
    now rewrite bracket_run_cons, (plain_step d (trail_plain d E)).
Qed.

Lemma parse_class_items_bracket fuel src acc its rest :
  parse_class_items U fuel src acc = Returns (its, rest) ->
  bracket_run InClass src = bracket_run Top rest.
Proof.
  revert src acc. induction fuel as [|fuel IH]; intros src acc;
    destruct src as [|c src]; cbn [parse_class_items]; try discriminate.
  - destruct (is_chr c "]") eqn:Ec; [|discriminate].
    intros [= _ <-]. rewrite bracket_run_cons. unfold bracket_step.
    unfold is_chr in Ec. apply N.eqb_eq in Ec. subst. reflexivity.
  - destruct (is_chr c "]") eqn:Ec.
    { intros [= _ <-]. rewrite bracket_run_cons. unfold bracket_step.
      unfold is_chr in Ec. apply N.eqb_eq in Ec. subst. reflexivity. }
    destruct (parse_class_atom U (c :: src)) as [[a rest1]|] eqn:Ea; [|discriminate].
    apply (parse_class_atom_bracket _ _ _ _ Ec) in Ea. rewrite Ea.
    destruct (dash_then_atom rest1) eqn:Ed.
    + destruct rest1 as [|d [|e rest2]]; try discriminate. cbn [tl].
      cbn in Ed. apply andb_prop in Ed as [Ed Ee]. apply negb_true_iff in Ee.
      destruct (parse_class_atom U (e :: rest2)) as [[b rest3]|] eqn:Eb; [|discriminate].
      apply (parse_class_atom_bracket _ _ _ _ Ee) in Eb.
      rewrite bracket_run_cons, (plain_step d) by (eapply is_chr_plain; eauto; discriminate).
      rewrite Eb.
      destruct a as [lo|? ?], b as [hi|? ?]; try discriminate.
      destruct (lo <=? hi); [|discriminate]. apply IH.
    + apply IH.
Qed.

Lemma parse_class_bracket src cc rest :
  parse_class U src = Returns (cc, rest) ->
  bracket_run InClass src = bracket_run Top rest.
Proof.
  unfold parse_class.
  assert (G : forall neg body,
    ('(its, rest0) ← parse_class_items U (length body) body [];
     mret ({| negated := neg; items := its |}, rest0)) = Returns (cc, rest) ->
    bracket_run InClass body = bracket_run Top rest).
  { intros neg body.
    destruct (parse_class_items U (length body) body []) as [[its rest0]| |] eqn:E;
      cbn; try discriminate.
    intros [= _ <-]. eapply parse_class_items_bracket; eauto. }
  destruct src as [|c src]; [apply G|].
  destruct (is_chr c "^") eqn:Ec; [|apply G].
  intros H. apply G in H.
  now rewrite bracket_run_cons, (plain_step c) by (eapply is_chr_plain; eauto; discriminate).
Qed.

Lemma not_syntax_top c :
  is_syntax_char c = false -> bracket_step Top c = Top.
Proof.
  unfold is_syntax_char, bracket_step. cbn. rewrite !orb_false_iff.
  intros H. decompose [and] H. clear H.
  change (chr "\") with 92. change (chr "[") with 91.
  repeat match goal with
         | Hc : (c =? _) = false |- _ => try rewrite Hc; clear Hc
         end.
  reflexivity.
Qed.

Lemma trail_not_syntax c : is_trail_surrogate c = true -> is_syntax_char c = false.
Proof.
  unfold is_trail_surrogate, is_syntax_char. rewrite !andb_true_iff, !N.leb_le.
  intros [H1 H2]. cbn. rewrite !orb_false_iff. repeat split; apply N.eqb_neq; lia.
Qed.

Lemma trail_top c : is_trail_surrogate c = true -> bracket_step Top c = Top.
Proof. intros H. apply not_syntax_top. now apply trail_not_syntax. Qed.

(** A source the parser accepts ends outside every class and escape. *)
Lemma parse_terms_bracket fuel src acc ts :
  parse_terms U fuel src acc = Returns ts -> bracket_run Top src = Top.
Proof.
  revert src acc. induction fuel as [|fuel IH]; intros src acc;
    destruct src as [|c src]; cbn [parse_terms]; try discriminate; try reflexivity.
  rewrite bracket_run_cons.
  destruct (is_chr c "^") eqn:E1.
  { unfold is_chr in E1. apply N.eqb_eq in E1. subst c. apply IH. }
  destruct (is_chr c "$") eqn:E2.
  { unfold is_chr in E2. apply N.eqb_eq in E2. subst c. apply IH. }
  destruct (is_chr c "\") eqn:E3.
  { unfold is_chr in E3. apply N.eqb_eq in E3. subst c.
    destruct src as [|e src]; [discriminate|].
    destruct (is_syntax_char e || is_chr e "/") eqn:Ee; [|discriminate].
    change (bracket_step Top (chr "\")) with TopEscape. rewrite bracket_run_cons.
    change (bracket_step TopEscape e)
      with (if is_syntax_char e || is_chr e "/" then Top else Lost).
    rewrite Ee. apply IH. }
  destruct (is_chr c "[") eqn:E4.
  { unfold is_chr in E4. apply N.eqb_eq in E4. subst c.
    change (bracket_step Top (chr "[")) with InClass.
    destruct (parse_class U src) as [[cc rest]| |] eqn:Ec; cbn; try discriminate.
    apply parse_class_bracket in Ec. rewrite Ec. apply IH. }
  destruct (is_chr c "]" || is_chr c "}"); [discriminate|].
  destruct (is_syntax_char c) eqn:E5; [discriminate|].
  rewrite (not_syntax_top c E5).
  unfold parse_source_char. destruct src as [|d src]; [apply IH|].
  destruct (is_lead_surrogate c && is_trail_surrogate d) eqn:E6; [|apply IH].
  apply andb_prop in E6 as [_ E6]. rewrite bracket_run_cons, (trail_top d E6). apply IH.
Qed.

End BracketFacts.

Section ScanFacts.
Local Open Scope N_scope.

Lemma scan_out template inClass out :
  scan template inClass out
  = (out ++ fst (scan template inClass []), snd (scan template inClass [])).
Proof.
  revert inClass out. induction template as [|ch rest IH]; intros inClass out.
  - cbn. now rewrite app_nil_r.
  - cbn [scan].
    repeat match goal with
           | |- context [if ?b then _ else _] => destruct b
           end;
      rewrite (IH _ (out ++ _)), (IH _ ([] ++ _)); cbn [fst snd];
      now rewrite <- !app_assoc.
Qed.

Lemma scan_app template1 template2 inClass out :
  scan (template1 ++ template2) inClass out
  = scan template2 (snd (scan template1 inClass out)) (fst (scan template1 inClass out)).
Proof.
  revert inClass out. induction template1 as [|ch rest IH]; intros inClass out;
    [reflexivity|].
  cbn [scan app].
  repeat match goal with
         | |- context [if ?b then _ else _] => destruct b
         end; apply IH.
Qed.

(** Inside a class the text is copied as it is up to the closing bracket. *)
Lemma scan_class_body body out :
  ~ In (chr "]") body -> scan body true out = (out ++ body, true).
Proof.
  revert out. induction body as [|ch rest IH]; intros out H.
  - cbn. now rewrite app_nil_r.
  - cbn [scan]. rewrite andb_false_r.
    destruct (N.eqb_spec ch (chr "]")) as [->|Hne].
    + exfalso. apply H. now left.
    + unfold is_chr at 1. destruct (N.eqb_spec ch (chr "]")); [contradiction|].
      cbn [andb]. rewrite IH by (intros Hin; apply H; now right).
      now rewrite <- app_assoc.
Qed.

(** An opening bracket that is never closed: the scan copies the bracket
    and all that follows it. *)
Lemma scan_unterminated before body :
  snd (scan before false []) = false -> ~ In (chr "]") body ->
  scan (before ++ chr "[" :: body) false []
  = (fst (scan before false []) ++ chr "[" :: body, true).
Proof.
  intros Hb Hbody. rewrite scan_app, Hb. cbn [scan].
  change (is_chr (chr "[") "[" && negb false) with true. cbn match.
  now rewrite scan_class_body, <- app_assoc.
Qed.

Lemma escape_agrees ch s :
  is_chr ch "[" = false -> agrees false s ->
  agrees false (bracket_run s (escape ch)).
Proof.
  unfold escape, agrees. intros Hch Hs.
  destruct (is_syntax_char ch) eqn:E; unfold bracket_run; cbn [fold_left].
  - destruct Hs as [-> | ->]; [left|right; reflexivity].
    change (bracket_step Top (chr "\")) with TopEscape.
    change (bracket_step TopEscape ch)
      with (if is_syntax_char ch || is_chr ch "/" then Top else Lost).
    now rewrite E.
  - destruct Hs as [-> | ->]; [left; now apply not_syntax_top|right].
    apply plain_step. unfold plain.
    unfold is_syntax_char in E. cbn in E. rewrite !orb_false_iff in E.
    decompose [and] E. change (chr "\") with 92. change (chr "]") with 93.
    split; apply N.eqb_neq; assumption.
Qed.

Lemma scan_agrees template inClass s :
  agrees inClass s ->
  agrees (snd (scan template inClass []))
         (bracket_run s (fst (scan template inClass []))).
Proof.
  revert inClass s. induction template as [|ch rest IH]; intros inClass s H;
    [exact H|].
  cbn [scan]. 
  destruct (is_chr ch "[" && negb inClass) eqn:E1.
  { rewrite scan_out. cbn [fst snd]. rewrite bracket_run_app. apply IH.
    apply andb_prop in E1 as [E1 E1']. apply negb_true_iff in E1'. subst inClass.
    unfold is_chr in E1. apply N.eqb_eq in E1. subst ch.
    destruct H as [-> | ->]; cbn; [left|left]; reflexivity. }
  destruct (is_chr ch "]" && inClass) eqn:E2.
  { rewrite scan_out. cbn [fst snd]. rewrite bracket_run_app. apply IH.
    apply andb_prop in E2 as [E2 E2']. subst inClass.
    unfold is_chr in E2. apply N.eqb_eq in E2. subst ch.
    destruct H as [-> | ->]; cbn; [left|right]; reflexivity. }
  destruct inClass.
  { rewrite scan_out. cbn [fst snd]. rewrite bracket_run_app. apply IH.
    rewrite andb_true_r in E2.
    destruct H as [-> | ->]; cbn [app bracket_run fold_left]; unfold bracket_run;
      cbn [fold_left]; [|now left].
    unfold bracket_step. fold (is_chr ch "]"). rewrite E2.
    destruct (ch =? chr "\"); [now right|now left]. }
  rewrite andb_true_r in E1.
  destruct (is_chr ch "?") eqn:E3.
  { rewrite scan_out. cbn [fst snd]. rewrite bracket_run_app. apply IH.
    destruct H as [-> | ->]; left; reflexivity. }
  rewrite scan_out. cbn [fst snd]. rewrite bracket_run_app. apply IH.
  now apply escape_agrees.
Qed.

End ScanFacts.

(** ** The parser covers what the compiler writes *)

Section CoverageFacts.
Local Open Scope N_scope.
Variable U : UnicodeData.

Lemma bracket_run_lost src : bracket_run Lost src = Lost.
Proof. induction src as [|c src IH]; [reflexivity|]. now rewrite bracket_run_cons. Qed.

Lemma hex_digits_shorter n src acc v rest :
  hex_digits n src acc = Some (v, rest) -> (length rest <= length src)%nat.
Proof.
  revert src acc. induction n as [|n IH]; intros src acc; cbn [hex_digits].
  - intros [= _ <-]. lia.
  - destruct src as [|c src]; [discriminate|].
    destruct (hex_value c); [|discriminate].
    intros H%IH. cbn [length]. lia.
Qed.

Lemma hex_run_shorter src acc : (length (snd (hex_run src acc)) <= length src)%nat.
Proof.
  revert acc. induction src as [|c src IH]; intros acc; cbn [hex_run]; [cbn; lia|].
  destruct (hex_value c); [|cbn; lia]. specialize (IH (acc * 16 + n)). cbn [length]. lia.
Qed.

Lemma property_run_shorter src : (length (snd (property_run src)) <= length src)%nat.
Proof.
  induction src as [|c src IH]; cbn [property_run]; [cbn; lia|].
  destruct (is_property_char c); [|cbn; lia].
  destruct (property_run src) as [name rest]. cbn [snd length] in *. lia.
Qed.

Lemma parse_unicode_escape_shorter src v rest :
  parse_unicode_escape src = Some (v, rest) -> (length rest <= length src)%nat.
Proof.
  unfold parse_unicode_escape. destruct src as [|c src]; [discriminate|].
  destruct (is_chr c "{").
  - destruct src as [|d src]; [discriminate|].
    destruct (hex_value d); [|discriminate].
    pose proof (hex_run_shorter (d :: src) 0) as Hr.
    destruct (hex_run (d :: src) 0) as [w rest1]. cbn [snd] in Hr.
    destruct rest1 as [|e rest2]; [discriminate|].
    destruct (is_chr e "}" && (w <=? 1114111)); [|discriminate].
    intros [= _ <-]. cbn [length] in *. lia.
  - destruct (hex_digits 4 (c :: src) 0) as [[hi rest1]|] eqn:E1; [|discriminate].
    apply hex_digits_shorter in E1.
    destruct rest1 as [|b [|u rest2]]; try (intros [= _ <-]; exact E1).
    destruct (is_lead_surrogate hi && is_chr b "\" && is_chr u "u");
      [|intros [= _ <-]; exact E1].
    destruct (hex_digits 4 rest2 0) as [[lo rest3]|] eqn:E2; [|intros [= _ <-]; exact E1].
    apply hex_digits_shorter in E2.
    destruct (is_trail_surrogate lo); intros [= _ <-]; [|exact E1].
    cbn [length] in *. lia.
Qed.

Lemma parse_class_escape_shorter src a rest :
  parse_class_escape U src = Some (a, rest) -> (length rest < length src)%nat.
Proof.
  unfold parse_class_escape. destruct src as [|c src]; [discriminate|]. cbn [length].
  repeat match goal with
         | |- (if is_chr c ?a then Some (_, src) else _) = _ -> _ =>
             destruct (is_chr c a); [intros [= _ <-]; lia|]
         end.
  destruct (is_chr c "p" || is_chr c "P").
  { destruct src as [|d rest1]; [discriminate|].
    destruct (is_chr d "{"); [|discriminate].
    pose proof (property_run_shorter rest1) as Hr.
    destruct (property_run rest1) as [name rest2]. cbn [snd] in Hr.
    destruct rest2 as [|e rest3]; [discriminate|].
    destruct (unicode_property U name); [|discriminate].
    destruct (is_chr e "}"); [|discriminate].
    intros [= _ <-]. cbn [length] in *. lia. }
  repeat match goal with
         | |- (if is_chr c ?a then Some (_, src) else _) = _ -> _ =>
             destruct (is_chr c a); [intros [= _ <-]; lia|]
         end.
  destruct (is_chr c "c").
  { destruct src as [|l rest1]; [discriminate|].
    destruct (is_ascii_letter l); [|discriminate].
    intros [= _ <-]. cbn [length]. lia. }
  destruct (is_chr c "0").
  { destruct src as [|d rest1]; [intros [= _ <-]; cbn; lia|].
    destruct (is_decimal_digit d); [discriminate|intros [= _ <-]; lia]. }
  destruct (is_chr c "x").
  { destruct (hex_digits 2 src 0) as [[v rest1]|] eqn:E; [|discriminate].
    intros [= _ <-]. apply hex_digits_shorter in E. lia. }
  destruct (is_chr c "u").
  { destruct (parse_unicode_escape src) as [[v rest1]|] eqn:E; [|discriminate].
    intros [= _ <-]. apply parse_unicode_escape_shorter in E. lia. }
  destruct (is_syntax_char c || is_chr c "/"); [intros [= _ <-]; lia|discriminate].
Qed.

Lemma parse_class_atom_shorter src a rest :
  parse_class_atom U src = Some (a, rest) -> (length rest < length src)%nat.
Proof.
  unfold parse_class_atom. destruct src as [|c src]; [discriminate|]. cbn [length].
  destruct (is_chr c "\").
  - intros H%parse_class_escape_shorter. lia.
  - unfold parse_source_char. destruct src as [|d src]; [intros [= _ <-]; cbn; lia|].
    destruct (is_lead_surrogate c && is_trail_surrogate d); intros [= _ <-];
      cbn [length]; lia.
Qed.

(** The rounds of the class parser never run out. *)
Lemma parse_class_items_modelled fuel src acc :
  (length src <= fuel)%nat -> parse_class_items U fuel src acc <> Unmodelled.
Proof.
  revert src acc. induction fuel as [|fuel IH]; intros src acc Hlen;
    destruct src as [|c src]; cbn [parse_class_items]; try discriminate.
  - cbn [length] in Hlen. lia.
  - destruct (is_chr c "]"); [discriminate|].
    destruct (parse_class_atom U (c :: src)) as [[a rest1]|] eqn:Ea; [|discriminate].
    apply parse_class_atom_shorter in Ea.
    destruct (dash_then_atom rest1).
    + destruct (parse_class_atom U (tl rest1)) as [[b rest2]|] eqn:Eb; [|discriminate].
      apply parse_class_atom_shorter in Eb.
      destruct a as [lo|? ?], b as [hi|? ?]; try discriminate.
      destruct (lo <=? hi); [|discriminate]. apply IH.
      destruct rest1; cbn [tl length] in *; lia.
    + apply IH. lia.
Qed.

Lemma parse_class_items_shorter fuel src acc its rest :
  parse_class_items U fuel src acc = Returns (its, rest) ->
  (length rest < length src)%nat.
Proof.
  revert src acc. induction fuel as [|fuel IH]; intros src acc;
    destruct src as [|c src]; cbn [parse_class_items]; try discriminate.
  - destruct (is_chr c "]"); [|discriminate]. intros [= _ <-]. cbn [length]. lia.
  - destruct (is_chr c "]"); [intros [= _ <-]; cbn [length]; lia|].
    destruct (parse_class_atom U (c :: src)) as [[a rest1]|] eqn:Ea; [|discriminate].
    apply parse_class_atom_shorter in Ea.
    destruct (dash_then_atom rest1).
    + destruct (parse_class_atom U (tl rest1)) as [[b rest2]|] eqn:Eb; [|discriminate].
      apply parse_class_atom_shorter in Eb.
      destruct a as [lo|? ?], b as [hi|? ?]; try discriminate.
      destruct (lo <=? hi); [|discriminate]. intros H%IH.
      destruct rest1; cbn [tl length] in *; lia.
    + intros H%IH. lia.
Qed.

Lemma parse_class_items_throws fuel src acc e :
  parse_class_items U fuel src acc = Throws e -> e = SyntaxError.
Proof.
  revert src acc. induction fuel as [|fuel IH]; intros src acc;
    destruct src as [|c src]; cbn [parse_class_items]; try (now intros [= <-]).
  - destruct (is_chr c "]"); discriminate.
  - destruct (is_chr c "]"); [discriminate|].
    destruct (parse_class_atom U (c :: src)) as [[a rest1]|]; [|now intros [= <-]].
    destruct (dash_then_atom rest1); [|apply IH].
    destruct (parse_class_atom U (tl rest1)) as [[b rest2]|]; [|now intros [= <-]].
    destruct a as [lo|? ?], b as [hi|? ?]; try (now intros [= <-]).
    destruct (lo <=? hi); [apply IH|now intros [= <-]].
Qed.

Lemma parse_class_cases src :
  (exists cc rest, parse_class U src = Returns (cc, rest) /\
                   (length rest < length src)%nat) \/
  parse_class U src = Throws SyntaxError.
Proof.
  unfold parse_class.
  assert (G : forall neg body,
    (exists cc rest,
       ('(its, rest0) ← parse_class_items U (length body) body [];
        mret ({| negated := neg; items := its |}, rest0)) = Returns (cc, rest) /\
       (length rest < length body)%nat) \/
    ('(its, rest0) ← parse_class_items U (length body) body [];
     mret ({| negated := neg; items := its |}, rest0)) = Throws SyntaxError).
  { intros neg body.
    destruct (parse_class_items U (length body) body []) as [[its rest0]|e|] eqn:E; cbn.
    - left. apply parse_class_items_shorter in E. eauto.
    - right. apply parse_class_items_throws in E. now subst.
    - now apply parse_class_items_modelled in E. }
  destruct src as [|c src]; [apply G|].
  destruct (is_chr c "^"); [|apply G].
  destruct (G true src) as [(cc & rest & H & Hlen)|H]; [left|right; exact H].
  exists cc, rest. split; [exact H|]. cbn [length]. lia.
Qed.

Lemma lost_step c :
  is_syntax_char c = true ->
  is_chr c "^" = false -> is_chr c "$" = false -> is_chr c "\" = false ->
  is_chr c "[" = false -> is_chr c "]" || is_chr c "}" = false ->
  bracket_step Top c = Lost.
Proof.
  intros Hs H1 H2 H3 H4 H5. unfold is_syntax_char in Hs.
  apply existsb_exists in Hs as (x & Hin & Hx). apply N.eqb_eq in Hx. subst x.
  repeat (destruct Hin as [<- | Hin];
          [first [reflexivity | discriminate H1 | discriminate H2 | discriminate H3
                 | discriminate H4 | discriminate H5]|]).
  destruct Hin.
Qed.

(** Where the parser gives up, the reader is lost. *)
Lemma parse_terms_lost fuel src acc :
  (length src <= fuel)%nat ->
  parse_terms U fuel src acc = Unmodelled -> bracket_run Top src = Lost.
Proof.
  revert src acc. induction fuel as [|fuel IH]; intros src acc Hlen;
    destruct src as [|c src]; cbn [parse_terms]; try discriminate.
  { cbn [length] in Hlen. lia. }
  cbn [length] in Hlen. rewrite bracket_run_cons.
  destruct (is_chr c "^") eqn:E1.
  { unfold is_chr in E1. apply N.eqb_eq in E1. subst c. apply IH. lia. }
  destruct (is_chr c "$") eqn:E2.
  { unfold is_chr in E2. apply N.eqb_eq in E2. subst c. apply IH. lia. }
  destruct (is_chr c "\") eqn:E3.
  { pose proof E3 as E3'. unfold is_chr in E3'. apply N.eqb_eq in E3'. subst c.
    destruct src as [|e src]; [discriminate|].
    change (bracket_step Top (chr "\")) with TopEscape. rewrite bracket_run_cons.
    change (bracket_step TopEscape e)
      with (if is_syntax_char e || is_chr e "/" then Top else Lost).
    destruct (is_syntax_char e || is_chr e "/").
    - apply IH. cbn [length] in Hlen. lia.
    - intros _. apply bracket_run_lost. }
  destruct (is_chr c "[") eqn:E4.
  { pose proof E4 as E4'. unfold is_chr in E4'. apply N.eqb_eq in E4'. subst c.
    change (bracket_step Top (chr "[")) with InClass.
    destruct (parse_class_cases src) as [(cc & rest & Hc & Hrest)|Hc]; rewrite Hc; cbn;
      [|discriminate].
    apply parse_class_bracket in Hc. rewrite Hc. apply IH. lia. }
  destruct (is_chr c "]" || is_chr c "}") eqn:E5; [discriminate|].
  destruct (is_syntax_char c) eqn:E6.
  { intros _. rewrite (lost_step c E6 E1 E2 E3 E4 E5). apply bracket_run_lost. }
  rewrite (not_syntax_top c E6).
  unfold parse_source_char. destruct src as [|d src]; [apply IH; cbn; lia|].
  destruct (is_lead_surrogate c && is_trail_surrogate d) eqn:E7; [|apply IH; lia].
  apply andb_prop in E7 as [_ E7]. rewrite bracket_run_cons, (trail_top d E7).
  apply IH. cbn [length] in Hlen. lia.
Qed.

Lemma parse_terms_throws fuel src acc e :
  parse_terms U fuel src acc = Throws e -> e = SyntaxError.
Proof.
  revert src acc. induction fuel as [|fuel IH]; intros src acc;
    destruct src as [|c src]; cbn [parse_terms]; try discriminate.
  destruct (is_chr c "^"); [apply IH|].
  destruct (is_chr c "$"); [apply IH|].
  destruct (is_chr c "\").
  { destruct src as [|d src]; [now intros [= <-]|].
    destruct (is_syntax_char d || is_chr d "/"); [apply IH|discriminate]. }
  destruct (is_chr c "[").
  { destruct (parse_class_cases src) as [(cc & rest & Hc & _)|Hc]; rewrite Hc; cbn;
      [apply IH|now intros [= <-]]. }
  destruct (is_chr c "]" || is_chr c "}"); [now intros [= <-]|].
  destruct (is_syntax_char c); [discriminate|].
  destruct (parse_source_char c src). apply IH.
Qed.

(** The reader of a source the compiler wrote is never lost. *)
Lemma regex_source_followed template wholeWord :
  agrees (snd (scan template false []))
         (bracket_run Top (regex_source template wholeWord))
  \/ (snd (scan template false []) = true /\
      bracket_run Top (regex_source template wholeWord) = InClass).
Proof.
  unfold regex_source.
  pose proof (scan_agrees template false Top (or_introl eq_refl)) as Hs.
  destruct wholeWord.
  - rewrite !bracket_run_app. change (bracket_run Top (str "^")) with Top.
    unfold agrees in *. destruct (snd (scan template false [])).
    + right. split; [reflexivity|]. destruct Hs as [-> | ->]; reflexivity.
    + left. destruct Hs as [-> | ->]; [left|right]; reflexivity.
  - left. cbn [app]. now rewrite app_nil_r.
Qed.

(** [templateToRegex] returns a matcher or throws a [SyntaxError]: every
    source the compiler writes is within what [RegExp_u] models. *)
Lemma templateToRegex_modelled template wholeWord :
  templateToRegex U template wholeWord <> Unmodelled.
Proof.
  unfold templateToRegex, RegExp_u. intros H.
  destruct (parse_terms U _ _ []) as [ts|e|] eqn:E; cbn in H; try discriminate.
  apply parse_terms_lost in E; [|lia].
  destruct (regex_source_followed template wholeWord) as [Ha|[_ Ha]];
    [|rewrite Ha in E; discriminate].
  rewrite E in Ha. unfold agrees in Ha.
  destruct (snd (scan template false [])); destruct Ha; discriminate.
Qed.

Lemma templateToRegex_throws template wholeWord e :
  templateToRegex U template wholeWord = Throws e -> e = SyntaxError.
Proof.
  unfold templateToRegex, RegExp_u.
  destruct (parse_terms U _ _ []) as [ts|e'|] eqn:E; cbn; try discriminate.
  intros [= <-]. now apply parse_terms_throws in E.
Qed.

End CoverageFacts.

Section CompileFacts.
Variable U : UnicodeData.

(** A template whose last bracket class is left open is never compiled. *)
Lemma unterminated_never_compiles template wholeWord rx :
  snd (scan template false []) = true ->
  templateToRegex U template wholeWord <> Returns rx.
Proof.
  intros Hopen Hrx. unfold templateToRegex, RegExp_u in Hrx.
  destruct (parse_terms U _ _ []) as [ts| |] eqn:E; cbn in Hrx; try discriminate.
  apply parse_terms_bracket in E. unfold regex_source in E.
  pose proof (scan_agrees template false) as Hs. rewrite Hopen in Hs.
  destruct wholeWord.
  - rewrite !bracket_run_app in E.
    change (bracket_run Top (str "^")) with Top in E.
    destruct (Hs Top (or_introl eq_refl)) as [H | H]; rewrite H in E; discriminate.
  - cbn [app] in E. rewrite app_nil_r in E.
    destruct (Hs Top (or_introl eq_refl)) as [H | H]; rewrite H in E; discriminate.
Qed.

(** C1 (amended). The scan of [templateToRegex] copies an unterminated
    bracket class (an opening bracket outside a class with no closing
    bracket after it) into the pattern source as it is: the bracket and all
    the text after it, unescaped.  The compilation of such a template does
    not complete: [new RegExp] throws a [SyntaxError]. *)
Theorem unterminated_class_passed_through (before body : jsstring) (wholeWord : bool) :
  snd (scan before false []) = false -> ~ In (chr "]") body ->
  regex_source (before ++ chr "[" :: body) wholeWord
  = (if wholeWord then str "^" else [])
    ++ (fst (scan before false []) ++ chr "[" :: body)
    ++ (if wholeWord then str "$" else []) /\
  templateToRegex U (before ++ chr "[" :: body) wholeWord = Throws SyntaxError.
Proof.
  intros Hb Hbody. pose proof (scan_unterminated before body Hb Hbody) as Hscan.
  split.
  - unfold regex_source. now rewrite Hscan.
  - destruct (templateToRegex U (before ++ chr "[" :: body) wholeWord) as [rx|e|] eqn:E.
    + exfalso. revert E. apply unterminated_never_compiles. now rewrite Hscan.
    + apply templateToRegex_throws in E. now subst.
    + now apply templateToRegex_modelled in E.
Qed.

(** The orchestrator returns or throws: no run leaves what the model
    covers. *)
Lemma searchInWordlist_modelled batch_size wordlist pattern wholeWord onProgress lc :
  searchInWordlist U batch_size wordlist pattern wholeWord onProgress lc <> Unmodelled.
Proof.
  unfold searchInWordlist.
  destruct (templateToRegex U pattern wholeWord) as [rx|e|] eqn:E; cbn; try discriminate.
  - destruct (Nat.leb _ _); discriminate.
  - now apply templateToRegex_modelled in E.
Qed.

Lemma loadAndSearchWordlists_modelled fetch batch_size pattern opts onSourceStatus
    onProgress letterConstraints sourceKeys customWordlists :
  loadAndSearchWordlists U fetch batch_size pattern opts onSourceStatus onProgress
    letterConstraints sourceKeys customWordlists <> Unmodelled.
Proof.
  unfold loadAndSearchWordlists.
  assert (Hs : forall keys acc,
    process_sources U fetch batch_size pattern opts onSourceStatus onProgress
      letterConstraints acc keys <> Unmodelled).
  { induction keys as [|k keys IH]; intros acc; cbn [process_sources]; [discriminate|].
    unfold process_source.
    destruct (loadWordlist U fetch batch_size k None None opts) as [loaded|e|] eqn:El;
      cbn; [|apply IH|now apply loadWordlist_modelled in El].
    match goal with
    | |- context [searchInWordlist U batch_size loaded pattern ?w ?p ?l] =>
        destruct (searchInWordlist U batch_size loaded pattern w p l)
          as [[found events]|e|] eqn:Es
    end; cbn; [apply IH|apply IH|now apply searchInWordlist_modelled in Es]. }
  assert (Hc : forall customs acc,
    process_customs U batch_size pattern opts onProgress letterConstraints acc customs
    <> Unmodelled).
  { induction customs as [|c customs IH]; intros acc; cbn [process_customs];
      [discriminate|].
    unfold process_custom.
    destruct (searchInWordlist U batch_size (words c) pattern (opt_wholeWord opts) None
                letterConstraints) as [[found events]|e|] eqn:Es; cbn;
      [apply IH|discriminate|now apply searchInWordlist_modelled in Es]. }
  match goal with
  | |- context [process_sources U fetch batch_size pattern opts onSourceStatus onProgress
                  letterConstraints ?a sourceKeys] =>
      pose proof (Hs sourceKeys a) as H1;
      destruct (process_sources U fetch batch_size pattern opts onSourceStatus onProgress
                  letterConstraints a sourceKeys) as [acc1|e|]
  end; cbn; [|discriminate|contradiction].
  pose proof (Hc customWordlists acc1) as H2.
  destruct (process_customs U batch_size pattern opts onProgress letterConstraints acc1
              customWordlists) as [acc2|e|]; cbn; [|discriminate|contradiction].
  destruct (opt_unique opts); discriminate.
Qed.

End CompileFacts.

(** ** What the compilation of a template can give *)

Section OutcomeFacts.
Variable U : UnicodeData.

(** X4. Outside a class [templateToRegex] escapes every syntax character
    of the template, so that the pattern it hands to [new RegExp] holds
    assertions, literal characters and classes only: the compilation gives
    a matcher with the [u] flag, and then every class of the template is
    closed, or it throws a [SyntaxError]. *)
Theorem compile_outcomes (template : jsstring) (wholeWord : bool) :
  (exists rx, templateToRegex U template wholeWord = Returns rx /\
              unicode rx = true /\ snd (scan template false []) = false) \/
  templateToRegex U template wholeWord = Throws SyntaxError.
Proof.
  destruct (templateToRegex U template wholeWord) as [rx|e|] eqn:E.
  - left. exists rx. split; [reflexivity|]. split.
    + unfold templateToRegex, RegExp_u in E.
      destruct (parse_terms U _ _ []); cbn in E; try discriminate.
      now injection E as <-.
    + destruct (snd (scan template false [])) eqn:Es; [|reflexivity].
      exfalso. revert E. now apply unterminated_never_compiles.
  - right. apply templateToRegex_throws in E. now subst.
  - now apply templateToRegex_modelled in E.
Qed.

End OutcomeFacts.

(** ** Templates of literals, wildcards and classes *)

Section TemplateFacts.
Local Open Scope N_scope.
Variable U : UnicodeData.

Lemma chr_small (a : ascii) : chr a < 256.
Proof. apply N_ascii_bounded. Qed.

Lemma is_chr_big c (a : ascii) : 256 <= c -> is_chr c a = false.
Proof.
  intros H. unfold is_chr. apply N.eqb_neq. pose proof (chr_small a). lia.
Qed.

Lemma not_syntax_big c : 256 <= c -> is_syntax_char c = false.
Proof.
  intros H. unfold is_syntax_char. cbn. rewrite !orb_false_iff.
  repeat split; apply N.eqb_neq; lia.
Qed.

(** The UTF-16 form of a scalar value: itself, or a surrogate pair. *)
Lemma fromCodePoint_cases c :
  scalar_value c = true ->
  (fromCodePoint c = [c] /\ is_lead_surrogate c = false /\ is_trail_surrogate c = false) \/
  (exists hi lo, fromCodePoint c = [hi; lo] /\ 0x10000 <= c /\
     is_lead_surrogate hi = true /\ is_trail_surrogate lo = true /\
     surrogate_pair hi lo = c).
Proof.
  unfold scalar_value, fromCodePoint. intros H.
  destruct (N.ltb_spec c 0x10000) as [Hlt|Hge].
  - left. split; [reflexivity|].
    unfold is_lead_surrogate, is_trail_surrogate.
    apply orb_true_iff in H as [H|H].
    + apply N.ltb_lt in H. split; apply andb_false_iff; left; apply N.leb_gt; lia.
    + apply andb_prop in H as [H _]. apply N.leb_le in H.
      split; apply andb_false_iff; right; apply N.leb_gt; lia.
  - right. do 2 eexists. split; [reflexivity|]. split; [exact Hge|].
    assert (Hc : c <= 0x10FFFF).
    { apply orb_true_iff in H as [H|H]; [apply N.ltb_lt in H; lia|].
      apply andb_prop in H as [_ H]. now apply N.leb_le in H. }
    pose proof (N.div_mod (c - 0x10000) 0x400 ltac:(lia)) as Hd.
    pose proof (N.mod_lt (c - 0x10000) 0x400 ltac:(lia)) as Hm.
    assert (Hq : (c - 0x10000) / 0x400 < 0x400).
    { apply N.Div0.div_lt_upper_bound. lia. }
    unfold is_lead_surrogate, is_trail_surrogate, surrogate_pair.
    set (q := (c - 0x10000) / 0x400) in *.
    set (m := (c - 0x10000) mod 0x400) in *. clearbody q m.
    split; [apply andb_true_iff; split; apply N.leb_le; lia|].
    split; [apply andb_true_iff; split; apply N.leb_le; lia|]. lia.
Qed.

(** The first code unit of the UTF-16 form agrees with the character on
    every ASCII character. *)
Lemma fromCodePoint_head c rest :
  scalar_value c = true ->
  exists d rest', fromCodePoint c ++ rest = d :: rest' /\
    forall a : ascii, is_chr d a = is_chr c a.
Proof.
  intros H. destruct (fromCodePoint_cases c H) as [(-> & _)|(hi & lo & -> & Hc & Hhi & _)].
  - eexists _, _. split; [reflexivity|]. reflexivity.
  - eexists _, _. split; [reflexivity|]. intros a.
    unfold is_lead_surrogate in Hhi. apply andb_prop in Hhi as [Hhi _].
    apply N.leb_le in Hhi. rewrite !is_chr_big by lia. reflexivity.
Qed.

Lemma fromCodePoint_units c (a : ascii) :
  scalar_value c = true -> is_chr c a = false ->
  forall u, In u (fromCodePoint c) -> is_chr u a = false.
Proof.
  intros H Ha u Hu.
  destruct (fromCodePoint_cases c H) as [(E & _)|(hi & lo & E & _ & Hhi & Hlo & _)];
    rewrite E in Hu.
  - destruct Hu as [<-|[]]. exact Ha.
  - unfold is_lead_surrogate in Hhi. unfold is_trail_surrogate in Hlo.
    apply andb_prop in Hhi as [Hhi _]. apply andb_prop in Hlo as [Hlo _].
    apply N.leb_le in Hhi, Hlo.
    destruct Hu as [<-|[<-|[]]]; apply is_chr_big; lia.
Qed.

(** *** The scan *)

(** Outside a class, code units that are neither wildcards nor opening
    brackets are escaped one by one. *)
Lemma scan_literal t : forall out,
  forallb literal_unit t = true ->
  scan t false out = (out ++ flat_map escape t, false).
Proof.
  induction t as [|u t IH]; intros out H.
  - cbn. now rewrite app_nil_r.
  - cbn [forallb] in H. apply andb_prop in H as [Hu H].
    unfold literal_unit in Hu. apply andb_prop in Hu as [H1 H2].
    apply negb_true_iff in H1, H2.
    cbn [scan flat_map]. rewrite H2, H1. cbn [andb]. rewrite andb_false_r.
    rewrite IH by assumption. now rewrite <- app_assoc.
Qed.

Lemma plain_class_char_spec c :
  class_char c = true ->
  scalar_value c = true /\ is_chr c "\" = false /\ is_chr c "]" = false.
Proof. unfold class_char. rewrite !andb_true_iff, !negb_true_iff. tauto. Qed.

Lemma class_char_units c :
  class_char c = true -> ~ In (chr "]") (fromCodePoint c).
Proof.
  intros H Hin. apply plain_class_char_spec in H as (Hs & _ & Hb).
  pose proof (fromCodePoint_units c "]" Hs Hb _ Hin) as E. discriminate.
Qed.

(** The body of a class of plain members holds no closing bracket. *)
Lemma class_body_open (complemented : bool) ms :
  forallb plain_member ms = true ->
  ~ In (chr "]") ((if complemented then [chr "^"] else []) ++ flat_map render_member ms).
Proof.
  intros H Hin. apply in_app_or in Hin as [Hin|Hin].
  - destruct complemented; [|contradiction]. destruct Hin as [Hin|[]]. discriminate.
  - apply in_flat_map in Hin as (m & Hm & Hin). rewrite forallb_forall in H.
    apply H in Hm. destruct m as [c|lo hi]; cbn [plain_member render_member] in *.
    + now apply class_char_units in Hin.
    + apply andb_prop in Hm as [Hm _]. apply andb_prop in Hm as [Hlo Hhi].
      apply in_app_or in Hin as [Hin|Hin]; [now apply class_char_units in Hin|].
      apply in_app_or in Hin as [Hin|Hin]; [|now apply class_char_units in Hin].
      destruct Hin as [Hin|[]]. discriminate.
Qed.

Lemma plain_class_spec (complemented : bool) ms :
  plain_class complemented ms = true ->
  forallb plain_member ms = true /\ dashes_placed ms = true /\
  caret_placed complemented ms = true.
Proof. unfold plain_class. rewrite !andb_true_iff. tauto. Qed.

Lemma scan_items its out :
  forallb plain_item its = true ->
  scan (render its) false out = (out ++ flat_map emit_item its, false).
Proof.
  revert out. induction its as [|it its IH]; intros out H.
  - cbn. now rewrite app_nil_r.
  - cbn [forallb] in H. apply andb_prop in H as [Hit H].
    cbn [render flat_map]. fold (render its).
    rewrite scan_app.
    assert (E : scan (render_item it) false out = (out ++ emit_item it, false)).
    { destruct it as [c| |neg ms]; cbn [render_item emit_item].
      - cbn [plain_item] in Hit. unfold plain_literal in Hit.
        apply andb_prop in Hit as [Hs Hl]. apply scan_literal.
        apply forallb_forall. intros u Hu. unfold literal_unit in *.
        apply andb_prop in Hl as [H1 H2]. apply negb_true_iff in H1, H2.
        now rewrite (fromCodePoint_units c "?" Hs H1 u Hu),
                    (fromCodePoint_units c "[" Hs H2 u Hu).
      - reflexivity.
      - cbn [scan]. change (is_chr (chr "[") "[" && negb false) with true. cbn match.
        rewrite app_assoc, scan_app, scan_class_body.
        + cbn [fst snd scan]. change (is_chr (chr "]") "[") with false.
          change (is_chr (chr "]") "]") with true. cbn [andb negb].
          now rewrite <- !app_assoc.
        + cbn [plain_item] in Hit. apply plain_class_spec in Hit as (Hm & _).
          now apply class_body_open. }
    rewrite E. cbn [fst snd]. rewrite IH by assumption. now rewrite <- app_assoc.
Qed.

(** *** The pattern parser *)

Lemma not_syntax_chr (c : N) (a : ascii) :
  is_syntax_char c = false -> is_syntax_char (chr a) = true -> is_chr c a = false.
Proof.
  intros Hc Ha. unfold is_chr. destruct (N.eqb_spec c (chr a)); [|reflexivity].
  subst. congruence.
Qed.

Lemma parse_source_char_plain c rest :
  is_lead_surrogate c = false -> parse_source_char c rest = (c, rest).
Proof. intros H. unfold parse_source_char. destruct rest; [reflexivity|]. now rewrite H. Qed.

(** An escaped or plain code unit that is no lead surrogate is one
    character of the pattern. *)
Lemma parse_terms_unit fuel u src acc :
  is_lead_surrogate u = false ->
  parse_terms U (S fuel) (escape u ++ src) acc = parse_terms U fuel src (acc ++ [TChar u]).
Proof.
  intros Hu. unfold escape. destruct (is_syntax_char u) eqn:Es.
  - cbn [app parse_terms].
    change (is_chr (chr "\") "^") with false.
    change (is_chr (chr "\") "$") with false.
    change (is_chr (chr "\") "\") with true. cbn match.
    now rewrite Es.
  - cbn [app parse_terms].
    rewrite !not_syntax_chr by (assumption || reflexivity).
    cbn [orb]. rewrite Es. now rewrite parse_source_char_plain.
Qed.

(** A surrogate pair is one character of the pattern. *)
Lemma parse_terms_pair fuel hi lo src acc :
  is_lead_surrogate hi = true -> is_trail_surrogate lo = true ->
  parse_terms U (S fuel) (hi :: lo :: src) acc
  = parse_terms U fuel src (acc ++ [TChar (surrogate_pair hi lo)]).
Proof.
  intros Hhi Hlo.
  assert (Hb : 256 <= hi).
  { unfold is_lead_surrogate in Hhi. apply andb_prop in Hhi as [Hhi _].
    apply N.leb_le in Hhi. lia. }
  cbn [parse_terms]. rewrite !is_chr_big by exact Hb. cbn [orb].
  rewrite not_syntax_big by exact Hb. cbn [parse_source_char].
  now rewrite Hhi, Hlo.
Qed.

Lemma parse_terms_literal fuel c src acc :
  scalar_value c = true ->
  parse_terms U (S fuel) (flat_map escape (fromCodePoint c) ++ src) acc
  = parse_terms U fuel src (acc ++ [TChar c]).
Proof.
  intros H.
  destruct (fromCodePoint_cases c H) as [(-> & Hl & _)|(hi & lo & -> & _ & Hhi & Hlo & E)].
  - cbn [flat_map]. rewrite app_nil_r. now apply parse_terms_unit.
  - cbn [flat_map]. rewrite app_nil_r. unfold escape.
    rewrite (trail_not_syntax lo Hlo).
    assert (Hs : is_syntax_char hi = false).
    { apply not_syntax_big. unfold is_lead_surrogate in Hhi.
      apply andb_prop in Hhi as [Hhi _]. apply N.leb_le in Hhi. lia. }
    rewrite Hs. cbn [app]. rewrite parse_terms_pair by assumption. now rewrite E.
Qed.

Lemma parse_class_atom_char c rest :
  class_char c = true ->
  parse_class_atom U (fromCodePoint c ++ rest) = Some (AtomChar c, rest).
Proof.
  intros H. apply plain_class_char_spec in H as (Hs & Hb & _).
  destruct (fromCodePoint_cases c Hs) as [(-> & Hl & _)|(hi & lo & -> & _ & Hhi & Hlo & E)].
  - cbn [app parse_class_atom]. rewrite Hb. now rewrite parse_source_char_plain.
  - cbn [app parse_class_atom].
    rewrite is_chr_big.
    + cbn [parse_source_char]. now rewrite Hhi, Hlo, E.
    + unfold is_lead_surrogate in Hhi. apply andb_prop in Hhi as [Hhi _].
      apply N.leb_le in Hhi. lia.
Qed.

Lemma members_length ms : (length ms <= length (flat_map render_member ms))%nat.
Proof.
  induction ms as [|m ms IH]; [cbn; lia|].
  cbn [flat_map length]. rewrite length_app.
  assert (1 <= length (render_member m))%nat; [|lia].
  destruct m as [c|lo hi]; cbn [render_member]; rewrite ?length_app;
    unfold fromCodePoint; repeat destruct (_ <? _); cbn; lia.
Qed.

(** The text of a member begins with the first code unit of its first
    character. *)
Lemma member_head_unit m rest :
  plain_member m = true ->
  exists d rest', render_member m ++ rest = d :: rest' /\
    forall a : ascii, is_chr d a = is_chr (member_head m) a.
Proof.
  intros H. destruct m as [c|lo hi]; cbn [plain_member render_member member_head] in *.
  - apply plain_class_char_spec in H as (Hs & _). now apply fromCodePoint_head.
  - apply andb_prop in H as [H _]. apply andb_prop in H as [Hlo _].
    apply plain_class_char_spec in Hlo as (Hs & _). rewrite <- app_assoc.
    now apply fromCodePoint_head.
Qed.

(** After a single character of a class whose dashes are placed, no range
    begins. *)
Lemma no_range_after ms rest :
  forallb plain_member ms = true ->
  match ms with
  | m' :: _ => negb (is_chr (member_head m') "-") || closing_dash ms
  | [] => true
  end = true ->
  dash_then_atom (flat_map render_member ms ++ chr "]" :: rest) = false.
Proof.
  intros Hm H. destruct ms as [|m' ms'].
  - cbn [flat_map app dash_then_atom]. destruct rest; reflexivity.
  - cbn [forallb] in Hm. apply andb_prop in Hm as [Hm' _].
    apply orb_true_iff in H as [H|H].
    + apply negb_true_iff in H. cbn [flat_map]. rewrite <- app_assoc.
      destruct (member_head_unit m' (flat_map render_member ms' ++ chr "]" :: rest) Hm')
        as (d & rest' & -> & Hd).
      cbn [dash_then_atom]. destruct rest'; [reflexivity|]. now rewrite Hd, H.
    + unfold closing_dash in H. destruct m' as [c|]; [|discriminate].
      destruct ms'; [|discriminate]. cbn [plain_member] in Hm'.
      apply plain_class_char_spec in Hm' as (Hs & _).
      destruct (fromCodePoint_cases c Hs) as [(E & _)|(hi & lo & _ & Hc & _)].
      * cbn [flat_map render_member]. rewrite E. cbn [app dash_then_atom].
        change (is_chr (chr "]") "]") with true. now rewrite andb_false_r.
      * unfold is_chr in H. apply N.eqb_eq in H. subst c. cbn in Hc. lia.
Qed.

Lemma parse_class_items_members ms : forall fuel rest acc,
  forallb plain_member ms = true -> dashes_placed ms = true ->
  (length ms <= fuel)%nat ->
  parse_class_items U fuel (flat_map render_member ms ++ chr "]" :: rest) acc
  = Returns (acc ++ map item_of_member ms, rest).
Proof.
  induction ms as [|m ms IH]; intros fuel rest acc H Hd Hf.
  - cbn [flat_map app map]. rewrite app_nil_r. destruct fuel; reflexivity.
  - pose proof H as Hall. cbn [forallb] in H. apply andb_prop in H as [Hm H].
    cbn [dashes_placed] in Hd. apply andb_prop in Hd as [Hnext Hd].
    destruct fuel as [|fuel]; [cbn in Hf; lia|].
    assert (Hf' : (length ms <= fuel)%nat) by (cbn in Hf; lia).
    cbn [flat_map map]. rewrite <- app_assoc.
    destruct (member_head_unit m (flat_map render_member ms ++ chr "]" :: rest) Hm)
      as (d & rest' & Esrc & Hhead).
    assert (Hclose : is_chr d "]" = false).
    { rewrite Hhead. destruct m as [c|lo hi]; cbn [plain_member member_head] in *.
      - now apply plain_class_char_spec in Hm.
      - apply andb_prop in Hm as [Hm _]. apply andb_prop in Hm as [Hlo _].
        now apply plain_class_char_spec in Hlo. }
    assert (Estep : forall src, src = d :: rest' ->
              parse_class_items U (S fuel) src acc
              = match parse_class_atom U src with
                | None => Throws SyntaxError
                | Some (a, rest1) =>
                    if dash_then_atom rest1 then
                      match parse_class_atom U (tl rest1) with
                      | None => Throws SyntaxError
                      | Some (b, rest2) =>
                          match a, b with
                          | AtomChar lo, AtomChar hi =>
                              if lo <=? hi
                              then parse_class_items U fuel rest2 (acc ++ [ItemRange lo hi])
                              else Throws SyntaxError
                          | _, _ => Throws SyntaxError
                          end
                      end
                    else parse_class_items U fuel rest1 (acc ++ [item_of_atom a])
                end).
    { intros src ->. cbn [parse_class_items]. now rewrite Hclose. }
    rewrite (Estep _ Esrc). clear Estep Esrc.
    destruct m as [c|lo hi]; cbn [plain_member render_member item_of_member] in *.
    + rewrite parse_class_atom_char by exact Hm.
      rewrite no_range_after; [|exact H|].
      * cbn [item_of_atom]. rewrite IH by assumption. now rewrite <- app_assoc.
      * destruct ms; [reflexivity|exact Hnext].
    + apply andb_prop in Hm as [Hm Hle]. apply andb_prop in Hm as [Hlo Hhi].
      rewrite <- !app_assoc. rewrite parse_class_atom_char by exact Hlo.
      cbn [app].
      pose proof Hhi as Hhi'. apply plain_class_char_spec in Hhi' as (Hs & _ & Hb).
      destruct (fromCodePoint_head hi (flat_map render_member ms ++ chr "]" :: rest) Hs)
        as (e & rest'' & Ehi & He).
      assert (Edash : dash_then_atom
                        (chr "-" :: fromCodePoint hi
                                    ++ flat_map render_member ms ++ chr "]" :: rest)
                      = true).
      { rewrite Ehi. cbn [dash_then_atom]. rewrite He, Hb. reflexivity. }
      rewrite Edash. cbn [tl]. rewrite parse_class_atom_char by exact Hhi.
      rewrite Hle. rewrite IH by assumption. now rewrite <- app_assoc.
Qed.

Lemma parse_class_members (complemented : bool) ms rest :
  plain_class complemented ms = true ->
  parse_class U ((if complemented then [chr "^"] else [])
                 ++ flat_map render_member ms ++ chr "]" :: rest)
  = Returns ({| negated := complemented; items := map item_of_member ms |}, rest).
Proof.
  intros H. apply plain_class_spec in H as (Hm & Hd & Hc).
  unfold parse_class. destruct complemented; cbn [app].
  - change (is_chr (chr "^") "^") with true. cbn match.
    rewrite (parse_class_items_members ms _ rest []) by
      (assumption || (rewrite length_app; pose proof (members_length ms); cbn; lia)).
    reflexivity.
  - assert (E : match flat_map render_member ms ++ chr "]" :: rest with
                | c :: rest0 =>
                    if is_chr c "^" then (true, rest0)
                    else (false, flat_map render_member ms ++ chr "]" :: rest)
                | [] => (false, flat_map render_member ms ++ chr "]" :: rest)
                end = (false, flat_map render_member ms ++ chr "]" :: rest)).
    { destruct ms as [|m ms]; [reflexivity|].
      cbn [forallb] in Hm. apply andb_prop in Hm as [Hm _].
      cbn [caret_placed orb] in Hc. apply negb_true_iff in Hc.
      cbn [flat_map]. rewrite <- app_assoc.
      destruct (member_head_unit m (flat_map render_member ms ++ chr "]" :: rest) Hm)
        as (d & rest' & E & Hhead).
      rewrite E at 1. now rewrite Hhead, Hc. }
    rewrite E.
    rewrite (parse_class_items_members ms _ rest []) by
      (assumption || (rewrite length_app; pose proof (members_length ms); cbn; lia)).
    reflexivity.
Qed.

Lemma parse_class_hebrew rest :
  parse_class U (tl HEBREW_LETTERS_CLASS ++ rest)
  = Returns ({| negated := false; items := [ItemRange 0x590 0x5FF] |}, rest).
Proof. destruct rest; reflexivity. Qed.

(** The pattern parser reads what the scan wrote for the items as their
    terms. *)
Lemma parse_terms_items its : forall fuel tail acc,
  forallb plain_item its = true ->
  parse_terms U (length its + fuel) (flat_map emit_item its ++ tail) acc
  = parse_terms U fuel tail (acc ++ map term_of its).
Proof.
  induction its as [|it its IH]; intros fuel tail acc H.
  - cbn. now rewrite app_nil_r.
  - cbn [forallb] in H. apply andb_prop in H as [Hit H].
    cbn [flat_map length Nat.add map]. rewrite <- app_assoc.
    assert (E : forall src, parse_terms U (S (length its + fuel)) (emit_item it ++ src) acc
                = parse_terms U (length its + fuel) src (acc ++ [term_of it])).
    { intros src. destruct it as [c| |neg ms]; cbn [emit_item term_of].
      - cbn [plain_item] in Hit. unfold plain_literal in Hit.
        apply andb_prop in Hit as [Hs _]. now apply parse_terms_literal.
      - change HEBREW_LETTERS_CLASS with (chr "[" :: tl HEBREW_LETTERS_CLASS).
        cbn [app parse_terms].
        change (is_chr (chr "[") "^") with false.
        change (is_chr (chr "[") "$") with false.
        change (is_chr (chr "[") "\") with false.
        change (is_chr (chr "[") "[") with true. cbn match.
        change (0x5c :: 0x75 :: 0x30 :: 0x35 :: 0x39 :: 0x30 :: 0x2d :: 0x5c :: 0x75
                     :: 0x30 :: 0x35 :: 0x46 :: 0x46 :: 0x5d :: src)
          with (tl HEBREW_LETTERS_CLASS ++ src).
        rewrite parse_class_hebrew. reflexivity.
      - cbn [render_item app parse_terms].
        change (is_chr (chr "[") "^") with false.
        change (is_chr (chr "[") "$") with false.
        change (is_chr (chr "[") "\") with false.
        change (is_chr (chr "[") "[") with true. cbn match.
        rewrite <- !app_assoc. cbn [app].
        rewrite parse_class_members by exact Hit. reflexivity. }
    rewrite E, IH by assumption. now rewrite <- app_assoc.
Qed.

Lemma emit_length its : (length its <= length (flat_map emit_item its))%nat.
Proof.
  induction its as [|it its IH]; [cbn; lia|].
  cbn [flat_map length]. rewrite length_app.
  assert (1 <= length (emit_item it))%nat; [|lia].
  destruct it as [c| |neg ms]; cbn [emit_item render_item length]; [|cbn; lia|lia].
  unfold fromCodePoint. destruct (c <? 0x10000); cbn [flat_map]; rewrite length_app;
    unfold escape; destruct (is_syntax_char _); cbn; lia.
Qed.

Lemma parse_terms_items_fuel its n tail acc :
  forallb plain_item its = true -> (length its <= n)%nat ->
  parse_terms U n (flat_map emit_item its ++ tail) acc
  = parse_terms U (n - length its) tail (acc ++ map term_of its).
Proof.
  intros H Hn. replace n with (length its + (n - length its))%nat at 1 by lia.
  now apply parse_terms_items.
Qed.

(** The compiled pattern of a template of plain items. *)
Lemma templateToRegex_items its wholeWord :
  forallb plain_item its = true ->
  templateToRegex U (render its) wholeWord
  = Returns {| terms := (if wholeWord then [AssertStart] else [])
                        ++ map term_of its
                        ++ (if wholeWord then [AssertEnd] else []);
               unicode := true |}.
Proof.
  intros H. unfold templateToRegex, RegExp_u, regex_source.
  rewrite scan_items by assumption. cbn [fst app].
  pose proof (emit_length its) as Hl.
  destruct wholeWord.
  - change (str "^") with [chr "^"]. change (str "$") with [chr "$"].
    cbn [app length parse_terms].
    change (is_chr (chr "^") "^") with true. cbn match.
    rewrite parse_terms_items_fuel by (assumption || (rewrite length_app; lia)).
    rewrite length_app. cbn [length].
    replace (length (flat_map emit_item its) + 1 - length its)%nat
      with (S (length (flat_map emit_item its) - length its)) by lia.
    cbn [parse_terms]. change (is_chr (chr "$") "^") with false.
    change (is_chr (chr "$") "$") with true. cbn match.
    destruct (length (flat_map emit_item its) - length its)%nat;
      cbn [parse_terms]; now rewrite <- app_assoc.
  - rewrite !app_nil_r. cbn [app].
    rewrite <- (app_nil_r (flat_map emit_item its)) at 2.
    rewrite parse_terms_items_fuel by assumption.
    destruct (length (flat_map emit_item its) - length its)%nat; reflexivity.
Qed.

(** *** The matcher *)

Lemma term_of_matches it c :
  match term_of it with
  | TChar x => c =? x
  | TClass cc => class_matches U cc c
  | _ => false
  end = item_accepts it c.
Proof.
  destruct it as [x| |neg ms]; cbn [term_of item_accepts]; [reflexivity| |].
  - unfold class_matches. cbn. now rewrite orb_false_r.
  - unfold class_matches. cbn [negated items]. f_equal.
    induction ms as [|m ms IH]; [reflexivity|]. cbn [map existsb]. rewrite IH.
    now destruct m.
Qed.

Lemma match_here_items its : forall at_start cps,
  match_here U (map term_of its ++ [AssertEnd]) at_start cps = faces its cps.
Proof.
  induction its as [|it its IH]; intros at_start cps.
  - destruct cps; reflexivity.
  - cbn [map app faces]. pose proof (term_of_matches it) as Hm.
    destruct (term_of it) eqn:E; try (destruct it; discriminate);
      cbn [match_here]; destruct cps as [|d cps]; try reflexivity;
      now rewrite Hm, IH.
Qed.

Lemma match_here_window its : forall at_start cps,
  match_here U (map term_of its) at_start cps = true <->
  exists mid after, cps = mid ++ after /\ faces its mid = true.
Proof.
  induction its as [|it its IH]; intros at_start cps.
  - cbn. split; [intros _; exists [], cps; auto|auto].
  - cbn [map]. pose proof (term_of_matches it) as Hm. split.
    + intros H.
      assert (Hc : exists c rest, cps = c :: rest /\ item_accepts it c = true
                                  /\ match_here U (map term_of its) false rest = true).
      { destruct (term_of it) eqn:E; try (destruct it; discriminate);
          cbn [match_here] in H; destruct cps as [|d cps]; try discriminate;
          apply andb_prop in H as [H1 H2]; rewrite Hm in H1; eauto. }
      destruct Hc as (c & rest & -> & Hc & Hr).
      apply IH in Hr as (mid & after & -> & Hf).
      exists (c :: mid), after. split; [reflexivity|]. cbn [faces]. now rewrite Hc.
    + intros (mid & after & -> & Hf).
      destruct mid as [|d mid]; [discriminate|]. cbn [faces] in Hf.
      apply andb_prop in Hf as [Hc Hf].
      assert (Hr : match_here U (map term_of its) false (mid ++ after) = true)
        by (apply IH; eauto).
      destruct (term_of it) eqn:E; try (destruct it; discriminate);
        cbn [match_here app]; rewrite Hm, Hc, Hr; reflexivity.
Qed.

Lemma match_from_window its : forall at_start cps,
  match_from U (map term_of its) at_start cps = true <->
  exists before mid after, cps = before ++ mid ++ after /\ faces its mid = true.
Proof.
  intros at_start cps. revert at_start.
  induction cps as [|c cps IH]; intros at_start.
  - cbn [match_from]. rewrite orb_false_r, match_here_window. split.
    + intros (mid & after & E & H). exists [], mid, after. split; assumption.
    + intros (before & mid & after & E & H).
      destruct before; [|discriminate]. exists mid, after. split; assumption.
  - cbn [match_from]. rewrite orb_true_iff, match_here_window, IH. split.
    + intros [(mid & after & E & H) | (before & mid & after & E & H)].
      * exists [], mid, after. split; assumption.
      * exists (c :: before), mid, after. split; [now rewrite E|assumption].
    + intros (before & mid & after & E & H).
      destruct before as [|b before].
      * left. exists mid, after. split; assumption.
      * right. injection E as -> E. exists before, mid, after. split; assumption.
Qed.

(** X1. A template of literal characters, wildcards and classes always
    compiles, and with [wholeWord] set the matcher accepts a word exactly
    when the word's code points face the items of the template one to one:
    a literal its own character, [?] a character of the Hebrew block, a
    class one of its members (a negated class any other code point).  The
    characters are Unicode scalar values, astral ones included; a literal
    is any character but [?] and the opening bracket; a class lists
    characters and ranges of any characters but the backslash and the
    closing bracket, where a dash that follows a single character is the
    last member of the class, and a class that is not negated does not
    begin with a caret. *)
Theorem whole_word_template (its : list template_item) :
  forallb plain_item its = true ->
  exists rx, templateToRegex U (render its) true = Returns rx /\
    forall w, test U rx w = faces its (toCodePoints w).
Proof.
  intros H. eexists. split; [now apply templateToRegex_items|].
  intros w. unfold test. cbn [terms unicode app].
  rewrite match_from_anchored. apply match_here_items.
Qed.

(** X2. Without [wholeWord] the matcher of such a template accepts a word
    exactly when some run of consecutive code points of the word faces the
    items of the template. *)
Theorem substring_template (its : list template_item) :
  forallb plain_item its = true ->
  exists rx, templateToRegex U (render its) false = Returns rx /\
    forall w, test U rx w = true <->
      exists before mid after,
        toCodePoints w = before ++ mid ++ after /\ faces its mid = true.
Proof.
  intros H. eexists. split; [now apply templateToRegex_items|].
  intros w. unfold test. cbn [terms unicode app]. rewrite app_nil_r.
  apply match_from_window.
Qed.

(** *** Templates without wildcard and class *)

(** The pattern parser reads escaped code units as the code points of the
    text, a lead surrogate with the trail surrogate after it as one. *)
Lemma parse_terms_units t : forall fuel tail acc,
  (length t <= fuel)%nat ->
  match tail with d :: _ => is_trail_surrogate d = false | [] => True end ->
  exists fuel', (fuel - length t <= fuel')%nat /\
    parse_terms U fuel (flat_map escape t ++ tail) acc
    = parse_terms U fuel' tail (acc ++ map TChar (toCodePoints t)).
Proof.
  induction t as [|u|u v r IHr IHvr] using list_pair_ind; intros fuel tail acc Hf Htail.
  - exists fuel. split; [lia|]. cbn. now rewrite app_nil_r.
  - destruct fuel as [|fuel]; [cbn in Hf; lia|].
    exists fuel. split; [cbn; lia|]. cbn [flat_map toCodePoints map]. rewrite app_nil_r.
    unfold escape. destruct (is_syntax_char u) eqn:Es.
    + cbn [app parse_terms].
      change (is_chr (chr "\") "^") with false.
      change (is_chr (chr "\") "$") with false.
      change (is_chr (chr "\") "\") with true. cbn match.
      now rewrite Es.
    + cbn [app parse_terms].
      rewrite !not_syntax_chr by (assumption || reflexivity).
      cbn [orb]. rewrite Es. unfold parse_source_char.
      destruct tail as [|d tail]; [reflexivity|]. rewrite Htail.
      now rewrite andb_false_r.
  - destruct fuel as [|fuel]; [cbn in Hf; lia|].
    rewrite toCodePoints_cons2.
    destruct (is_lead_surrogate u && is_trail_surrogate v) eqn:Epair.
    + apply andb_prop in Epair as [Hu Hv].
      destruct (IHr fuel tail (acc ++ [TChar (surrogate_pair u v)])) as (fuel' & Hf' & E);
        [cbn in Hf; lia|exact Htail|].
      exists fuel'. split; [cbn [length]; lia|].
      cbn [flat_map]. unfold escape at 1 2.
      rewrite (trail_not_syntax v Hv).
      assert (Hs : is_syntax_char u = false).
      { apply not_syntax_big. unfold is_lead_surrogate in Hu.
        apply andb_prop in Hu as [Hu _]. apply N.leb_le in Hu. lia. }
      rewrite Hs. cbn [app]. rewrite parse_terms_pair by assumption.
      rewrite E. cbn [map]. now rewrite <- app_assoc.
    + destruct (IHvr fuel tail (acc ++ [TChar u])) as (fuel' & Hf' & E);
        [cbn in Hf; cbn; lia|exact Htail|].
      exists fuel'. split; [cbn [length] in *; lia|].
      cbn [map]. rewrite <- app_assoc in E. cbn [app] in E. rewrite <- E.
      change (flat_map escape (u :: v :: r)) with (escape u ++ flat_map escape (v :: r)).
      rewrite <- app_assoc.
      unfold escape at 1. destruct (is_syntax_char u) eqn:Es.
      * cbn [app parse_terms].
        change (is_chr (chr "\") "^") with false.
        change (is_chr (chr "\") "$") with false.
        change (is_chr (chr "\") "\") with true. cbn match.
        now rewrite Es.
      * cbn [app parse_terms].
        rewrite !not_syntax_chr by (assumption || reflexivity).
        cbn [orb]. rewrite Es.
        assert (Eh : exists h rest', flat_map escape (v :: r) ++ tail = h :: rest' /\
                       is_lead_surrogate u && is_trail_surrogate h = false).
        { cbn [flat_map]. unfold escape at 1. destruct (is_syntax_char v) eqn:Ev.
          - eexists _, _. split; [reflexivity|]. now rewrite andb_false_r.
          - eexists _, _. split; [reflexivity|]. exact Epair. }
        destruct Eh as (h & rest' & Eh & Hh). rewrite Eh.
        cbn [parse_source_char]. now rewrite Hh.
Qed.

Lemma templateToRegex_literal t :
  forallb literal_unit t = true ->
  templateToRegex U t true
  = Returns {| terms := AssertStart :: map term_of (map Literal (toCodePoints t))
                        ++ [AssertEnd];
               unicode := true |}.
Proof.
  intros H. unfold templateToRegex, RegExp_u, regex_source.
  rewrite scan_literal by assumption. cbn [fst app].
  change (str "^") with [chr "^"]. change (str "$") with [chr "$"].
  cbn [app length parse_terms].
  change (is_chr (chr "^") "^") with true. cbn match.
  assert (Hl : (length t <= length (flat_map escape t))%nat).
  { clear. induction t as [|u t IH]; [cbn; lia|]. cbn [flat_map length].
    rewrite length_app. unfold escape at 1. destruct (is_syntax_char u); cbn [length]; lia. }
  destruct (parse_terms_units t (length (flat_map escape t ++ [chr "$"])) [chr "$"]
              [AssertStart]) as (fuel' & Hf & E);
    [rewrite length_app; cbn; lia|reflexivity|].
  rewrite E. rewrite length_app in Hf. cbn [length] in Hf.
  destruct fuel' as [|fuel']; [lia|].
  cbn [parse_terms]. change (is_chr (chr "$") "^") with false.
  change (is_chr (chr "$") "$") with true. cbn match.
  rewrite map_map. cbn [term_of].
  destruct fuel'; cbn [parse_terms]; now rewrite <- app_assoc.
Qed.

Lemma faces_literals t cps :
  faces (map Literal t) cps = true <-> cps = t.
Proof.
  revert cps. induction t as [|c t IH]; intros cps.
  - destruct cps; cbn; split; congruence.
  - destruct cps as [|d cps]; cbn [map faces]; [split; discriminate|].
    cbn [item_accepts]. rewrite andb_true_iff, N.eqb_eq, IH. split.
    + now intros [-> ->].
    + intros E. injection E as -> ->. auto.
Qed.

(** X3. A template without [?] and without an opening bracket is taken
    literally, whatever regular-expression characters it holds: it
    compiles, and with [wholeWord] set the matcher accepts exactly the
    words that have the code points of the template; strings being
    sequences of 16-bit code units, these are the template itself and no
    other word. *)
Theorem literal_template_exact (t : jsstring) :
  forallb literal_unit t = true ->
  exists rx, templateToRegex U t true = Returns rx /\
    (forall w, test U rx w = true <-> toCodePoints w = toCodePoints t) /\
    (well_formed t -> forall w, well_formed w -> (test U rx w = true <-> w = t)).
Proof.
  intros H. eexists. split; [now apply templateToRegex_literal|].
  assert (G : forall w,
             test U {| terms := AssertStart :: map term_of (map Literal (toCodePoints t))
                                ++ [AssertEnd];
                       unicode := true |} w = true
             <-> toCodePoints w = toCodePoints t).
  { intros w. unfold test. cbn [terms unicode].
    now rewrite match_from_anchored, match_here_items, faces_literals. }
  split; [exact G|].
  intros Ht w Hw. rewrite G. split; [|now intros ->].
  intros E. rewrite <- (fromCodePoints_toCodePoints w Hw), E.
  now apply fromCodePoints_toCodePoints.
Qed.

End TemplateFacts.

(** ** Progress calls of the scan *)

Section ProgressFacts.

Lemma ceil_div_step a b : (0 < a -> 0 < b -> ceil_div a b = S (ceil_div (a - b) b))%nat.
Proof.
  intros Ha Hb. unfold ceil_div.
  replace (a + b - 1)%nat with ((a - 1) + 1 * b)%nat by lia.
  rewrite Nat.div_add by lia.
  destruct (le_lt_dec b a) as [Hba|Hba].
  - replace (a - b + b - 1)%nat with (a - 1)%nat by lia. lia.
  - replace (a - b + b - 1)%nat with (b - 1)%nat by lia.
    rewrite !Nat.div_small by lia. reflexivity.
Qed.

Lemma ceil_div_0 b : (0 < b)%nat -> ceil_div 0 b = 0%nat.
Proof. intros Hb. unfold ceil_div. apply Nat.div_small. lia. Qed.

(** From index [i] on, the loop calls [onProgress] once per batch, with the
    number of the batch. *)
Lemma search_batches_events batch_size keep f wordlist totalBatches i found events :
  snd (search_batches batch_size keep (Some f) wordlist totalBatches i found events)
  = events ++ flat_map (fun currentBatch => f currentBatch totalBatches)
                (seq (i / Pos.to_nat batch_size + 1)
                     (ceil_div (length wordlist - i) (Pos.to_nat batch_size))).
Proof.
  funelim (search_batches batch_size keep (Some f) wordlist totalBatches i found events).
  - rewrite H, <- app_assoc. f_equal.
    match goal with
    | |- context [ceil_div (length ?w - i) _] =>
        rewrite (ceil_div_step (length w - i) (Pos.to_nat batch_size)) by lia;
        replace (length w - (i + Pos.to_nat batch_size))%nat
          with (length w - i - Pos.to_nat batch_size)%nat by lia
    end.
    cbn [seq flat_map]. f_equal.
    replace (i + Pos.to_nat batch_size)%nat with (i + 1 * Pos.to_nat batch_size)%nat by lia.
    rewrite Nat.div_add by lia.
    replace (i / Pos.to_nat batch_size + 1 + 1)%nat
      with (S (i / Pos.to_nat batch_size + 1)) by lia.
    reflexivity.
  - cbn [snd].
    match goal with
    | |- context [ceil_div (length ?w - i) _] =>
        replace (length w - i)%nat with 0%nat by lia
    end.
    rewrite ceil_div_0 by lia. cbn. now rewrite app_nil_r.
Qed.

Variable U : UnicodeData.

Lemma searchInWordlist_events batch_size wordlist pattern wholeWord f lc :
  snd <$> searchInWordlist U batch_size wordlist pattern wholeWord (Some f) lc
  = (rx ← templateToRegex U pattern wholeWord;
     mret (if Nat.leb (length wordlist) (Pos.to_nat batch_size) then []
           else let totalBatches := ceil_div (length wordlist) (Pos.to_nat batch_size) in
                flat_map (fun currentBatch => f currentBatch totalBatches)
                         (seq 1 totalBatches))).
Proof.
  unfold searchInWordlist.
  destruct (templateToRegex U pattern wholeWord) as [rx|e|]; try reflexivity.
  cbn. destruct (Nat.leb _ _); cbn; [reflexivity|].
  rewrite search_batches_events. cbn [app]. rewrite Nat.sub_0_r.
  rewrite Nat.Div0.div_0_l. reflexivity.
Qed.

(** X5. When the template compiles, [searchInWordlist] calls [onProgress]
    once per batch for a word list longer than the batch size, with the
    batch numbers 1, 2, ... up to [totalBatches] in order, [totalBatches]
    being the least number of batches that hold the list; for a list that
    fits in one batch it never calls it. *)
Theorem progress_once_per_batch (batch_size : positive) (wordlist : list jsstring)
    (pattern : jsstring) (wholeWord : bool) (f : nat -> nat -> list event)
    (letterConstraints : option LetterConstraints) :
  let B := Pos.to_nat batch_size in
  let totalBatches := ceil_div (length wordlist) B in
  snd <$> searchInWordlist U batch_size wordlist pattern wholeWord (Some f)
            letterConstraints
  = (rx ← templateToRegex U pattern wholeWord;
     mret (if Nat.leb (length wordlist) B then []
           else flat_map (fun currentBatch => f currentBatch totalBatches)
                         (seq 1 totalBatches))) /\
  (length wordlist <= B * totalBatches)%nat /\
  (B * totalBatches < length wordlist + B)%nat.
Proof.
  intros B totalBatches. split; [apply searchInWordlist_events|].
  assert (HB : (0 < B)%nat) by (unfold B; lia).
  unfold totalBatches, ceil_div.
  pose proof (Nat.div_mod_eq (length wordlist + B - 1) B) as Hd.
  pose proof (Nat.mod_upper_bound (length wordlist + B - 1) B ltac:(lia)) as Hm.
  split; nia.
Qed.

End ProgressFacts.

(** ** What a run reports *)

Section ReportFacts.
Variable U : UnicodeData.
Variable fetch : jsstring -> fetch_result.
Variable batch_size : positive.
Variable pattern : jsstring.
Variable opts : Options.
Variable onSourceStatus onProgress : bool.
Variable letterConstraints : option LetterConstraints.

Local Abbreviation load'' := (load U fetch batch_size opts).
Local Abbreviation loaded_count'' := (loaded_count U fetch batch_size opts).
Local Abbreviation process_source'' :=
  (process_source U fetch batch_size pattern opts onSourceStatus onProgress letterConstraints).
Local Abbreviation process_sources'' :=
  (process_sources U fetch batch_size pattern opts onSourceStatus onProgress letterConstraints).
Local Abbreviation process_customs'' :=
  (process_customs U batch_size pattern opts onProgress letterConstraints).
Local Abbreviation search'' wordlist progressCallback :=
  (searchInWordlist U batch_size wordlist pattern (opt_wholeWord opts) progressCallback
     letterConstraints).
Local Abbreviation run'' :=
  (loadAndSearchWordlists U fetch batch_size pattern opts onSourceStatus onProgress
     letterConstraints).
Local Abbreviation compiled := (templateToRegex U pattern (opt_wholeWord opts)).

Lemma source_statuses_app events1 events2 :
  source_statuses (events1 ++ events2) = source_statuses events1 ++ source_statuses events2.
Proof. apply List.filter_app. Qed.

Lemma source_statuses_progress m : source_statuses (progress onProgress m) = [].
Proof. unfold progress. now destruct onProgress. Qed.

(** The scan makes progress calls only. *)
Lemma search_statuses wordlist (message : nat -> nat -> progress_message) found events :
  search'' wordlist
    (Some (fun currentBatch totalBatches =>
             progress onProgress (message currentBatch totalBatches)))
  = Returns (found, events) ->
  source_statuses events = [].
Proof.
  intros H.
  pose proof (searchInWordlist_events U batch_size wordlist pattern (opt_wholeWord opts)
                (fun currentBatch totalBatches =>
                   progress onProgress (message currentBatch totalBatches))
                letterConstraints) as He.
  rewrite H in He. cbn in He. destruct compiled; cbn in He; try discriminate.
  injection He as ->. destruct (Nat.leb _ _); [reflexivity|].
  cbv zeta. generalize (seq 1 (ceil_div (length wordlist) (Pos.to_nat batch_size))).
  intros l. induction l as [|k l IH]; [reflexivity|].
  cbn [flat_map]. now rewrite source_statuses_app, source_statuses_progress, IH.
Qed.

Lemma process_source_statuses acc sourceKey acc' :
  process_source'' acc sourceKey = Returns acc' ->
  source_statuses (trace acc')
  = source_statuses (trace acc)
    ++ (if onSourceStatus then
          match load'' sourceKey, compiled with
          | Returns loaded, Returns _ => [SourceStatus sourceKey success (length loaded) None]
          | Returns _, Throws e | Throws e, _ => [SourceStatus sourceKey error 0 (Some e)]
          | _, _ => []
          end
        else []).
Proof.
  unfold process_source. fold (load'' sourceKey).
  destruct (load'' sourceKey) as [loaded|e|]; [| |discriminate].
  - destruct (search'' loaded _) as [[found events]|e|] eqn:Es; [| |discriminate];
      intros [= <-]; cbn [trace]; rewrite !source_statuses_app, !source_statuses_progress.
    + rewrite (search_statuses _ _ _ _ Es), !app_nil_r.
      unfold searchInWordlist in Es. destruct compiled; try discriminate.
      unfold source_status_event. destruct onSourceStatus; reflexivity.
    + apply search_throws in Es. rewrite Es, !app_nil_r.
      unfold catch_source, source_status_event. destruct onSourceStatus; reflexivity.
  - intros [= <-]; cbn [trace]. rewrite !source_statuses_app, !source_statuses_progress.
    rewrite !app_nil_r.
    unfold catch_source, source_status_event. destruct onSourceStatus; reflexivity.
Qed.

Lemma report_of_key sourceKey :
  exists entry,
    match load'' sourceKey, compiled with
    | Returns loaded, Returns _ => [SourceStatus sourceKey success (length loaded) None]
    | Returns _, Throws e | Throws e, _ => [SourceStatus sourceKey error 0 (Some e)]
    | _, _ => []
    end = [status_call sourceKey entry] /\
    reported U fetch batch_size pattern opts sourceKey entry.
Proof.
  unfold reported. destruct (load'' sourceKey) as [loaded|e|] eqn:El.
  - destruct compiled as [rx|e|] eqn:Ec.
    + eexists {| entry_status := success |}. split; [reflexivity|]. left. eauto.
    + eexists {| entry_status := error |}. split; [reflexivity|]. right. right. eauto.
    + now apply templateToRegex_modelled in Ec.
  - eexists {| entry_status := error |}. split; [reflexivity|]. right. left. eauto.
  - now apply loadWordlist_modelled in El.
Qed.

Lemma process_sources_statuses sourceKeys acc acc' :
  process_sources'' acc sourceKeys = Returns acc' ->
  exists added,
    source_statuses (trace acc') = source_statuses (trace acc) ++ added /\
    if onSourceStatus
    then Forall2 (fun sourceKey ev =>
                    exists entry, ev = status_call sourceKey entry /\
                                  reported U fetch batch_size pattern opts sourceKey entry)
                 sourceKeys added
    else added = [].
Proof.
  revert acc. induction sourceKeys as [|k keys IH]; intros acc; cbn [process_sources].
  - intros [= <-]. exists []. rewrite app_nil_r. split; [reflexivity|].
    destruct onSourceStatus; [constructor|reflexivity].
  - destruct (process_source'' acc k) as [acc1|e|] eqn:E1; cbn; try discriminate.
    intros H. apply IH in H as (added & Ht & Hadded).
    apply process_source_statuses in E1. rewrite E1 in Ht.
    destruct (report_of_key k) as (entry & Hentry & Hrep). rewrite Hentry in Ht.
    destruct onSourceStatus.
    + exists (status_call k entry :: added). split; [now rewrite Ht, <- app_assoc|].
      constructor; eauto.
    + exists []. subst added. rewrite Ht, !app_nil_r. split; reflexivity.
Qed.

Lemma process_customs_statuses customWordlists acc acc' :
  process_customs'' acc customWordlists = Returns acc' ->
  source_statuses (trace acc') = source_statuses (trace acc).
Proof.
  revert acc. induction customWordlists as [|c cs IH]; intros acc; cbn [process_customs].
  - now intros [= <-].
  - unfold process_custom.
    destruct (search'' (words c) None) as [[found events]|e|]; cbn; try discriminate.
    intros H. apply IH in H. cbn [trace] in H.
    now rewrite H, source_statuses_app, source_statuses_progress, app_nil_r.
Qed.

Lemma run_statuses sourceKeys customWordlists r events :
  run'' sourceKeys customWordlists = Returns (r, events) ->
  if onSourceStatus
  then Forall2 (fun sourceKey ev =>
                  exists entry, ev = status_call sourceKey entry /\
                                reported U fetch batch_size pattern opts sourceKey entry)
               sourceKeys (source_statuses events)
  else source_statuses events = [].
Proof.
  unfold loadAndSearchWordlists.
  destruct (process_sources'' _ sourceKeys) as [acc1|e|] eqn:E1; cbn; try discriminate.
  destruct (process_customs'' acc1 customWordlists) as [acc2|e|] eqn:E2; cbn;
    try discriminate.
  apply process_sources_statuses in E1 as (added & Ht & Hadded).
  apply process_customs_statuses in E2. cbn in Ht. rewrite Ht in E2.
  intros H.
  assert (Hev : source_statuses events = added).
  { destruct (opt_unique opts); injection H as <- <-;
      rewrite ?source_statuses_app, ?source_statuses_progress, ?app_nil_r; exact E2. }
  now rewrite Hev.
Qed.

Lemma sourceStatus_fold (events : list event) (prev : gmap jsstring StatusEntry) :
  fold_left record_status events prev
  = fold_left record_status (source_statuses events) prev.
Proof.
  revert prev. induction events as [|ev events IH]; intros prev; [reflexivity|].
  destruct ev; cbn [fold_left source_statuses List.filter is_source_status record_status]; apply IH.
Qed.

Lemma sourceStatus_reported (sourceKeys : list jsstring) (evs : list event) : forall prev : gmap jsstring StatusEntry,
  Forall2 (fun sourceKey ev =>
             exists entry, ev = status_call sourceKey entry /\
                           reported U fetch batch_size pattern opts sourceKey entry)
          sourceKeys evs ->
  forall sourceKey,
    (~ In sourceKey sourceKeys ->
     fold_left record_status evs prev !! sourceKey = prev !! sourceKey) /\
    (In sourceKey sourceKeys ->
     exists entry,
       fold_left record_status evs prev !! sourceKey = Some entry /\
       reported U fetch batch_size pattern opts sourceKey entry).
Proof.
  intros prev H. revert prev.
  induction H as [|k ev keys evs (entry & -> & Hrep) _ IH]; intros prev sourceKey.
  - split; [reflexivity|intros []].
  - cbn [fold_left status_call record_status]. unfold handleSourceStatus.
    destruct (IH (<[k := {| entry_status := entry_status entry;
                           entry_count := entry_count entry;
                           entry_error := entry_error entry |}]> prev) sourceKey)
      as [Hout Hin].
    split.
    + intros Hk. rewrite Hout by (intros Hin'; apply Hk; now right).
      apply lookup_insert_ne. intros ->. apply Hk. now left.
    + intros Hk. destruct (decide (sourceKey ∈ keys)) as [Hkeys|Hkeys];
        rewrite list_elem_of_In in Hkeys; [now apply Hin|].
      destruct Hk as [->|Hk]; [|contradiction].
      rewrite Hout by assumption. rewrite lookup_insert_eq.
      exists entry. destruct entry. split; [reflexivity|assumption].
Qed.


(** *** An invalid template *)

Lemma search_invalid wordlist progressCallback e :
  compiled = Throws e -> search'' wordlist progressCallback = Throws e.
Proof. intros H. unfold searchInWordlist. now rewrite H. Qed.

Lemma process_sources_invalid sourceKeys acc e :
  compiled = Throws e ->
  exists acc', process_sources'' acc sourceKeys = Returns acc' /\
    allMatches acc' = allMatches acc /\
    matched (allWordCounts acc') = matched (allWordCounts acc) /\
    total (allWordCounts acc')
    = total (allWordCounts acc) + sum_list (map loaded_count'' sourceKeys).
Proof.
  intros Hc. revert acc. induction sourceKeys as [|k keys IH]; intros acc;
    cbn [process_sources map sum_list].
  - eexists. split; [reflexivity|]. repeat split. cbn. lia.
  - assert (Hk : loaded_count'' k
                 = match load'' k with Returns loaded => length loaded | _ => 0 end)
      by reflexivity.
    unfold process_source. fold (load'' k).
    destruct (load'' k) as [loaded|e'|] eqn:El.
    + rewrite search_invalid with (e := e) by assumption. cbn.
      edestruct IH as (acc' & -> & Hm & Hn & Ht). eexists. split; [reflexivity|].
      rewrite Hm, Hn, Ht. cbn. repeat split; lia.
    + cbn. edestruct IH as (acc' & -> & Hm & Hn & Ht). eexists. split; [reflexivity|].
      rewrite Hm, Hn, Ht. cbn. repeat split; lia.
    + now apply loadWordlist_modelled in El.
Qed.

Lemma run_invalid sourceKeys e :
  compiled = Throws e ->
  (exists events,
     run'' sourceKeys []
     = Returns ({| matches := [];
                   stats := {| total := sum_list (map loaded_count'' sourceKeys);
                               matched := 0 |} |}, events)) /\
  (forall customList customWordlists,
     run'' sourceKeys (customList :: customWordlists) = Throws e).
Proof.
  intros Hc. unfold loadAndSearchWordlists.
  edestruct (process_sources_invalid sourceKeys) as (acc1 & -> & Hm & Hn & Ht);
    [exact Hc|]. cbn in Hm, Hn, Ht. split.
  - cbn. destruct acc1 as [found [t m] tr]. cbn in *. subst.
    destruct (opt_unique opts); cbn; eauto.
  - intros c cs. cbn. unfold process_custom.
    now rewrite search_invalid with (e := e).
Qed.

(** *** The counters *)

Lemma search_found_length wordlist progressCallback found events :
  search'' wordlist progressCallback = Returns (found, events) ->
  length found <= length wordlist.
Proof.
  intros H.
  pose proof (searchInWordlist_matches U batch_size wordlist pattern (opt_wholeWord opts)
                progressCallback letterConstraints) as Hm.
  rewrite H in Hm. cbn in Hm. destruct compiled; cbn in Hm; try discriminate.
  injection Hm as ->. apply List.filter_length_le.
Qed.

Lemma process_sources_bound sourceKeys acc acc' :
  process_sources'' acc sourceKeys = Returns acc' ->
  length (allMatches acc) <= total (allWordCounts acc) ->
  length (allMatches acc') <= total (allWordCounts acc').
Proof.
  revert acc. induction sourceKeys as [|k keys IH]; intros acc; cbn [process_sources].
  - now intros [= <-].
  - unfold process_source. fold (load'' k).
    destruct (load'' k) as [loaded|e|]; cbn; [| |discriminate].
    + destruct (search'' loaded _) as [[found events]|e|] eqn:Es; cbn; try discriminate.
      * intros H Ha. apply IH in H; [exact H|]. cbn. rewrite length_app.
        apply search_found_length in Es. lia.
      * intros H Ha. apply IH in H; [exact H|]. cbn. lia.
    + intros H Ha. apply IH in H; [exact H|]. exact Ha.
Qed.

Lemma process_customs_bound customWordlists acc acc' :
  process_customs'' acc customWordlists = Returns acc' ->
  length (allMatches acc) <= total (allWordCounts acc) ->
  length (allMatches acc') <= total (allWordCounts acc').
Proof.
  revert acc. induction customWordlists as [|c cs IH]; intros acc; cbn [process_customs].
  - now intros [= <-].
  - unfold process_custom.
    destruct (search'' (words c) None) as [[found events]|e|] eqn:Es; cbn;
      try discriminate.
    intros H Ha. apply IH in H; [exact H|]. cbn. rewrite length_app.
    apply search_found_length in Es. lia.
Qed.

Lemma dedupe_length (found : list jsstring) : length (dedupe found) <= length found.
Proof.
  apply NoDup_incl_length; [apply NoDup_ListNoDup, dedupe_NoDup|].
  intros w Hw. apply list_elem_of_In. apply list_elem_of_In in Hw.
  now apply dedupe_elem_of.
Qed.

Lemma run_bound sourceKeys customWordlists r events :
  run'' sourceKeys customWordlists = Returns (r, events) ->
  length (matches r) <= total (stats r).
Proof.
  unfold loadAndSearchWordlists.
  destruct (process_sources'' _ sourceKeys) as [acc1|e|] eqn:E1; cbn; try discriminate.
  destruct (process_customs'' acc1 customWordlists) as [acc2|e|] eqn:E2; cbn;
    try discriminate.
  apply process_sources_bound in E1; [|cbn; lia].
  apply process_customs_bound in E2; [|exact E1].
  destruct (opt_unique opts); intros [= <- <-]; cbn; [|exact E2].
  pose proof (dedupe_length (allMatches acc2)). lia.
Qed.

End ReportFacts.

Section ReportTheorems.
Variable U : UnicodeData.
Variable fetch : jsstring -> fetch_result.
Variable batch_size : positive.
Variable pattern : jsstring.
Variable opts : Options.
Variable onProgress : bool.
Variable letterConstraints : option LetterConstraints.

(** X6. A run that returns has called [onSourceStatus] exactly once for each
    source key, in the order of the keys, and for nothing else (not for a
    custom list): with ['success'] and the number of words loaded when the
    source loaded and the template compiled, with ['error'], 0 and the
    error otherwise. *)
Theorem one_report_per_source sourceKeys customWordlists r events :
  loadAndSearchWordlists U fetch batch_size pattern opts true onProgress
    letterConstraints sourceKeys customWordlists = Returns (r, events) ->
  Forall2 (fun sourceKey ev =>
             exists entry, ev = status_call sourceKey entry /\
                           reported U fetch batch_size pattern opts sourceKey entry)
          sourceKeys (source_statuses events).
Proof. intros H. now apply run_statuses in H. Qed.

End ReportTheorems.

(** ** The normal form without its marks *)

Section NormalFormFacts.
Local Open Scope N_scope.
Variable U : UnicodeData.

Lemma scalar_cases c :
  scalar_value c = true ->
  (fromCodePoint c = [c] /\ is_lead_surrogate c = false) \/
  (exists hi lo, fromCodePoint c = [hi; lo] /\
     is_lead_surrogate hi && is_trail_surrogate lo = true /\ surrogate_pair hi lo = c).
Proof.
  intros H.
  destruct (fromCodePoint_cases c H) as [(E & Hl & _)|(hi & lo & E & _ & Hhi & Hlo & Ep)].
  - left. split; assumption.
  - right. exists hi, lo. split; [exact E|]. split; [now rewrite Hhi, Hlo|exact Ep].
Qed.

Lemma toCodePoints_cons_unit u s :
  is_lead_surrogate u = false -> toCodePoints (u :: s) = u :: toCodePoints s.
Proof. intros H. destruct s; [reflexivity|]. rewrite toCodePoints_cons2. now rewrite H. Qed.

Lemma Array_from_cons_unit u s :
  is_lead_surrogate u = false -> Array_from (u :: s) = [u] :: Array_from s.
Proof. intros H. destruct s; [reflexivity|]. rewrite Array_from_cons2. now rewrite H. Qed.

(** Reading the UTF-16 form of scalar values gives them back. *)
Lemma toCodePoints_fromCodePoints cps :
  Forall (fun c => scalar_value c = true) cps ->
  toCodePoints (fromCodePoints cps) = cps.
Proof.
  induction 1 as [|c cps Hc Hcps IH]; [reflexivity|].
  unfold fromCodePoints in *. cbn [flat_map].
  destruct (scalar_cases c Hc) as [(-> & Hl)|(hi & lo & -> & Hp & E)]; cbn [app].
  - now rewrite toCodePoints_cons_unit, IH.
  - now rewrite toCodePoints_cons2, Hp, E, IH.
Qed.

(** The string iterator yields the scalar values one by one. *)
Lemma Array_from_fromCodePoints cps :
  Forall (fun c => scalar_value c = true) cps ->
  Array_from (fromCodePoints cps) = map fromCodePoint cps.
Proof.
  induction 1 as [|c cps Hc Hcps IH]; [reflexivity|].
  unfold fromCodePoints in *. cbn [flat_map map].
  destruct (scalar_cases c Hc) as [(E & Hl)|(hi & lo & E & Hp & _)]; rewrite E; cbn [app].
  - now rewrite Array_from_cons_unit, IH.
  - now rewrite Array_from_cons2, Hp, IH.
Qed.

Lemma test_MARK_fromCodePoint c :
  scalar_value c = true -> test U MARK (fromCodePoint c) = is_mark U c.
Proof.
  intros H. destruct (scalar_cases c H) as [(-> & _)|(hi & lo & -> & Hp & E)].
  - apply test_MARK_single.
  - now rewrite test_MARK_pair, E.
Qed.

Lemma filter_marks_scalars cps :
  Forall (fun c => scalar_value c = true) cps ->
  concat (List.filter (fun ch => negb (test U MARK ch)) (map fromCodePoint cps))
  = fromCodePoints (List.filter (fun c => negb (is_mark U c)) cps).
Proof.
  induction 1 as [|c cps Hc Hcps IH]; [reflexivity|].
  cbn [map List.filter]. rewrite test_MARK_fromCodePoint by exact Hc.
  destruct (is_mark U c); cbn [negb]; [exact IH|].
  cbn [concat]. rewrite IH. reflexivity.
Qed.

Lemma stripNiqqud_normal_form w :
  Forall (fun c => scalar_value c = true) (nfkd_code_points U w) ->
  stripNiqqud U w
  = fromCodePoints (List.filter (fun c => negb (is_mark U c)) (nfkd_code_points U w)).
Proof.
  intros H. unfold stripNiqqud, normalize_NFKD. fold (nfkd_code_points U w).
  rewrite Array_from_fromCodePoints by exact H. now apply filter_marks_scalars.
Qed.

(** C8 (amended). [stripNiqqud] works on the compatibility decomposition
    (NFKD) of the word: it returns the code points of that normal form
    that are not combining marks, in their order, and removes the marks
    (for a normal form of Unicode scalar values, that is without lone
    surrogates).  A word of 16-bit code units whose code points are left
    alone by the decomposition (no decomposition mapping, combining class
    0) and are not combining marks is returned unchanged. *)
Theorem strip_leaves_inert_words (w : jsstring) :
  normalize_NFKD U w = fromCodePoints (nfkd_code_points U w) /\
  (Forall (fun c => scalar_value c = true) (nfkd_code_points U w) ->
   stripNiqqud U w
   = fromCodePoints (List.filter (fun c => negb (is_mark U c)) (nfkd_code_points U w)) /\
   toCodePoints (stripNiqqud U w)
   = List.filter (fun c => negb (is_mark U c)) (nfkd_code_points U w) /\
   Forall (fun c => is_mark U c = false) (toCodePoints (stripNiqqud U w))) /\
  (well_formed w -> (forall c, In c (toCodePoints w) -> inert U c) ->
   stripNiqqud U w = w).
Proof.
  split; [reflexivity|]. split; [|apply stripNiqqud_inert].
  intros H. pose proof (stripNiqqud_normal_form w H) as E.
  assert (Hkept : Forall (fun c => scalar_value c = true)
                    (List.filter (fun c => negb (is_mark U c)) (nfkd_code_points U w))).
  { apply Forall_forall. intros c Hc. apply list_elem_of_In, filter_In in Hc as [Hc _].
    rewrite Forall_forall in H. apply H. now apply list_elem_of_In. }
  assert (E' : toCodePoints (stripNiqqud U w)
               = List.filter (fun c => negb (is_mark U c)) (nfkd_code_points U w)).
  { rewrite E. now apply toCodePoints_fromCodePoints. }
  split; [exact E|]. split; [exact E'|].
  rewrite E'. apply Forall_forall. intros c Hc.
  apply list_elem_of_In, filter_In in Hc as [_ Hc]. now apply negb_true_iff in Hc.
Qed.

End NormalFormFacts.

(** ** The run as a whole *)

Section WholeRunFacts.
Variable U : UnicodeData.
Variable fetch : jsstring -> fetch_result.
Variable batch_size : positive.
Variable pattern : jsstring.
Variable opts : Options.
Variable onSourceStatus onProgress : bool.
Variable letterConstraints : option LetterConstraints.

Local Abbreviation sources_loop :=
  (process_sources U fetch batch_size pattern opts onSourceStatus onProgress
     letterConstraints).
Local Abbreviation customs_loop :=
  (process_customs U batch_size pattern opts onProgress letterConstraints).
Local Abbreviation whole_run :=
  (loadAndSearchWordlists U fetch batch_size pattern opts onSourceStatus onProgress
     letterConstraints).

(** The loop over the sources always runs to its end. *)
Lemma process_sources_returns sourceKeys acc :
  exists acc', sources_loop acc sourceKeys = Returns acc'.
Proof.
  destruct (sources_loop acc sourceKeys) as [acc'|e|] eqn:E; [eauto| |].
  - now apply process_sources_caught in E.
  - exfalso. revert acc E. induction sourceKeys as [|k keys IH]; intros acc;
      cbn [process_sources]; [discriminate|].
    unfold process_source.
    destruct (loadWordlist U fetch batch_size k None None opts) as [loaded|e|] eqn:El;
      cbn; [|apply IH|now apply loadWordlist_modelled in El].
    destruct (searchInWordlist U batch_size loaded pattern (opt_wholeWord opts) _
                letterConstraints) as [[found events]|e|] eqn:Es; cbn;
      [apply IH|apply IH|now apply searchInWordlist_modelled in Es].
Qed.

(** What the run does after the loop over the sources. *)
Lemma run_after_sources sourceKeys customWordlists acc1 :
  sources_loop empty_accumulator sourceKeys = Returns acc1 ->
  (forall e, whole_run sourceKeys customWordlists = Throws e ->
             customs_loop acc1 customWordlists = Throws e) /\
  (forall r events, whole_run sourceKeys customWordlists = Returns (r, events) ->
                    exists more, events = trace acc1 ++ more).
Proof.
  intros E1. unfold loadAndSearchWordlists. fold empty_accumulator. rewrite E1. cbn.
  destruct (customs_loop acc1 customWordlists) as [acc2|e|] eqn:E2; cbn.
  - split; [destruct (opt_unique opts); discriminate|].
    apply process_customs_trace in E2 as (more & Ht).
    intros r events. destruct (opt_unique opts); intros [= <- <-]; rewrite Ht.
    + rewrite <- app_assoc. eauto.
    + eauto.
  - split; [now intros ? [= ->]|discriminate].
  - split; discriminate.
Qed.

Lemma accumulated_compiled rx sourceKeys customWordlists :
  templateToRegex U pattern (opt_wholeWord opts) = Returns rx ->
  accumulated U fetch batch_size pattern opts letterConstraints sourceKeys customWordlists
  = flat_map (source_matches U fetch batch_size opts letterConstraints rx) sourceKeys
    ++ flat_map (custom_matches U letterConstraints rx) customWordlists.
Proof. intros H. unfold accumulated. now rewrite H. Qed.

(** The matches of a run that returns are the accumulated matches,
    deduplicated under [unique]. *)
Lemma run_accumulated sourceKeys customWordlists r events :
  whole_run sourceKeys customWordlists = Returns (r, events) ->
  matches r
  = (if opt_unique opts then dedupe else fun found => found)
      (accumulated U fetch batch_size pattern opts letterConstraints sourceKeys
         customWordlists).
Proof.
  intros Hrun.
  destruct (templateToRegex U pattern (opt_wholeWord opts)) as [rx|e|] eqn:Ec.
  - destruct (run_compiled U fetch batch_size pattern opts onSourceStatus onProgress
                letterConstraints rx sourceKeys customWordlists Ec)
      as (r' & events' & Hrun' & Hm).
    rewrite Hrun in Hrun'. injection Hrun' as <- <-.
    now rewrite Hm, (accumulated_compiled rx).
  - destruct (run_invalid U fetch batch_size pattern opts onSourceStatus onProgress
                letterConstraints sourceKeys e Ec) as [(events' & Hnone) Hsome].
    unfold accumulated. rewrite Ec.
    destruct customWordlists as [|c cs].
    + rewrite Hrun in Hnone. injection Hnone as -> _. cbn.
      now destruct (opt_unique opts).
    + rewrite Hsome in Hrun. discriminate.
  - now apply templateToRegex_modelled in Ec.
Qed.

(** C7 (amended). Whatever sources fail to load and whatever the template,
    the loop over the sources runs to its end, and each failure is
    recorded there by the call [onSourceStatus(sourceKey, 'error', 0,
    message)] (when the callback is given): the events of a run that
    returns begin with those of the loop, and a run that throws does so
    after the loop, in the loop over the custom word lists.  What the run
    returns or throws is what the run without the failing sources returns
    or throws, so a failure to load never reaches the caller.  Whenever the
    template compiles the run returns, its matches being those of the
    sources that loaded followed by those of the custom lists
    (deduplicated under [unique]).  When the template does not compile the
    run returns, without matches, if there is no custom word list, and
    throws the error of the compilation if there is one; a run throws in
    that case only, and a [SyntaxError]. *)
Theorem load_failure_isolated sourceKeys customWordlists :
  (exists acc1,
     process_sources U fetch batch_size pattern opts onSourceStatus onProgress
       letterConstraints empty_accumulator sourceKeys = Returns acc1 /\
     (forall k e,
        In k sourceKeys ->
        loadWordlist U fetch batch_size k None None opts = Throws e ->
        onSourceStatus = true ->
        In (SourceStatus k error 0 (Some e)) (trace acc1)) /\
     (forall r events,
        loadAndSearchWordlists U fetch batch_size pattern opts onSourceStatus onProgress
          letterConstraints sourceKeys customWordlists = Returns (r, events) ->
        exists more, events = trace acc1 ++ more) /\
     (forall e,
        loadAndSearchWordlists U fetch batch_size pattern opts onSourceStatus onProgress
          letterConstraints sourceKeys customWordlists = Throws e ->
        process_customs U batch_size pattern opts onProgress letterConstraints acc1
          customWordlists = Throws e)) /\
  fst <$> loadAndSearchWordlists U fetch batch_size pattern opts onSourceStatus
            onProgress letterConstraints sourceKeys customWordlists
  = fst <$> loadAndSearchWordlists U fetch batch_size pattern opts onSourceStatus
              onProgress letterConstraints
              (List.filter (fun k => negb (load_fails U fetch batch_size opts k)) sourceKeys)
              customWordlists /\
  (forall rx,
     templateToRegex U pattern (opt_wholeWord opts) = Returns rx ->
     exists r events,
       loadAndSearchWordlists U fetch batch_size pattern opts onSourceStatus onProgress
         letterConstraints sourceKeys customWordlists = Returns (r, events) /\
       matches r =
         (if opt_unique opts then dedupe else fun found => found)
           (flat_map (source_matches U fetch batch_size opts letterConstraints rx) sourceKeys
            ++ flat_map (custom_matches U letterConstraints rx) customWordlists)) /\
  (forall e,
     templateToRegex U pattern (opt_wholeWord opts) = Throws e ->
     (exists events,
        loadAndSearchWordlists U fetch batch_size pattern opts onSourceStatus onProgress
          letterConstraints sourceKeys []
        = Returns ({| matches := [];
                      stats := {| total := sum_list
                                             (map (loaded_count U fetch batch_size opts)
                                                  sourceKeys);
                                  matched := 0 |} |}, events)) /\
     (forall customList rest,
        loadAndSearchWordlists U fetch batch_size pattern opts onSourceStatus onProgress
          letterConstraints sourceKeys (customList :: rest) = Throws e)) /\
  (forall e,
     loadAndSearchWordlists U fetch batch_size pattern opts onSourceStatus onProgress
       letterConstraints sourceKeys customWordlists = Throws e ->
     templateToRegex U pattern (opt_wholeWord opts) = Throws e /\
     e = SyntaxError /\ customWordlists <> []).
Proof.
  split; [|split; [|split; [|split]]].
  - destruct (process_sources_returns sourceKeys empty_accumulator) as (acc1 & E1).
    exists acc1. split; [exact E1|].
    destruct (run_after_sources sourceKeys customWordlists acc1 E1) as [Hthrows Hreturns].
    split; [|split; [exact Hreturns|exact Hthrows]].
    apply process_sources_trace in E1 as (more & Ht & Hin). cbn [trace empty_accumulator app] in Ht.
    rewrite Ht. intros k e Hk Hl Hs. now apply (Hin k e).
  - apply run_skips_failing.
  - intros rx Hrx. now apply run_compiled.
  - intros e He. now apply run_invalid.
  - intros e Hrun. pose proof (run_throws _ _ _ _ _ _ _ _ _ _ _ Hrun) as He.
    split; [exact He|]. split; [now apply templateToRegex_throws in He|].
    intros ->.
    destruct (run_invalid U fetch batch_size pattern opts onSourceStatus onProgress
                letterConstraints sourceKeys e He) as [(events & Hnone) _].
    rewrite Hnone in Hrun. discriminate.
Qed.

End WholeRunFacts.

Section DedupeTheorem.
Variable U : UnicodeData.
Variable fetch : jsstring -> fetch_result.
Variable batch_size : positive.
Variable pattern : jsstring.
Variable onSourceStatus onProgress : bool.
Variable letterConstraints : option LetterConstraints.

(** C6. With the [unique] option a run that returns gives the matches it
    accumulated (those of the sources in the order of the keys, then those
    of the custom word lists in their order) with repeated words removed,
    and [matched] is the number of words left; such a run returns whenever
    the template compiles.  It is the run without the option,
    deduplicated.  The removal goes through the accumulated matches in
    order and keeps a word exactly when it has not occurred before (its
    first occurrence); the result has no repetition and the same words,
    and removing duplicates twice gives what removing them once gives. *)
Theorem dedupe_first_occurrence :
  (forall (strip wholeWord : bool) sourceKeys customWordlists r events,
     loadAndSearchWordlists U fetch batch_size pattern
       {| opt_stripNiqqud := strip; opt_unique := true; opt_wholeWord := wholeWord |}
       onSourceStatus onProgress letterConstraints sourceKeys customWordlists
     = Returns (r, events) ->
     matches r
     = dedupe (accumulated U fetch batch_size pattern
                 {| opt_stripNiqqud := strip; opt_unique := true;
                    opt_wholeWord := wholeWord |}
                 letterConstraints sourceKeys customWordlists) /\
     matched (stats r) = length (matches r)) /\
  (forall (strip wholeWord : bool) sourceKeys customWordlists rx,
     templateToRegex U pattern wholeWord = Returns rx ->
     exists r events,
       loadAndSearchWordlists U fetch batch_size pattern
         {| opt_stripNiqqud := strip; opt_unique := true; opt_wholeWord := wholeWord |}
         onSourceStatus onProgress letterConstraints sourceKeys customWordlists
       = Returns (r, events) /\
       matches r
       = dedupe
           (flat_map (source_matches U fetch batch_size
                        {| opt_stripNiqqud := strip; opt_unique := true;
                           opt_wholeWord := wholeWord |} letterConstraints rx) sourceKeys
            ++ flat_map (custom_matches U letterConstraints rx) customWordlists)) /\
  (forall (strip wholeWord : bool) sourceKeys customWordlists,
     fst <$> loadAndSearchWordlists U fetch batch_size pattern
               {| opt_stripNiqqud := strip; opt_unique := true; opt_wholeWord := wholeWord |}
               onSourceStatus onProgress letterConstraints sourceKeys customWordlists
     = deduped <$> (fst <$> loadAndSearchWordlists U fetch batch_size pattern
               {| opt_stripNiqqud := strip; opt_unique := false; opt_wholeWord := wholeWord |}
               onSourceStatus onProgress letterConstraints sourceKeys customWordlists)) /\
  dedupe [] = [] /\
  (forall (l : list jsstring) (x : jsstring),
     dedupe (l ++ [x]) = if decide (x ∈ l) then dedupe l else dedupe l ++ [x]) /\
  (forall l : list jsstring, NoDup (dedupe l)) /\
  (forall (l : list jsstring) (x : jsstring), x ∈ dedupe l <-> x ∈ l) /\
  (forall l : list jsstring, dedupe (dedupe l) = dedupe l).
Proof.
  split; [|split; [|split]].
  - intros strip wholeWord sourceKeys customWordlists r events Hrun. split.
    + exact (run_accumulated U fetch batch_size pattern
               {| opt_stripNiqqud := strip; opt_unique := true; opt_wholeWord := wholeWord |}
               onSourceStatus onProgress letterConstraints sourceKeys customWordlists
               r events Hrun).
    + exact (proj1 (run_stats _ _ _ _ _ _ _ _ _ _ _ _ Hrun)).
  - intros strip wholeWord sourceKeys customWordlists rx Hrx.
    exact (run_compiled U fetch batch_size pattern
             {| opt_stripNiqqud := strip; opt_unique := true; opt_wholeWord := wholeWord |}
             onSourceStatus onProgress letterConstraints rx sourceKeys customWordlists Hrx).
  - intros. apply run_unique.
  - split; [reflexivity|].
    split; [apply dedupe_snoc|].
    split; [apply dedupe_NoDup|].
    split; [apply dedupe_elem_of|apply dedupe_idempotent].
Qed.

End DedupeTheorem.

(** ** [handleSearch]: what the page shows *)

Section HandleSearchFacts.
Variable U : UnicodeData.
Variable fetch : jsstring -> fetch_result.
Variable localeCompare : jsstring -> jsstring -> Z.
Variable batch_size : positive.

Lemma handleSearch_call_run form :
  handleSearch_call U fetch batch_size form
  = loadAndSearchWordlists U fetch batch_size (form_pattern form) (searchOpts_of form)
      true true (letterConstraints_of form) (form_selectedSources form)
      (form_customWordlists form ++ customFromPaste_of U form).
Proof. reflexivity. Qed.

Lemma handleSearch_run form r :
  handleSearch U fetch localeCompare batch_size form = Some (Returns r) ->
  exists result events,
    handleSearch_call U fetch batch_size form = Returns (result, events) /\
    Permutation (matches r) (matches result) /\ stats r = stats result.
Proof.
  unfold handleSearch.
  destruct (Nat.eqb (length (form_pattern form)) 0); [discriminate|].
  destruct (_ && _ && _); [discriminate|].
  destruct (handleSearch_call U fetch batch_size form) as [[result events]|e|];
    cbn; try discriminate.
  intros [= <-]. exists result, events. split; [reflexivity|]. cbn. split; [|reflexivity].
  destruct (form_sort form); [apply Array_sort_perm|reflexivity].
Qed.

Lemma passes_summary form w :
  passesLetterConstraints (letterConstraints_of form) w
  = passesLetterConstraints (Some (summary_of form)) w.
Proof.
  unfold letterConstraints_of.
  destruct (selected (summary_of form)) as [|s ss] eqn:Es; [|reflexivity].
  destruct (deselected (summary_of form)) as [|d ds] eqn:Ed; [|reflexivity].
  unfold passesLetterConstraints. now rewrite Es, Ed.
Qed.

Lemma candidate_words_empty : candidate_words U [] = [].
Proof. reflexivity. Qed.

(** X7. After a search that ended normally, the state [sourceStatus] that
    [handleSourceStatus] built from [{}] has an entry for a key exactly when
    the key is one of the selected sources, and the entry is the report of
    that source: success with the number of words loaded, or the error. *)
Theorem source_status_shown form r events :
  handleSearch_call U fetch batch_size form = Returns (r, events) ->
  forall sourceKey,
    (~ In sourceKey (form_selectedSources form) ->
     sourceStatus_after events !! sourceKey = None) /\
    (In sourceKey (form_selectedSources form) ->
     exists entry,
       sourceStatus_after events !! sourceKey = Some entry /\
       reported U fetch batch_size (form_pattern form) (searchOpts_of form)
         sourceKey entry).
Proof.
  intros H sourceKey. rewrite handleSearch_call_run in H. apply run_statuses in H.
  unfold sourceStatus_after. rewrite sourceStatus_fold.
  destruct (sourceStatus_reported U fetch batch_size (form_pattern form)
              (searchOpts_of form) (form_selectedSources form)
              (source_statuses events) ∅ H sourceKey) as [Hout Hin].
  split; [|exact Hin]. intros Hk. now rewrite Hout.
Qed.

(** X9. The counter of matches the page shows is the number of results it
    lists, sorted or not, deduplicated or not, and it never exceeds the
    counter of words searched. *)
Theorem displayed_counters form r :
  handleSearch U fetch localeCompare batch_size form = Some (Returns r) ->
  matched (stats r) = length (matches r) /\ matched (stats r) <= total (stats r).
Proof.
  intros H. apply handleSearch_run in H as (result & events & Hrun & Hperm & Hstats).
  rewrite handleSearch_call_run in Hrun.
  pose proof (run_stats _ _ _ _ _ _ _ _ _ _ _ _ Hrun) as [Hm _].
  pose proof (run_bound _ _ _ _ _ _ _ _ _ _ _ _ Hrun) as Hb.
  rewrite Hstats, (Permutation_length Hperm). split; [exact Hm|lia].
Qed.

(** X8. When the template compiles, the results [handleSearch] shows are
    exactly the words that the matcher accepts, that hold every selected
    letter and no deselected one, and that come from a selected source that
    loaded, from a custom word list or from the pasted text. *)
Theorem results_sound_and_complete form r rx :
  handleSearch U fetch localeCompare batch_size form = Some (Returns r) ->
  templateToRegex U (form_pattern form) (form_wholeWord form) = Returns rx ->
  forall w,
    In w (matches r) <->
    accepts U rx (Some (summary_of form)) w = true /\
    ((exists sourceKey loaded,
        In sourceKey (form_selectedSources form) /\
        loadWordlist U fetch batch_size sourceKey None None (searchOpts_of form)
        = Returns loaded /\ In w loaded) \/
     (exists customList, In customList (form_customWordlists form) /\
                         In w (words customList)) \/
     In w (candidate_words U (trim (form_paste form)))).
Proof.
  intros H Hrx w.
  apply handleSearch_run in H as (result & events & Hrun & Hperm & _).
  rewrite handleSearch_call_run in Hrun.
  destruct (run_compiled U fetch batch_size (form_pattern form) (searchOpts_of form)
              true true (letterConstraints_of form) rx (form_selectedSources form)
              (form_customWordlists form ++ customFromPaste_of U form) Hrx)
    as (r' & events' & Hrun' & Hmatches).
  rewrite Hrun in Hrun'. injection Hrun' as <- <-.
  assert (Hin : In w (matches r) <-> In w (matches result)).
  { split; apply Permutation_in; [exact Hperm|symmetry; exact Hperm]. }
  rewrite Hin, Hmatches.
  assert (Hd : forall found : list jsstring,
             In w ((if opt_unique (searchOpts_of form) then dedupe
                    else fun found => found) found) <-> In w found).
  { intros found. destruct (opt_unique (searchOpts_of form)); [|reflexivity].
    rewrite <- !list_elem_of_In. apply dedupe_elem_of. }
  rewrite Hd, in_app_iff, !in_flat_map.
  assert (Hacc : accepts U rx (letterConstraints_of form) w
                 = accepts U rx (Some (summary_of form)) w).
  { unfold accepts. now rewrite passes_summary. }
  split.
  - intros [(k & Hk & Hw)|(c & Hc & Hw)].
    + unfold source_matches, load in Hw.
      destruct (loadWordlist U fetch batch_size k None None (searchOpts_of form))
        as [loaded|e|] eqn:El; try contradiction.
      apply filter_In in Hw as [Hw Ha]. rewrite Hacc in Ha.
      split; [exact Ha|]. left. eauto.
    + unfold custom_matches in Hw. apply filter_In in Hw as [Hw Ha]. rewrite Hacc in Ha.
      split; [exact Ha|]. right.
      apply in_app_iff in Hc as [Hc|Hc]; [left; eauto|right].
      unfold customFromPaste_of in Hc.
      destruct (negb _); [|contradiction]. destruct Hc as [<-|[]]. exact Hw.
  - intros [Ha [(k & loaded & Hk & Hl & Hw)|[(c & Hc & Hw)|Hw]]].
    + left. exists k. split; [exact Hk|]. unfold source_matches, load. rewrite Hl.
      apply filter_In. now rewrite Hacc.
    + right. exists c. split; [apply in_app_iff; now left|].
      apply filter_In. now rewrite Hacc.
    + right. unfold customFromPaste_of.
      destruct (Nat.eqb (length (trim (form_paste form))) 0) eqn:E.
      * apply Nat.eqb_eq in E. apply length_zero_iff_nil in E. rewrite E in Hw.
        rewrite candidate_words_empty in Hw. contradiction.
      * eexists. split; [apply in_app_iff; right; now left|].
        apply filter_In. cbn [words]. now rewrite Hacc.
Qed.

(** X10. A template that does not compile: with built-in sources only the
    search ends normally with no results, the words of the sources that
    loaded counted as searched (each source being reported as failed); with
    a custom word list or pasted text the error of the compilation is what
    the search ends with. *)
Theorem invalid_template_outcome form e :
  form_pattern form <> [] ->
  templateToRegex U (form_pattern form) (form_wholeWord form) = Throws e ->
  (form_selectedSources form <> [] -> form_customWordlists form = [] ->
   trim (form_paste form) = [] ->
   handleSearch U fetch localeCompare batch_size form
   = Some (Returns
       {| matches := [];
          stats := {| total := sum_list (map (loaded_count U fetch batch_size
                                                 (searchOpts_of form))
                                              (form_selectedSources form));
                      matched := 0 |} |})) /\
  (form_customWordlists form <> [] \/ trim (form_paste form) <> [] ->
   handleSearch U fetch localeCompare batch_size form = Some (Throws e)).
Proof.
  intros Hp He.
  assert (Hp' : Nat.eqb (length (form_pattern form)) 0 = false).
  { apply Nat.eqb_neq. intros E. now apply length_zero_iff_nil in E. }
  destruct (run_invalid U fetch batch_size (form_pattern form) (searchOpts_of form)
              true true (letterConstraints_of form) (form_selectedSources form) e He)
    as [(events & Hnone) Hsome].
  split.
  - intros Hs Hc Ht. unfold handleSearch. rewrite Hp'.
    assert (Hs' : Nat.eqb (length (form_selectedSources form)) 0 = false).
    { apply Nat.eqb_neq. intros E. now apply length_zero_iff_nil in E. }
    rewrite Hs'. cbn [andb]. rewrite handleSearch_call_run.
    unfold customFromPaste_of. rewrite Hc, Ht. cbn [length Nat.eqb negb app].
    rewrite Hnone. cbn. destruct (form_sort form); reflexivity.
  - intros Hc. unfold handleSearch. rewrite Hp'.
    assert (Hv : Nat.eqb (length (form_selectedSources form)) 0
                 && Nat.eqb (length (form_customWordlists form)) 0
                 && Nat.eqb (length (trim (form_paste form))) 0 = false).
    { destruct Hc as [Hc|Hc].
      - destruct (form_customWordlists form); [contradiction|]. cbn.
        now rewrite andb_false_r.
      - destruct (trim (form_paste form)); [contradiction|]. cbn.
        now rewrite andb_false_r. }
    rewrite Hv. rewrite handleSearch_call_run.
    destruct (form_customWordlists form ++ customFromPaste_of U form) as [|c cs] eqn:E.
    + exfalso. apply app_eq_nil in E as [E1 E2]. destruct Hc as [Hc|Hc]; [contradiction|].
      unfold customFromPaste_of in E2.
      destruct (trim (form_paste form)); [contradiction|]. discriminate.
    + now rewrite Hsome.
Qed.

End HandleSearchFacts.

(** ** The letter picker *)

Section PickerFacts.
Implicit Types (obj : list (jsstring * letter_state)) (key letter : jsstring).

Lemma object_get_In obj key v :
  NoDup (map fst obj) -> (object_get key obj = Some v <-> In (key, v) obj).
Proof.
  induction obj as [|[k v0] obj IH]; intros Hnd; cbn [object_get].
  - split; [discriminate|intros []].
  - cbn [map fst] in Hnd. apply NoDup_cons in Hnd as [Hk Hnd].
    destruct (decide (k = key)) as [->|Hne].
    + split.
      * intros [= ->]. now left.
      * intros [[= ->]|Hin]; [reflexivity|]. exfalso. apply Hk.
        apply list_elem_of_In. apply in_map_iff. now exists (key, v).
    + rewrite (IH Hnd). split; [intros H; now right|].
      intros [[= -> ->]|Hin]; [contradiction|exact Hin].
Qed.

Lemma object_set_keys obj key v :
  map fst (object_set key v obj)
  = if decide (key ∈ map fst obj) then map fst obj else map fst obj ++ [key].
Proof.
  induction obj as [|[k v0] obj IH]; cbn [object_set map fst app].
  - rewrite decide_False by apply not_elem_of_nil. reflexivity.
  - destruct (decide (k = key)) as [->|Hne].
    + cbn [map fst]. rewrite decide_True by apply list_elem_of_here. reflexivity.
    + cbn [map fst]. rewrite IH.
      destruct (decide (key ∈ map fst obj)) as [Hin|Hin].
      * rewrite decide_True by (now apply list_elem_of_further). reflexivity.
      * rewrite decide_False; [reflexivity|].
        intros H. apply elem_of_cons in H as [H|H]; [congruence|contradiction].
Qed.

Lemma object_set_NoDup obj key v :
  NoDup (map fst obj) -> NoDup (map fst (object_set key v obj)).
Proof.
  intros Hnd. rewrite object_set_keys.
  destruct (decide (key ∈ map fst obj)) as [Hin|Hin]; [exact Hnd|].
  apply NoDup_app. split; [exact Hnd|]. split; [|apply NoDup_singleton].
  intros k Hk Hk'. apply list_elem_of_singleton in Hk'. now subst.
Qed.

Lemma object_delete_NoDup obj key :
  NoDup (map fst obj) -> NoDup (map fst (object_delete key obj)).
Proof.
  unfold object_delete. induction obj as [|[k v0] obj IH]; intros Hnd; [exact Hnd|].
  cbn [map fst] in Hnd. apply NoDup_cons in Hnd as [Hk Hnd].
  cbn [List.filter fst]. destruct (negb (bool_decide (k = key))); [|now apply IH].
  cbn [map fst]. apply NoDup_cons. split; [|now apply IH].
  intros Hin. apply Hk. apply list_elem_of_In in Hin. apply list_elem_of_In.
  apply in_map_iff in Hin as (e & He & Hin). apply filter_In in Hin as [Hin _].
  apply in_map_iff. eauto.
Qed.

Lemma handleLetterClick_NoDup letter isRightClick obj :
  NoDup (map fst obj) -> NoDup (map fst (handleLetterClick letter isRightClick obj)).
Proof.
  intros Hnd. unfold handleLetterClick.
  destruct isRightClick, (object_get letter obj) as [[]|];
    auto using object_set_NoDup, object_delete_NoDup.
Qed.

Lemma picker_run_NoDup actions : NoDup (map fst (picker_run actions)).
Proof.
  unfold picker_run.
  enough (G : forall obj, NoDup (map fst obj) ->
                          NoDup (map fst (fold_left picker_step actions obj))).
  { apply G. constructor. }
  induction actions as [|a actions IH]; intros obj Hnd; [exact Hnd|].
  cbn [fold_left]. apply IH.
  destruct a; cbn [picker_step]; [now apply handleLetterClick_NoDup..|constructor].
Qed.

Lemma object_get_set obj key v key' :
  object_get key' (object_set key v obj)
  = if decide (key' = key) then Some v else object_get key' obj.
Proof.
  induction obj as [|[k v0] obj IH]; cbn [object_set object_get].
  - destruct (decide (key = key')) as [->|Hne].
    + now rewrite decide_True.
    + rewrite decide_False by congruence. reflexivity.
  - destruct (decide (k = key)) as [->|Hne]; cbn [object_get].
    + destruct (decide (key = key')) as [->|Hne'].
      * now rewrite decide_True.
      * rewrite decide_False by congruence. reflexivity.
    + destruct (decide (k = key')) as [->|Hne'].
      * rewrite decide_False by congruence. reflexivity.
      * exact IH.
Qed.

Lemma object_get_delete obj key key' :
  object_get key' (object_delete key obj)
  = if decide (key' = key) then None else object_get key' obj.
Proof.
  unfold object_delete.
  induction obj as [|[k v0] obj IH]; cbn [List.filter object_get fst].
  - now destruct (decide (key' = key)).
  - destruct (decide (k = key)) as [->|Hne].
    + rewrite bool_decide_eq_true_2 by reflexivity. cbn [negb]. rewrite IH.
      destruct (decide (key' = key)) as [->|Hne']; [reflexivity|].
      rewrite decide_False by congruence. reflexivity.
    + rewrite bool_decide_eq_false_2 by assumption. cbn [negb object_get].
      destruct (decide (k = key')) as [->|Hne'].
      * rewrite decide_False by congruence. reflexivity.
      * exact IH.
Qed.

Lemma summary_selected obj letter :
  NoDup (map fst obj) ->
  (In letter (selected (getSelectedDeselectedSummary obj))
   <-> object_get letter obj = Some picked).
Proof.
  intros Hnd. rewrite (object_get_In _ _ _ Hnd).
  unfold getSelectedDeselectedSummary. cbn [selected]. rewrite in_map_iff. split.
  - intros ([k v] & <- & Hin). apply filter_In in Hin as [Hin Hv]. cbn in *.
    destruct v; [exact Hin|discriminate].
  - intros Hin. exists (letter, picked). split; [reflexivity|].
    apply filter_In. split; [exact Hin|reflexivity].
Qed.

Lemma summary_deselected obj letter :
  NoDup (map fst obj) ->
  (In letter (deselected (getSelectedDeselectedSummary obj))
   <-> object_get letter obj = Some unpicked).
Proof.
  intros Hnd. rewrite (object_get_In _ _ _ Hnd).
  unfold getSelectedDeselectedSummary. cbn [deselected]. rewrite in_map_iff. split.
  - intros ([k v] & <- & Hin). apply filter_In in Hin as [Hin Hv]. cbn in *.
    destruct v; [discriminate|exact Hin].
  - intros Hin. exists (letter, unpicked). split; [reflexivity|].
    apply filter_In. split; [exact Hin|reflexivity].
Qed.

Lemma filter_keys_NoDup obj (f : jsstring * letter_state -> bool) :
  NoDup (map fst obj) -> NoDup (map fst (List.filter f obj)).
Proof.
  induction obj as [|[k v0] obj IH]; intros Hnd; [exact Hnd|].
  cbn [map fst] in Hnd. apply NoDup_cons in Hnd as [Hk Hnd].
  cbn [List.filter]. destruct (f (k, v0)); [|now apply IH].
  cbn [map fst]. apply NoDup_cons. split; [|now apply IH].
  intros Hin. apply Hk. apply list_elem_of_In in Hin. apply list_elem_of_In.
  apply in_map_iff in Hin as (e & He & Hin). apply filter_In in Hin as [Hin _].
  apply in_map_iff. eauto.
Qed.

(** X11. Whatever the user clicks in the letter dialog, starting from the
    empty state, a letter is never both required and forbidden, and no
    letter is listed twice in the summary handed to the search. *)
Theorem letter_never_both (actions : list picker_action) :
  let summary := getSelectedDeselectedSummary (picker_run actions) in
  NoDup (selected summary) /\ NoDup (deselected summary) /\
  forall letter, In letter (selected summary) -> ~ In letter (deselected summary).
Proof.
  pose proof (picker_run_NoDup actions) as Hnd. cbv zeta. split; [|split].
  - now apply filter_keys_NoDup.
  - now apply filter_keys_NoDup.
  - intros letter Hs Hd. apply summary_selected in Hs; [|exact Hnd].
    apply summary_deselected in Hd; [|exact Hnd]. congruence.
Qed.

(** X12. A click changes the state of the clicked letter only: a left click
    makes a letter required unless it was required, in which case it
    becomes unconstrained; a right click makes it forbidden unless it was
    forbidden, in which case it becomes unconstrained; every other letter
    keeps its state. *)
Theorem click_toggles_one_letter (letter : jsstring) (isRightClick : bool)
    (prev : list (jsstring * letter_state)) :
  object_get letter (handleLetterClick letter isRightClick prev)
  = (let mine := if isRightClick then unpicked else picked in
     if decide (object_get letter prev = Some mine) then None else Some mine) /\
  forall other, other <> letter ->
    object_get other (handleLetterClick letter isRightClick prev) = object_get other prev.
Proof.
  unfold handleLetterClick. split.
  - destruct isRightClick, (object_get letter prev) as [[]|]; cbv zeta;
      rewrite ?object_get_set, ?object_get_delete; repeat case_decide; congruence.
  - intros other Hne.
    destruct isRightClick, (object_get letter prev) as [[]|];
      rewrite ?object_get_set, ?object_get_delete; case_decide; congruence.
Qed.

(** X13. If a letter were both required and forbidden, no word would pass
    the letter constraints. *)
Theorem overlapping_constraints_reject_all (lc : LetterConstraints) (letter w : jsstring) :
  In letter (selected lc) -> In letter (deselected lc) ->
  passesLetterConstraints (Some lc) w = false.
Proof.
  intros Hs Hd. unfold passesLetterConstraints.
  destruct (all_selected w (selected lc)) eqn:Ea; [|reflexivity].
  destruct (no_deselected w (deselected lc)) eqn:En; [|reflexivity].
  exfalso. rewrite all_selected_spec in Ea. rewrite no_deselected_spec in En.
  exact (En letter Hd (Ea letter Hs)).
Qed.

End PickerFacts.

(** ** The source checkboxes *)

Section SourceFacts.

(** X14. Ticking a source that is not selected and unticking one that is
    keep the list of selected sources free of duplicates, so that no source
    is searched twice; after the change the source is selected exactly when
    its box is ticked, and the other sources are as they were. *)
Theorem source_selection_no_duplicates (key : jsstring) (checked : bool)
    (selectedSources : list jsstring) :
  NoDup selectedSources -> (checked = true -> ~ In key selectedSources) ->
  NoDup (onChange_source key checked selectedSources) /\
  forall s, In s (onChange_source key checked selectedSources)
            <-> if decide (s = key) then checked = true else In s selectedSources.
Proof.
  intros Hnd Hc. unfold onChange_source. split.
  - destruct checked.
    + apply NoDup_app. split; [exact Hnd|]. split; [|apply NoDup_singleton].
      intros s Hs Hs'. apply list_elem_of_singleton in Hs'. subst.
      apply Hc; [reflexivity|]. now apply list_elem_of_In.
    + apply NoDup_ListNoDup, List.NoDup_filter, NoDup_ListNoDup, Hnd.
  - intros s. destruct checked.
    + rewrite in_app_iff. destruct (decide (s = key)) as [->|Hne].
      * split; [reflexivity|]. intros _. right. now left.
      * split; [intros [H|[H|[]]]; [exact H|congruence]|auto].
    + rewrite filter_In. destruct (decide (s = key)) as [->|Hne].
      * rewrite bool_decide_eq_true_2 by reflexivity. cbn. split; [intros [_ H]|]; discriminate.
      * rewrite bool_decide_eq_false_2 by assumption. cbn. tauto.
Qed.

End SourceFacts.

(** ** Stripping pointed text *)

Section StripFacts.
Local Open Scope N_scope.
Variable U : UnicodeData.

Lemma reorder_insert_Forall (P : N -> Prop) c before :
  P c -> Forall P before -> Forall P (reorder_insert U c before).
Proof.
  intros Hc. induction before as [|p before IH]; intros Hb; cbn [reorder_insert].
  - now constructor.
  - inversion Hb as [|? ? Hp Hb']; subst.
    destruct (_ && _); constructor; auto.
Qed.

Lemma canonical_reorder_Forall (P : N -> Prop) l :
  Forall P l -> Forall P (canonical_reorder U l).
Proof.
  unfold canonical_reorder. intros H.
  enough (G : forall before, Forall P before ->
            Forall P (fold_left (fun before c => reorder_insert U c before) l before)).
  { apply Forall_rev, G. constructor. }
  induction H as [|c l Hc Hl IH]; intros before Hb; cbn [fold_left]; [exact Hb|].
  apply IH. now apply reorder_insert_Forall.
Qed.

(** Only marks change places in the canonical ordering of pointed text. *)
Lemma reorder_insert_letters c before :
  (combining_class U c <> 0 -> is_mark U c = true) ->
  Forall (fun p => combining_class U p <> 0 -> is_mark U p = true) before ->
  List.filter (fun p => negb (is_mark U p)) (reorder_insert U c before)
  = List.filter (fun p => negb (is_mark U p)) (c :: before).
Proof.
  intros Hc. induction before as [|p before IH]; intros Hb; cbn [reorder_insert];
    [reflexivity|].
  inversion Hb as [|? ? Hp Hb']; subst.
  destruct ((0 <? combining_class U c) && (combining_class U c <? combining_class U p))
    eqn:E; [|reflexivity].
  apply andb_prop in E as [E1 E2]. apply N.ltb_lt in E1, E2.
  cbn [List.filter]. rewrite (IH Hb'). cbn [List.filter].
  rewrite Hc, Hp by lia. reflexivity.
Qed.

Lemma canonical_reorder_letters l :
  Forall (fun p => combining_class U p <> 0 -> is_mark U p = true) l ->
  List.filter (fun p => negb (is_mark U p)) (canonical_reorder U l)
  = List.filter (fun p => negb (is_mark U p)) l.
Proof.
  unfold canonical_reorder. intros H.
  enough (G : forall before,
            Forall (fun p => combining_class U p <> 0 -> is_mark U p = true) before ->
            List.filter (fun p => negb (is_mark U p))
              (fold_left (fun before c => reorder_insert U c before) l before)
            = List.filter (fun p => negb (is_mark U p)) (rev l ++ before)).
  { rewrite List.filter_rev, G by constructor.
    now rewrite app_nil_r, List.filter_rev, rev_involutive. }
  induction H as [|c l Hc Hl IH]; intros before Hb; cbn [fold_left]; [reflexivity|].
  rewrite IH by now apply reorder_insert_Forall.
  rewrite !List.filter_app, reorder_insert_letters by assumption.
  cbn [rev]. rewrite List.filter_app, <- app_assoc. f_equal.
  change (c :: before) with ([c] ++ before). now rewrite List.filter_app.
Qed.

Lemma fromCodePoints_bmp l : Forall (fun c => c < 0x10000) l -> fromCodePoints l = l.
Proof.
  induction 1 as [|c l Hc Hl IH]; [reflexivity|].
  unfold fromCodePoints in *. cbn [flat_map]. rewrite IH. unfold fromCodePoint.
  apply N.ltb_lt in Hc. now rewrite Hc.
Qed.

Lemma Array_from_no_lead w :
  Forall (fun c => is_lead_surrogate c = false) w -> Array_from w = map (fun c => [c]) w.
Proof.
  induction 1 as [|c l Hc Hl IH]; [reflexivity|].
  cbn [Array_from map]. rewrite Hc. cbn [andb]. destruct l; [reflexivity|].
  now rewrite IH.
Qed.

Lemma filter_marks_units l :
  concat (List.filter (fun ch => negb (test U MARK ch)) (map (fun c => [c]) l))
  = List.filter (fun c => negb (is_mark U c)) l.
Proof.
  induction l as [|c l IH]; [reflexivity|].
  cbn [map List.filter]. rewrite test_MARK_single.
  destruct (is_mark U c); cbn [negb concat app]; now rewrite IH.
Qed.

Lemma stripNiqqud_pointed w :
  pointed_text U w ->
  stripNiqqud U w = List.filter (fun c => negb (is_mark U c)) w.
Proof.
  intros H. unfold stripNiqqud, normalize_NFKD.
  assert (Hlead : Forall (fun c => is_lead_surrogate c = false) w).
  { apply Forall_forall. intros c Hc. apply list_elem_of_In in Hc. apply (H c Hc). }
  assert (Hbmp : Forall (fun c => c < 0x10000) w).
  { apply Forall_forall. intros c Hc. apply list_elem_of_In in Hc. apply (H c Hc). }
  assert (Hccc : Forall (fun p => combining_class U p <> 0 -> is_mark U p = true) w).
  { apply Forall_forall. intros c Hc. apply list_elem_of_In in Hc. apply (H c Hc). }
  rewrite toCodePoints_no_lead by exact Hlead.
  rewrite flat_map_undecomposed by (intros c Hc; apply (H c Hc)).
  rewrite fromCodePoints_bmp by now apply canonical_reorder_Forall.
  rewrite Array_from_no_lead by now apply canonical_reorder_Forall.
  rewrite filter_marks_units. now apply canonical_reorder_letters.
Qed.

(** X15. On pointed text (16-bit characters that do not decompose, the
    characters of non-zero combining class being marks) [stripNiqqud]
    removes the combining marks and nothing else, and keeps the other
    characters in their order; stripping twice is stripping once. *)
Theorem strip_removes_exactly_the_marks (w : jsstring) :
  pointed_text U w ->
  stripNiqqud U w = List.filter (fun c => negb (is_mark U c)) w /\
  stripNiqqud U (stripNiqqud U w) = stripNiqqud U w.
Proof.
  intros H. pose proof (stripNiqqud_pointed w H) as E. split; [exact E|].
  rewrite E. rewrite stripNiqqud_pointed.
  - induction w as [|c w IH]; [reflexivity|]. cbn [List.filter].
    destruct (is_mark U c) eqn:Em; cbn [negb List.filter].
    + apply IH; [intros d Hd; apply H; now right|].
      apply stripNiqqud_pointed. intros d Hd. apply H. now right.
    + rewrite Em. cbn [negb]. f_equal.
      apply IH; [intros d Hd; apply H; now right|].
      apply stripNiqqud_pointed. intros d Hd. apply H. now right.
  - intros c Hc. apply filter_In in Hc as [Hc _]. now apply H.
Qed.

End StripFacts.

(** ** Word lists as text *)

Section TextFacts.
Local Open Scope N_scope.
Variable U : UnicodeData.

Lemma trimStart_head c s : is_white_space c = false -> trimStart (c :: s) = c :: s.
Proof. intros H. cbn. now rewrite H. Qed.

Lemma trim_no_white_space s :
  (forall c, In c s -> is_white_space c = false) -> trim s = s.
Proof.
  intros H. destruct s as [|c middle]; [reflexivity|].
  destruct (rev (c :: middle)) as [|d r] eqn:Er.
  - apply (f_equal (@length N)) in Er. rewrite length_rev in Er. discriminate.
  - unfold trim. rewrite trimStart_head by (apply H; now left).
    rewrite Er, trimStart_head.
    + rewrite <- Er. apply rev_involutive.
    + apply H. apply in_rev. rewrite Er. now left.
Qed.

Lemma split_lines_from_line w : forall cur rest,
  (forall c, In c w -> is_white_space c = false) ->
  split_lines_from (w ++ 10 :: rest) cur = (cur ++ w) :: split_lines_from rest [].
Proof.
  induction w as [|c w IH]; intros cur rest H.
  - cbn. now rewrite app_nil_r.
  - assert (Hc : is_white_space c = false) by (apply H; now left).
    assert (H10 : (c =? 10) = false).
    { destruct (N.eqb_spec c 10) as [->|]; [discriminate|reflexivity]. }
    assert (H13 : (c =? 13) = false).
    { destruct (N.eqb_spec c 13) as [->|]; [discriminate|reflexivity]. }
    cbn [app split_lines_from]. rewrite H10, H13. cbn [andb].
    destruct (w ++ 10 :: rest) as [|d r] eqn:E; [now destruct w|].
    rewrite <- E, IH by (intros; apply H; now right). now rewrite <- app_assoc.
Qed.

Lemma split_lines_from_crlf_line w : forall cur rest,
  (forall c, In c w -> is_white_space c = false) ->
  split_lines_from (w ++ 13 :: 10 :: rest) cur = (cur ++ w) :: split_lines_from rest [].
Proof.
  induction w as [|c w IH]; intros cur rest H.
  - cbn. now rewrite app_nil_r.
  - assert (Hc : is_white_space c = false) by (apply H; now left).
    assert (H10 : (c =? 10) = false).
    { destruct (N.eqb_spec c 10) as [->|]; [discriminate|reflexivity]. }
    assert (H13 : (c =? 13) = false).
    { destruct (N.eqb_spec c 13) as [->|]; [discriminate|reflexivity]. }
    cbn [app split_lines_from]. rewrite H10, H13. cbn [andb].
    destruct (w ++ 13 :: 10 :: rest) as [|d r] eqn:E; [now destruct w|].
    rewrite <- E, IH by (intros; apply H; now right). now rewrite <- app_assoc.
Qed.

Lemma split_lines_from_last w : forall cur,
  (forall c, In c w -> is_white_space c = false) ->
  split_lines_from w cur = [cur ++ w].
Proof.
  induction w as [|c w IH]; intros cur H.
  - cbn. now rewrite app_nil_r.
  - assert (Hc : is_white_space c = false) by (apply H; now left).
    assert (H10 : (c =? 10) = false).
    { destruct (N.eqb_spec c 10) as [->|]; [discriminate|reflexivity]. }
    assert (H13 : (c =? 13) = false).
    { destruct (N.eqb_spec c 13) as [->|]; [discriminate|reflexivity]. }
    cbn [split_lines_from]. rewrite H10, H13. cbn [andb].
    destruct w as [|d r] eqn:E; [reflexivity|].
    rewrite IH by (intros; apply H; now right). now rewrite <- app_assoc.
Qed.

(** Words written one per line are the lines of the text, whether the
    lines end with a line feed or with a carriage return and a line feed. *)
Lemma split_lines_join (sep : jsstring) ws :
  sep = [10] \/ sep = [13; 10] ->
  Forall (fun w => forall c, In c w -> is_white_space c = false) ws -> ws <> [] ->
  split_lines (join sep ws) = ws.
Proof.
  intros Hsep H Hne. unfold split_lines.
  induction H as [|w ws Hw Hws IH]; [contradiction|].
  destruct ws as [|w' ws'].
  - cbn [join]. now rewrite split_lines_from_last.
  - change (join sep (w :: w' :: ws')) with (w ++ sep ++ join sep (w' :: ws')).
    destruct Hsep as [-> | ->]; cbn [app].
    + rewrite split_lines_from_line by exact Hw. cbn [app]. f_equal.
      apply IH. discriminate.
    + rewrite split_lines_from_crlf_line by exact Hw. cbn [app]. f_equal.
      apply IH. discriminate.
Qed.

Lemma filter_all {A} (f : A -> bool) l :
  (forall x, In x l -> f x = true) -> List.filter f l = l.
Proof.
  induction l as [|x l IH]; intros H; [reflexivity|].
  cbn. rewrite H by now left. f_equal. apply IH. intros; apply H; now right.
Qed.

Lemma map_fixed {A} (f : A -> A) l :
  (forall x, In x l -> f x = x) -> map f l = l.
Proof.
  induction l as [|x l IH]; intros H; [reflexivity|].
  cbn. rewrite H by now left. f_equal. apply IH. intros; apply H; now right.
Qed.

Lemma Word_tests w :
  Word w -> negb (test U WHITESPACE w) && test U HEBREW_BLOCK w = true.
Proof.
  intros (Hne & Hws & c & Hc & Hb). rewrite test_WHITESPACE, test_HEBREW_BLOCK.
  apply andb_true_iff. split.
  - apply negb_true_iff. destruct (existsb is_white_space w) eqn:E; [|reflexivity].
    apply existsb_exists in E as (d & Hd & E). rewrite (Hws d Hd) in E. discriminate.
  - apply existsb_exists. exists c. split; [exact Hc|].
    destruct Hb as [H1 H2]. apply N.leb_le in H1, H2. now rewrite H1, H2.
Qed.

Lemma candidate_words_join (sep : jsstring) ws :
  sep = [10] \/ sep = [13; 10] -> Forall Word ws ->
  candidate_words U (join sep ws) = ws.
Proof.
  intros Hsep H. destruct ws as [|w0 ws0] eqn:E; [reflexivity|]. rewrite <- E in *.
  assert (Hne : ws <> []) by (rewrite E; discriminate). clear E.
  unfold candidate_words. rewrite split_lines_join; [|exact Hsep| |exact Hne].
  - rewrite map_fixed.
    + rewrite (filter_all (fun s => negb (Nat.eqb (length s) 0))).
      * apply filter_all. intros w Hw. apply Word_tests.
        rewrite Forall_forall in H. apply H. now apply list_elem_of_In.
      * intros w Hw. rewrite Forall_forall in H.
        apply list_elem_of_In, H in Hw. destruct Hw as (Hw & _).
        destruct w; [contradiction|reflexivity].
    + intros w Hw. apply trim_no_white_space. rewrite Forall_forall in H.
      apply list_elem_of_In, H in Hw. apply Hw.
  - eapply Forall_impl; [exact H|]. intros w Hw. apply Hw.
Qed.

Lemma last_append {A} (l1 l2 : list A) d :
  l2 <> [] -> List.last (l1 ++ l2) d = List.last l2 d.
Proof.
  intros H. induction l1 as [|x l1 IH]; [reflexivity|].
  cbn [app]. destruct (l1 ++ l2) eqn:E; [|exact IH].
  apply app_eq_nil in E as [_ E]. contradiction.
Qed.

Lemma join_first (sep : jsstring) c w ws : exists middle, join sep ((c :: w) :: ws) = c :: middle.
Proof. destruct ws; cbn [join app]; eauto. Qed.

Lemma join_last (sep : jsstring) ws :
  Forall (fun w => w <> []) ws -> ws <> [] ->
  List.last (join sep ws) 0 = List.last (List.last ws []) 0.
Proof.
  induction 1 as [|w ws Hw Hws IH]; intros Hne; [contradiction|].
  destruct ws as [|w' ws']; [reflexivity|].
  change (join sep (w :: w' :: ws')) with (w ++ sep ++ join sep (w' :: ws')).
  change (List.last (w :: w' :: ws') []) with (List.last (w' :: ws') []).
  assert (Hj : join sep (w' :: ws') <> []).
  { inversion Hws as [|? ? Hw' _]; subst. destruct w' as [|c w']; [contradiction|].
    destruct (join_first sep c w' ws') as (middle & ->). discriminate. }
  rewrite !last_append; [now apply IH| exact Hj |].
  intros E. apply app_eq_nil in E as [_ E]. contradiction.
Qed.

(** A text that neither begins nor ends with white space is its own trim. *)
Lemma trim_ends c middle :
  is_white_space c = false -> is_white_space (List.last (c :: middle) 0) = false ->
  trim (c :: middle) = c :: middle.
Proof.
  intros Hc Hd. unfold trim. rewrite trimStart_head by exact Hc.
  rewrite (app_removelast_last 0 (l := c :: middle)) at 1 by discriminate.
  rewrite rev_app_distr. cbn [rev app]. rewrite trimStart_head by exact Hd.
  change (List.last (c :: middle) 0 :: rev (removelast (c :: middle)))
    with (rev [List.last (c :: middle) 0] ++ rev (removelast (c :: middle))).
  rewrite <- rev_app_distr, rev_involutive.
  symmetry. apply app_removelast_last. discriminate.
Qed.

Lemma trim_join (sep : jsstring) ws :
  Forall Word ws -> trim (join sep ws) = join sep ws.
Proof.
  intros H. destruct ws as [|w ws0] eqn:E; [reflexivity|]. rewrite <- E in *.
  assert (Hne : ws <> []) by (rewrite E; discriminate).
  assert (Hnil : Forall (fun w => w <> []) ws).
  { eapply Forall_impl; [exact H|]. intros x Hx. apply Hx. }
  pose proof (join_last sep ws Hnil Hne) as Hlast.
  assert (Hw : Word w).
  { rewrite Forall_forall in H. apply H. rewrite E. apply list_elem_of_here. }
  destruct w as [|c w']; [now destruct Hw|].
  assert (Hj : exists middle, join sep ws = c :: middle)
    by (rewrite E; apply join_first).
  destruct Hj as (middle & Hj). rewrite Hj in *.
  apply trim_ends.
  - apply Hw. now left.
  - rewrite Hlast.
    assert (Hin : In (List.last ws []) ws).
    { destruct (exists_last Hne) as (ws' & x & ->). rewrite last_last.
      apply in_or_app. right. now left. }
    rewrite Forall_forall in H. apply list_elem_of_In, H in Hin.
    destruct Hin as (Hx & Hws & _).
    apply Hws. destruct (exists_last Hx) as (x' & d & ->). rewrite last_last.
    apply in_or_app. right. now left.
Qed.

(** X16. A text that holds Words one per line, the lines ending with a line
    feed or with a carriage return and a line feed, loads as these Words in
    their order: as pasted text, and from a source whose resource is that
    text. *)
Theorem word_lines_load_back (fetch : jsstring -> fetch_result) (batch_size : positive)
    (sep : jsstring) (ws : list jsstring) (unique wholeWord : bool) :
  sep = [10] \/ sep = [13; 10] -> Forall Word ws -> ws <> [] ->
  loadWordlist U fetch batch_size (str "custom") None (Some (join sep ws))
    {| opt_stripNiqqud := false; opt_unique := unique; opt_wholeWord := wholeWord |}
  = Returns ws /\
  forall sourceKey status,
    sourceKey <> str "custom" ->
    fetch (default (str "undefined") (sources !! sourceKey))
    = Response true status (join sep ws) ->
    loadWordlist U fetch batch_size sourceKey None None
      {| opt_stripNiqqud := false; opt_unique := unique; opt_wholeWord := wholeWord |}
    = Returns ws.
Proof.
  intros Hsep H Hne. split.
  - unfold loadWordlist. rewrite decide_True by reflexivity.
    assert (Hg : given (Some (join sep ws)) = true).
    { unfold given. rewrite trim_join by exact H.
      destruct ws as [|w ws']; [contradiction|].
      inversion H as [|? ? Hw _]; subst. destruct w as [|c w]; [now destruct Hw|].
      destruct (join_first sep c w ws') as (middle & ->). reflexivity. }
    rewrite Hg. cbv [mbind outcome_bind mret outcome_ret default opt_stripNiqqud id].
    now rewrite candidate_words_join.
  - intros sourceKey status Hk Hf. unfold loadWordlist, fetch_text.
    rewrite decide_False by exact Hk. rewrite Hf.
    cbv [mbind outcome_bind mret outcome_ret default opt_stripNiqqud id].
    now rewrite candidate_words_join.
Qed.


Lemma split_on_pieces sep s : forall cur, split_on sep s cur <> [].
Proof.
  induction s as [|c s IH]; intros cur; cbn [split_on]; [discriminate|].
  destruct (_ =? _); [discriminate|apply IH].
Qed.

(** The last piece of a split holds no separator. *)
Lemma split_on_last sep s : forall cur,
  (In sep s -> ~ In sep (List.last (split_on sep s cur) [])) /\
  (~ In sep s -> List.last (split_on sep s cur) [] = cur ++ s).
Proof.
  induction s as [|c s IH]; intros cur.
  - cbn. rewrite app_nil_r. split; [intros []|reflexivity].
  - cbn [split_on]. destruct (N.eqb_spec c sep) as [->|Hne].
    + destruct (IH []) as (Hin & Hout).
      assert (Hl : List.last (cur :: split_on sep s []) []
                   = List.last (split_on sep s []) []).
      { pose proof (split_on_pieces sep s []).
        destruct (split_on sep s []); [contradiction|reflexivity]. }
      rewrite Hl. split; [|intros H; exfalso; apply H; now left].
      intros _. destruct (in_dec N.eq_dec sep s) as [Hs|Hs]; [now apply Hin|].
      rewrite (Hout Hs). exact Hs.
    + destruct (IH (cur ++ [c])) as (Hin & Hout). split.
      * intros [H|H]; [congruence|]. now apply Hin.
      * intros H. rewrite Hout, <- app_assoc; [reflexivity|].
        intros Hs. apply H. now right.
Qed.

Lemma urlName_of_named customUrl :
  urlName_of customUrl <> [] /\ ~ In (chr "/") (urlName_of customUrl).
Proof.
  unfold urlName_of.
  destruct (Nat.eqb (length (List.last (split_on (chr "/") customUrl []) [])) 0) eqn:E.
  - split; [discriminate|]. cbn. intros H. 
    repeat (destruct H as [H|H]; [discriminate|]). exact H.
  - apply Nat.eqb_neq in E. split.
    + intros H. rewrite H in E. now apply E.
    + destruct (split_on_last (chr "/") customUrl []) as (Hin & Hout).
      destruct (in_dec N.eq_dec (chr "/") customUrl) as [Hs|Hs]; [now apply Hin|].
      rewrite (Hout Hs). exact Hs.
Qed.

(** X18. [handleDownloadFromUrl] either leaves the custom word lists and the
    URL field as they were (no URL, a failed download, no valid word), or
    clears the URL field and appends one list to the custom word lists,
    the lists already there being kept: the new list is not empty, holds
    Words only, and its name is not empty and holds no slash. *)
Theorem url_download_adds_one_list (fetch : jsstring -> fetch_result) (form : UrlForm) :
  let form' := fst (handleDownloadFromUrl U fetch form) in
  let outcome := snd (handleDownloadFromUrl U fetch form) in
  (form' = form /\ forall count urlName, outcome <> Downloaded count urlName) \/
  (exists newWordlist,
     url_customWordlists form' = url_customWordlists form ++ [newWordlist] /\
     url_customUrl form' = [] /\
     outcome = Downloaded (length (words newWordlist)) (name newWordlist) /\
     words newWordlist <> [] /\ Forall Word (words newWordlist) /\
     name newWordlist <> [] /\ ~ In (chr "/") (name newWordlist)).
Proof.
  cbv zeta. unfold handleDownloadFromUrl.
  destruct (Nat.eqb (length (trim (url_customUrl form))) 0);
    [left; split; [reflexivity|discriminate]|].
  destruct (fetch (trim (url_customUrl form))) as [reason|ok status text];
    [left; split; [reflexivity|discriminate]|].
  destruct ok; cbn [negb]; [|left; split; [reflexivity|discriminate]].
  destruct (Nat.eqb (length (candidate_words U text)) 0) eqn:E;
    [left; split; [reflexivity|discriminate]|].
  right. eexists. cbn [fst snd url_customWordlists url_customUrl].
  split; [reflexivity|]. split; [reflexivity|]. cbn [words name].
  split; [reflexivity|]. split; [|split].
  - intros H. rewrite H in E. discriminate.
  - apply Forall_forall. intros w Hw. apply list_elem_of_In in Hw.
    now apply candidate_words_spec in Hw.
  - apply urlName_of_named.
Qed.

End TextFacts.

(** ** Removing a custom word list *)

Section RemoveFacts.
Variable U : UnicodeData.

Lemma filter_indexed_from (index : nat) (l : list CustomList) : forall i,
  filter_indexed (fun _ j => negb (Nat.eqb j index)) l i
  = if Nat.ltb index i then l else firstn (index - i) l ++ skipn (S (index - i)) l.
Proof.
  induction l as [|x l IH]; intros i; cbn [filter_indexed].
  - destruct (Nat.ltb index i); [reflexivity|]. now rewrite firstn_nil, skipn_nil.
  - rewrite IH. destruct (Nat.eqb_spec i index) as [->|Hne]; cbn [negb].
    + rewrite (proj2 (Nat.ltb_lt index (S index))) by lia.
      rewrite Nat.ltb_irrefl, Nat.sub_diag. reflexivity.
    + destruct (Nat.ltb_spec index i) as [Hlt|Hge].
      * rewrite (proj2 (Nat.ltb_lt index (S i))) by lia. reflexivity.
      * rewrite (proj2 (Nat.ltb_ge index (S i))) by lia.
        replace (index - i) with (S (index - S i)) by lia. reflexivity.
Qed.

(** X19. The button that removes a custom word list drops the list at its
    index and keeps the others in their order; an index beyond the lists
    changes nothing; and removing the list that a download from a URL has
    just added gives back the lists as they were before the download. *)
Theorem remove_custom_wordlist (index : nat) (customWordlists : list CustomList) :
  removeCustomWordlist index customWordlists
  = firstn index customWordlists ++ skipn (S index) customWordlists /\
  (length customWordlists <= index ->
   removeCustomWordlist index customWordlists = customWordlists) /\
  forall fetch customUrl count urlName,
    snd (handleDownloadFromUrl U fetch
           {| url_customUrl := customUrl; url_customWordlists := customWordlists |})
    = Downloaded count urlName ->
    removeCustomWordlist (length customWordlists)
      (url_customWordlists
         (fst (handleDownloadFromUrl U fetch
                 {| url_customUrl := customUrl;
                    url_customWordlists := customWordlists |})))
    = customWordlists.
Proof.
  assert (E : forall i l, removeCustomWordlist i l = firstn i l ++ skipn (S i) l).
  { intros i l. unfold removeCustomWordlist. rewrite filter_indexed_from.
    cbn [Nat.ltb Nat.leb]. now rewrite Nat.sub_0_r. }
  split; [apply E|]. split.
  - intros Hi. rewrite E, firstn_all2 by exact Hi. rewrite skipn_all2 by lia.
    apply app_nil_r.
  - intros fetch customUrl count urlName. unfold handleDownloadFromUrl.
    cbn [url_customUrl url_customWordlists].
    destruct (Nat.eqb (length (trim customUrl)) 0); [discriminate|].
    destruct (fetch (trim customUrl)) as [reason|ok status text]; [discriminate|].
    destruct ok; cbn [negb]; [|discriminate].
    destruct (Nat.eqb (length (candidate_words U text)) 0); [discriminate|].
    intros _. cbn [fst url_customWordlists]. rewrite E.
    rewrite firstn_app, Nat.sub_diag, firstn_all, firstn_O, app_nil_r.
    rewrite skipn_all2 by (rewrite length_app; cbn; lia). apply app_nil_r.
Qed.

End RemoveFacts.

(** ** Instances on concrete inputs *)

Section Instances.
Local Open Scope N_scope.

(** Scenario "basic wildcard search": of [אהבה], [אכזבה], [אהוב] the
    template [אה?ה] matches [אהבה] only. *)
Example basic_wildcard_search :
  fst <$> searchInWordlist unicode_excerpt BATCH_SIZE
            [[alef; he; bet; he]; [alef; kaf; zayin; bet; he]; [alef; he; vav; bet]]
            [alef; he; chr "?"; he] true None None
  = Returns [[alef; he; bet; he]].
Proof. reflexivity. Qed.

(** Scenario "letter constraints": of [שלום], [שלג], [שמש], with [ש]
    required and [ל] forbidden, [שמש] is left. *)
Example letter_constraints_search :
  List.filter
    (passesLetterConstraints (Some {| selected := [[shin]]; deselected := [[lamed]] |}))
    [[shin; lamed; vav; final_mem]; [shin; lamed; gimel]; [shin; mem; shin]]
  = [[shin; mem; shin]].
Proof. reflexivity. Qed.

(** Five words in batches of two: three progress calls, the same matches. *)
Example batched_search :
  searchInWordlist unicode_excerpt 2
    [[alef; bet]; [bet; bet]; [alef; gimel; bet]; [alef]; [alef; he; bet]]
    alef_wildcard_bet true
    (Some (fun currentBatch totalBatches =>
             [Progress (SearchingPart (str "list") currentBatch totalBatches)]))
    None
  = Returns ([[alef; gimel; bet]; [alef; he; bet]],
             [Progress (SearchingPart (str "list") 1 3);
              Progress (SearchingPart (str "list") 2 3);
              Progress (SearchingPart (str "list") 3 3)]).
Proof. reflexivity. Qed.

(** The template of a single opening bracket: [new RegExp("^[$", "u")]
    throws. *)
Lemma unterminated_class_raises :
  templateToRegex unicode_excerpt (str "[") true = Throws SyntaxError.
Proof. reflexivity. Qed.

(** The template [א[אב]: the class is copied as it is, and nothing is
    compiled. *)
Lemma unterminated_class_witness :
  snd (scan [alef] false []) = false /\
  ~ In (chr "]") [alef; bet] /\
  regex_source ([alef] ++ chr "[" :: [alef; bet]) true
  = [chr "^"; alef; chr "["; alef; bet; chr "$"] /\
  templateToRegex unicode_excerpt ([alef] ++ chr "[" :: [alef; bet]) true
  = Throws SyntaxError.
Proof.
  assert (H1 : snd (scan [alef] false []) = false) by reflexivity.
  assert (H2 : ~ In (chr "]") [alef; bet]).
  { intros [H|[H|[]]]; discriminate. }
  split; [exact H1|]. split; [exact H2|].
  exact (unterminated_class_passed_through unicode_excerpt [alef] [alef; bet] true H1 H2).
Defined.

(** The scenario "dedupe and sort" with the comparison by code units. *)
Lemma sorted_results_witness :
  Sorted (collates_before compare_units) [[alef; alef]; [bet; bet]] /\
  handleSearch unicode_excerpt fetch_404 compare_units BATCH_SIZE dedupe_sort_form
  = Some (Returns {| matches := [[alef; alef]; [bet; bet]];
                     stats := {| total := 3; matched := 2 |} |}).
Proof.
  destruct (sorted_results compare_units compare_units_consistent unicode_excerpt
              fetch_404 BATCH_SIZE) as [Hsorted Hscenario].
  assert (Hrun : handleSearch unicode_excerpt fetch_404 compare_units BATCH_SIZE
                   dedupe_sort_form
                 = Some (Returns {| matches := [[alef; alef]; [bet; bet]];
                                    stats := {| total := 3; matched := 2 |} |})).
  { apply Hscenario. reflexivity. }
  split; [|exact Hrun].
  exact (proj1 (Hsorted dedupe_sort_form _ eq_refl Hrun)).
Defined.

(** Two sources, [adjectives] missing on the server and [nouns] served;
    the template [א?ב]. *)
Lemma load_failure_isolated_witness :
  exists r events,
    loadAndSearchWordlists unicode_excerpt fetch_nouns BATCH_SIZE alef_wildcard_bet
      plain_options true true None [str "adjectives"; str "nouns"] []
    = Returns (r, events) /\
    In (SourceStatus (str "adjectives") error 0 (Some (DefaultSourceFailed 404))) events /\
    In (SourceStatus (str "nouns") success 4 None) events /\
    matches r = [[alef; gimel; bet]; [alef; qamats; bet]].
Proof.
  destruct (load_failure_isolated unicode_excerpt fetch_nouns BATCH_SIZE alef_wildcard_bet
              plain_options true true None [str "adjectives"; str "nouns"] [])
    as ((acc1 & _ & Hrecorded & Hbegin & _) & _ & Hreturns & _).
  destruct (Hreturns _ (wildcard_regex unicode_excerpt)) as (r & events & Hrun & Hmatches).
  exists r, events. split; [exact Hrun|]. split; [|split].
  - destruct (Hbegin r events Hrun) as (more & ->). apply in_or_app. left.
    apply (Hrecorded (str "adjectives") (DefaultSourceFailed 404)).
    + now left.
    + reflexivity.
    + reflexivity.
  - revert Hrun. vm_compute. intros [= <- <-]. right. right. right. right. right. now left.
  - rewrite Hmatches. reflexivity.
Defined.

(** The source [adjectives] is missing on the server, the template is a
    single opening bracket and there is a custom word list: the run
    throws. *)
Lemma failing_source_run_throws :
  loadWordlist unicode_excerpt fetch_nouns BATCH_SIZE (str "adjectives") None None
    plain_options = Throws (DefaultSourceFailed 404) /\
  loadAndSearchWordlists unicode_excerpt fetch_nouns BATCH_SIZE (str "[")
    plain_options true true None [str "adjectives"; str "nouns"]
    [{| name := str "list"; words := [[alef; bet]] |}]
  = Throws SyntaxError.
Proof. split; reflexivity. Qed.

(** The words [בב], [אא], [בב] of a custom list with the template [??]
    and [unique]: the first [בב] and [אא] are left. *)
Lemma dedupe_first_occurrence_witness :
  exists r events,
    loadAndSearchWordlists unicode_excerpt fetch_404 BATCH_SIZE (str "??")
      {| opt_stripNiqqud := false; opt_unique := true; opt_wholeWord := true |}
      true true None []
      [{| name := str "list"; words := [[bet; bet]; [alef; alef]; [bet; bet]] |}]
    = Returns (r, events) /\
    matches r = [[bet; bet]; [alef; alef]] /\ matched (stats r) = 2%nat.
Proof.
  destruct (dedupe_first_occurrence unicode_excerpt fetch_404 BATCH_SIZE (str "??")
              true true None) as (Hunique & Hreturns & _).
  destruct (templateToRegex unicode_excerpt (str "??") true) as [rx|e|] eqn:Hrx;
    [|vm_compute in Hrx; discriminate..].
  destruct (Hreturns false true []
              [{| name := str "list"; words := [[bet; bet]; [alef; alef]; [bet; bet]] |}]
              rx Hrx) as (r & events & Hrun & _).
  exists r, events. split; [exact Hrun|].
  destruct (Hunique false true [] _ r events Hrun) as [Hmatches Hmatched].
  assert (E : matches r = [[bet; bet]; [alef; alef]]).
  { rewrite Hmatches. vm_compute. reflexivity. }
  split; [exact E|]. rewrite Hmatched, E. reflexivity.
Defined.

(** The same run: 4 words loaded, 2 matched. *)
Lemma stats_consistent_witness :
  exists r events,
    loadAndSearchWordlists unicode_excerpt fetch_nouns BATCH_SIZE alef_wildcard_bet
      plain_options true true None [str "adjectives"; str "nouns"] []
    = Returns (r, events) /\
    matched (stats r) = length (matches r) /\
    total (stats r) = 4%nat.
Proof.
  destruct (loadAndSearchWordlists unicode_excerpt fetch_nouns BATCH_SIZE alef_wildcard_bet
              plain_options true true None [str "adjectives"; str "nouns"] [])
    as [[r events]|e|] eqn:Hrun; [|vm_compute in Hrun; discriminate..].
  exists r, events. split; [reflexivity|].
  exact (stats_consistent unicode_excerpt fetch_nouns BATCH_SIZE alef_wildcard_bet
           plain_options true true None [str "adjectives"; str "nouns"] [] r events Hrun).
Defined.

(** The wide alef U+FB21 is no combining mark, and neither is [ב]; NFKD
    replaces it by the letter alef. *)
Lemma strip_changes_markless_word :
  forallb (fun c => negb (is_mark unicode_excerpt c)) (toCodePoints [0xFB21; bet]) = true /\
  stripNiqqud unicode_excerpt [0xFB21; bet] = [alef; bet] /\
  stripNiqqud unicode_excerpt [0xFB21; bet] <> [0xFB21; bet].
Proof. split; [reflexivity|]. split; [reflexivity|discriminate]. Qed.

(** The word [אב] is made of inert code points; of the word [אָב] the
    qamats is removed. *)
Lemma strip_leaves_inert_words_witness :
  well_formed [alef; bet] /\
  (forall c, In c (toCodePoints [alef; bet]) -> inert unicode_excerpt c) /\
  stripNiqqud unicode_excerpt [alef; bet] = [alef; bet] /\
  Forall (fun c => scalar_value c = true) (nfkd_code_points unicode_excerpt pointed_av) /\
  toCodePoints (stripNiqqud unicode_excerpt pointed_av) = [alef; bet].
Proof.
  assert (H1 : well_formed [alef; bet]).
  { repeat constructor; unfold alef, bet; lia. }
  assert (H2 : forall c, In c (toCodePoints [alef; bet]) -> inert unicode_excerpt c).
  { intros c [<-|[<-|[]]]; repeat split. }
  assert (H3 : Forall (fun c => scalar_value c = true)
                 (nfkd_code_points unicode_excerpt pointed_av)).
  { repeat constructor. }
  split; [exact H1|]. split; [exact H2|].
  split; [exact (proj2 (proj2 (strip_leaves_inert_words unicode_excerpt [alef; bet])) H1 H2)|].
  split; [exact H3|].
  destruct (proj1 (proj2 (strip_leaves_inert_words unicode_excerpt pointed_av)) H3)
    as (_ & E & _).
  rewrite E. reflexivity.
Defined.

(** A pasted line that is a lone qamats (U+05B8, in the Hebrew block)
    passes the checks and is then stripped to the empty word. *)
Lemma loader_returns_empty_word :
  loadWordlist unicode_excerpt fetch_404 BATCH_SIZE (str "custom") None (Some [qamats])
    {| opt_stripNiqqud := true; opt_unique := false; opt_wholeWord := true |}
  = Returns [[]].
Proof. reflexivity. Qed.

(** The words loaded from [nouns.txt] are Words. *)
Lemma loaded_words_valid_witness :
  exists ws,
    loadWordlist unicode_excerpt fetch_nouns BATCH_SIZE (str "nouns") None None
      {| opt_stripNiqqud := false; opt_unique := false; opt_wholeWord := true |}
    = Returns ws /\
    ws = [[alef; bet]; [alef; gimel; bet]; [alef; qamats; bet]; [bet; bet]] /\
    Forall Word ws.
Proof.
  eexists. split; [reflexivity|]. split; [reflexivity|].
  exact (proj1 (loaded_words_valid unicode_excerpt fetch_nouns BATCH_SIZE (str "nouns")
                  None None false true) _ eq_refl).
Defined.

End Instances.

(** ** Instances of the further properties *)

Section FurtherInstances.
Local Open Scope N_scope.

Lemma Word_av : Word [alef; bet].
Proof.
  split; [discriminate|]. split.
  - intros c [<-|[<-|[]]]; reflexivity.
  - exists alef. split; [now left|]. unfold hebrew_block, alef. lia.
Defined.

Lemma Word_bb : Word [bet; bet].
Proof.
  split; [discriminate|]. split.
  - intros c [<-|[<-|[]]]; reflexivity.
  - exists bet. split; [now left|]. unfold hebrew_block, bet. lia.
Defined.

(** The template [mixed_template] with [wholeWord]. *)
Lemma whole_word_template_witness :
  forallb plain_item mixed_template = true /\
  exists rx,
    templateToRegex unicode_excerpt (render mixed_template) true = Returns rx /\
    forall w, test unicode_excerpt rx w = faces mixed_template (toCodePoints w).
Proof.
  split; [reflexivity|].
  exact (whole_word_template unicode_excerpt mixed_template eq_refl).
Defined.

(** The same template without [wholeWord]. *)
Lemma substring_template_witness :
  forallb plain_item mixed_template = true /\
  exists rx,
    templateToRegex unicode_excerpt (render mixed_template) false = Returns rx /\
    forall w, test unicode_excerpt rx w = true <->
      exists before mid after,
        toCodePoints w = before ++ mid ++ after /\
        faces mixed_template mid = true.
Proof.
  split; [reflexivity|].
  exact (substring_template unicode_excerpt mixed_template eq_refl).
Defined.

(** The template [alef_stop_smile]: the full stop stands for itself, and
    the surrogate pair for its character. *)
Lemma literal_template_exact_witness :
  forallb literal_unit alef_stop_smile = true /\
  exists rx,
    templateToRegex unicode_excerpt alef_stop_smile true = Returns rx /\
    (forall w, test unicode_excerpt rx w = true
               <-> toCodePoints w = toCodePoints alef_stop_smile) /\
    (well_formed alef_stop_smile ->
     forall w, well_formed w ->
               (test unicode_excerpt rx w = true <-> w = alef_stop_smile)).
Proof.
  split; [reflexivity|].
  exact (literal_template_exact unicode_excerpt alef_stop_smile eq_refl).
Defined.

(** Two sources, [adjectives] missing on the server and [nouns] served. *)
Lemma one_report_per_source_witness :
  exists r events,
    loadAndSearchWordlists unicode_excerpt fetch_nouns BATCH_SIZE alef_wildcard_bet
      plain_options true true None [str "adjectives"; str "nouns"] []
    = Returns (r, events) /\
    Forall2 (fun sourceKey ev =>
               exists entry,
                 ev = status_call sourceKey entry /\
                 reported unicode_excerpt fetch_nouns BATCH_SIZE alef_wildcard_bet
                   plain_options sourceKey entry)
            [str "adjectives"; str "nouns"] (source_statuses events).
Proof.
  destruct (loadAndSearchWordlists unicode_excerpt fetch_nouns BATCH_SIZE alef_wildcard_bet
              plain_options true true None [str "adjectives"; str "nouns"] [])
    as [[r events]|e|] eqn:Hrun; [|vm_compute in Hrun; discriminate..].
  exists r, events. split; [reflexivity|].
  exact (one_report_per_source unicode_excerpt fetch_nouns BATCH_SIZE alef_wildcard_bet
           plain_options true None [str "adjectives"; str "nouns"] [] r events Hrun).
Defined.

(** The search of [adjectives], missing on the server, and [nouns]: the
    state [sourceStatus] has the two sources and no other. *)
Lemma source_status_shown_witness :
  exists r events,
    handleSearch_call unicode_excerpt fetch_nouns BATCH_SIZE two_sources_form
    = Returns (r, events) /\
    sourceStatus_after events !! str "verbs" = None /\
    exists entry,
      sourceStatus_after events !! str "nouns" = Some entry /\
      reported unicode_excerpt fetch_nouns BATCH_SIZE (form_pattern two_sources_form)
        (searchOpts_of two_sources_form) (str "nouns") entry.
Proof.
  destruct (handleSearch_call unicode_excerpt fetch_nouns BATCH_SIZE two_sources_form)
    as [[r events]|e|] eqn:Hrun; [|vm_compute in Hrun; discriminate..].
  exists r, events. split; [reflexivity|].
  pose proof (source_status_shown unicode_excerpt fetch_nouns BATCH_SIZE two_sources_form
                r events Hrun) as Hshown.
  split.
  - apply (Hshown (str "verbs")). intros [H|[H|[]]]; discriminate.
  - apply (Hshown (str "nouns")). right. now left.
Defined.

(** The scenario "dedupe and sort": two results listed, two counted, of
    three words. *)
Lemma displayed_counters_witness :
  handleSearch unicode_excerpt fetch_404 compare_units BATCH_SIZE dedupe_sort_form
  = Some (Returns {| matches := [[alef; alef]; [bet; bet]];
                     stats := {| total := 3; matched := 2 |} |}) /\
  (2 = length [[alef; alef]; [bet; bet]] /\ 2 <= 3)%nat.
Proof.
  assert (Hrun : handleSearch unicode_excerpt fetch_404 compare_units BATCH_SIZE
                   dedupe_sort_form
                 = Some (Returns {| matches := [[alef; alef]; [bet; bet]];
                                    stats := {| total := 3; matched := 2 |} |}))
    by (vm_compute; reflexivity).
  split; [exact Hrun|].
  exact (displayed_counters unicode_excerpt fetch_404 compare_units BATCH_SIZE
           dedupe_sort_form _ Hrun).
Defined.

(** The same scenario: the results are the words of the custom list that
    the template [??] accepts. *)
Lemma results_sound_and_complete_witness :
  exists r rx,
    handleSearch unicode_excerpt fetch_404 compare_units BATCH_SIZE dedupe_sort_form
    = Some (Returns r) /\
    templateToRegex unicode_excerpt (str "??") true = Returns rx /\
    (In [bet; bet] (matches r) <->
     accepts unicode_excerpt rx (Some (summary_of dedupe_sort_form)) [bet; bet] = true /\
     ((exists sourceKey loaded,
         In sourceKey (form_selectedSources dedupe_sort_form) /\
         loadWordlist unicode_excerpt fetch_404 BATCH_SIZE sourceKey None None
           (searchOpts_of dedupe_sort_form) = Returns loaded /\ In [bet; bet] loaded) \/
      (exists customList, In customList (form_customWordlists dedupe_sort_form) /\
                          In [bet; bet] (words customList)) \/
      In [bet; bet] (candidate_words unicode_excerpt (trim (form_paste dedupe_sort_form))))).
Proof.
  assert (Hrun : handleSearch unicode_excerpt fetch_404 compare_units BATCH_SIZE
                   dedupe_sort_form
                 = Some (Returns {| matches := [[alef; alef]; [bet; bet]];
                                    stats := {| total := 3; matched := 2 |} |}))
    by (vm_compute; reflexivity).
  destruct (templateToRegex unicode_excerpt (str "??") true) as [rx|e|] eqn:Hrx;
    [|vm_compute in Hrx; discriminate..].
  eexists _, rx. split; [exact Hrun|]. split; [reflexivity|].
  exact (results_sound_and_complete unicode_excerpt fetch_404 compare_units BATCH_SIZE
           dedupe_sort_form _ rx Hrun Hrx [bet; bet]).
Defined.

(** The template of a single opening bracket: a search of [nouns.txt]
    ends with no results of 4 words, the same search with a pasted word
    ends with the error. *)
Lemma invalid_template_outcome_witness :
  handleSearch unicode_excerpt fetch_nouns compare_units BATCH_SIZE open_bracket_form
  = Some (Returns {| matches := []; stats := {| total := 4; matched := 0 |} |}) /\
  handleSearch unicode_excerpt fetch_nouns compare_units BATCH_SIZE open_bracket_paste_form
  = Some (Throws SyntaxError).
Proof.
  assert (Hp : str "[" <> []) by discriminate.
  assert (He : templateToRegex unicode_excerpt (str "[") true = Throws SyntaxError)
    by reflexivity.
  split.
  - assert (Hs : [str "nouns"] <> []) by discriminate.
    exact (proj1 (invalid_template_outcome unicode_excerpt fetch_nouns compare_units
                    BATCH_SIZE open_bracket_form SyntaxError Hp He) Hs eq_refl eq_refl).
  - assert (Ht : trim [alef; bet] <> []) by discriminate.
    exact (proj2 (invalid_template_outcome unicode_excerpt fetch_nouns compare_units
                    BATCH_SIZE open_bracket_paste_form SyntaxError Hp He)
             (or_intror Ht)).
Defined.

(** The letter [ש] required and forbidden: the word [שמש] does not pass. *)
Lemma overlapping_constraints_reject_all_witness :
  In [shin] [[shin]] /\
  passesLetterConstraints (Some {| selected := [[shin]]; deselected := [[shin]] |})
    [shin; mem; shin] = false.
Proof.
  assert (H : In [shin] [[shin]]) by now left.
  split; [exact H|].
  exact (overlapping_constraints_reject_all
           {| selected := [[shin]]; deselected := [[shin]] |} [shin] [shin; mem; shin] H H).
Defined.

(** Ticking [nouns] when [verbs] is selected. *)
Lemma source_selection_no_duplicates_witness :
  NoDup [str "verbs"] /\
  NoDup (onChange_source (str "nouns") true [str "verbs"]) /\
  forall s, In s (onChange_source (str "nouns") true [str "verbs"])
            <-> if decide (s = str "nouns") then true = true else In s [str "verbs"].
Proof.
  assert (H1 : NoDup [str "verbs"]) by apply NoDup_singleton.
  assert (H2 : true = true -> ~ In (str "nouns") [str "verbs"]).
  { intros _ [H|[]]. discriminate. }
  split; [exact H1|].
  exact (source_selection_no_duplicates (str "nouns") true [str "verbs"] H1 H2).
Defined.

(** The word [אָב]: the qamats is removed. *)
Lemma strip_removes_exactly_the_marks_witness :
  pointed_text unicode_excerpt pointed_av /\
  stripNiqqud unicode_excerpt pointed_av = [alef; bet] /\
  stripNiqqud unicode_excerpt (stripNiqqud unicode_excerpt pointed_av)
  = stripNiqqud unicode_excerpt pointed_av.
Proof.
  assert (H : pointed_text unicode_excerpt pointed_av).
  { intros c [<-|[<-|[<-|[]]]]; (split; [reflexivity|]); (split; [reflexivity|]);
      (split; [reflexivity|]); intros Hc;
      first [reflexivity | exfalso; apply Hc; reflexivity]. }
  split; [exact H|].
  destruct (strip_removes_exactly_the_marks unicode_excerpt pointed_av H) as [E1 E2].
  split; [rewrite E1; reflexivity|exact E2].
Defined.

(** The words [אב] and [בב] on two lines that end with a carriage return
    and a line feed. *)
Lemma word_lines_load_back_witness :
  Forall Word [[alef; bet]; [bet; bet]] /\
  loadWordlist unicode_excerpt fetch_404 BATCH_SIZE (str "custom") None
    (Some (join [13; 10] [[alef; bet]; [bet; bet]]))
    {| opt_stripNiqqud := false; opt_unique := true; opt_wholeWord := true |}
  = Returns [[alef; bet]; [bet; bet]].
Proof.
  assert (H : Forall Word [[alef; bet]; [bet; bet]]).
  { constructor; [exact Word_av|]. constructor; [exact Word_bb|constructor]. }
  assert (Hne : [[alef; bet]; [bet; bet]] <> []) by discriminate.
  split; [exact H|].
  exact (proj1 (word_lines_load_back unicode_excerpt fetch_404 BATCH_SIZE [13; 10]
                  [[alef; bet]; [bet; bet]] true true (or_intror eq_refl) H Hne)).
Defined.


End FurtherInstances.
